(** * webidl-napi: the conversion, dispatch and wrapping runtime

    A shallow embedding of [webidl-napi-inl.h].  The header is written
    against the Node-API handle interface, which is not part of the
    repository; module [Napi] gives that interface an executable model
    after its reference documentation (a heap of script objects, a table of
    references, the handle-scope stack, the pending exception), and the
    remaining modules embed the functions of the header over it, one
    definition per C++ function, with the C++ names.

    Conventions.
    - A function [napi_status f(napi_env, in..., Out* result)] becomes
      [f in... result env : napi_status * Out * napi_env]: the second
      component is what [*result] holds when the function returns, the
      argument [result] what it held on entry.  "The output was not
      written" is therefore the equation [result' = result].
    - A call of the handle interface returns [Ok out env'] or
      [Fail status env']; it never writes its output on failure.
    - A function with undefined behaviour on some inputs (a vector access
      out of range, a read through a null, dangling or uninitialised
      pointer, a second [delete]) returns an [option], [None] there.
    - The classes, their data members and the macros are declared in
      webidl-napi.h; the members are the ones the functions below use. *)

From Stdlib Require Import ZArith NArith Lia Bool String Ascii.
From Stdlib Require Import Floats.SpecFloat.
From stdpp Require Import base option list.

Local Open Scope Z_scope.

(** ** The handle interface *)

Module Napi.

Inductive napi_status :=
| napi_ok
| napi_invalid_arg
| napi_object_expected
| napi_string_expected
| napi_function_expected
| napi_number_expected
| napi_boolean_expected
| napi_array_expected
| napi_generic_failure
| napi_pending_exception
| napi_escape_called_twice
| napi_handle_scope_mismatch.

Inductive napi_valuetype :=
| napi_undefined
| napi_null
| napi_boolean
| napi_number
| napi_string
| napi_symbol
| napi_object
| napi_function
| napi_external
| napi_bigint.

Definition napi_status_eqb (a b : napi_status) : bool :=
  match a, b with
  | napi_ok, napi_ok
  | napi_invalid_arg, napi_invalid_arg
  | napi_object_expected, napi_object_expected
  | napi_string_expected, napi_string_expected
  | napi_function_expected, napi_function_expected
  | napi_number_expected, napi_number_expected
  | napi_boolean_expected, napi_boolean_expected
  | napi_array_expected, napi_array_expected
  | napi_generic_failure, napi_generic_failure
  | napi_pending_exception, napi_pending_exception
  | napi_escape_called_twice, napi_escape_called_twice
  | napi_handle_scope_mismatch, napi_handle_scope_mismatch => true
  | _, _ => false
  end.

Definition napi_valuetype_eqb (a b : napi_valuetype) : bool :=
  match a, b with
  | napi_undefined, napi_undefined
  | napi_null, napi_null
  | napi_boolean, napi_boolean
  | napi_number, napi_number
  | napi_string, napi_string
  | napi_symbol, napi_symbol
  | napi_object, napi_object
  | napi_function, napi_function
  | napi_external, napi_external
  | napi_bigint, napi_bigint => true
  | _, _ => false
  end.

(** A script value.  Numbers are IEEE binary64 ([spec_float] at precision
    53).  A string is a sequence of 16-bit code units; it is kept as the
    bytes of its generalised UTF-8 form: the UTF-8 form of its code
    points, a surrogate that is not half of a pair being written like
    any other code point, in three bytes (ED A0..BF 80..BF).  Byte strings
    of another form designate no script string.  Every object is a
    reference to a heap cell: two references are the same object exactly
    when the addresses are equal. *)
Inductive js_value :=
| JSUndefined
| JSNull
| JSBoolean (b : bool)
| JSNumber (d : spec_float)
| JSString (s : string)
| JSObject (addr : nat).

(** [napi_value] is a nullable handle; [None] is [nullptr]. *)
Definition napi_value := option js_value.

(** Native pointers ([void*], [T*], [Wrapping<T>*]) are addresses into the
    native store of the module that owns them; [None] is [nullptr]. *)
Definition pointer := option nat.

Inductive settlement :=
| Unsettled
| Fulfilled (v : js_value)
| Rejected (v : js_value).

Inductive cell_kind :=
| KObject
| KArray
| KFunction
| KError (message : string)
| KPromise (st : settlement).

(** A heap cell: its kind, its integer-indexed properties, and the native
    pointer attached by [napi_wrap], if any. *)
Record js_cell := {
  kind : cell_kind;
  elems : list js_value;
  wrapped : option pointer
}.

Inductive scope_kind :=
| PlainScope
| EscapableScope (escape_called : bool).

Definition napi_ref := option nat.
Definition napi_handle_scope := nat.
Definition napi_deferred := option nat.

(** The journal lists, oldest first, the effects whose order matters to
    the specification: element stores and loads on script objects, the
    lookup and the release of references, and the [delete] of native
    objects. *)
Inductive event :=
| SetElement (object : nat) (index : Z)
| GetElement (object : nat) (index : Z)
| GetReferenceValue (ref : nat)
| DeleteReference (ref : nat)
| DeleteNative (address : nat)
| DeleteWrapping (address : nat).

Record napi_env := {
  heap : list js_cell;
  references : list (option js_value);
  scopes : list scope_kind;
  last_exception : option js_value;
  journal : list event
}.

Definition empty_env : napi_env :=
  {| heap := []; references := []; scopes := []; last_exception := None;
     journal := [] |}.

Definition set_heap (h : list js_cell) (env : napi_env) : napi_env :=
  {| heap := h; references := references env; scopes := scopes env;
     last_exception := last_exception env; journal := journal env |}.

Definition set_references (r : list (option js_value)) (env : napi_env) : napi_env :=
  {| heap := heap env; references := r; scopes := scopes env;
     last_exception := last_exception env; journal := journal env |}.

Definition set_scopes (s : list scope_kind) (env : napi_env) : napi_env :=
  {| heap := heap env; references := references env; scopes := s;
     last_exception := last_exception env; journal := journal env |}.

Definition set_last_exception (x : option js_value) (env : napi_env) : napi_env :=
  {| heap := heap env; references := references env; scopes := scopes env;
     last_exception := x; journal := journal env |}.

Definition record (ev : event) (env : napi_env) : napi_env :=
  {| heap := heap env; references := references env; scopes := scopes env;
     last_exception := last_exception env; journal := journal env ++ [ev] |}.

(** The number of handle scopes opened and not yet closed. *)
Definition open_handle_scopes (env : napi_env) : nat := length (scopes env).

Inductive ret (A : Type) :=
| Ok (a : A) (env : napi_env)
| Fail (s : napi_status) (env : napi_env).
Arguments Ok {A} a env.
Arguments Fail {A} s env.

(** Calls that may run script code refuse to start while an exception is
    pending (the interface's preamble). *)
Definition preamble {A} (env : napi_env) (k : ret A) : ret A :=
  match last_exception env with
  | Some _ => Fail napi_pending_exception env
  | None => k
  end.

Definition alloc (c : js_cell) (env : napi_env) : nat * napi_env :=
  (length (heap env), set_heap (heap env ++ [c]) env).

(** *** Numbers *)

Definition prec : Z := 53.
Definition emax : Z := 1024.

(** [static_cast<double>] of an integer: round to nearest, ties to even. *)
Definition double_of_Z (z : Z) : spec_float := binary_normalize prec emax z 0 false.

(** The integer part of a finite double, [None] for NaN and infinities. *)
Definition double_trunc (d : spec_float) : option Z :=
  match d with
  | S754_zero _ => Some 0
  | S754_finite s m e =>
      let magnitude :=
        if 0 <=? e then Z.shiftl (Zpos m) e else Z.shiftr (Zpos m) (- e) in
      Some (if s then - magnitude else magnitude)
  | S754_infinity _ | S754_nan => None
  end.

Definition wrap_unsigned (bits : Z) (z : Z) : Z := z mod 2 ^ bits.

Definition wrap_signed (bits : Z) (z : Z) : Z :=
  let u := z mod 2 ^ bits in
  if u <? 2 ^ (bits - 1) then u else u - 2 ^ bits.

Definition INT64_MIN : Z := - 2 ^ 63.
Definition INT64_MAX : Z := 2 ^ 63 - 1.

Definition napi_create_uint32 (value : Z) (env : napi_env) : ret napi_value :=
  Ok (Some (JSNumber (double_of_Z value))) env.

Definition napi_create_int32 (value : Z) (env : napi_env) : ret napi_value :=
  Ok (Some (JSNumber (double_of_Z value))) env.

Definition napi_create_int64 (value : Z) (env : napi_env) : ret napi_value :=
  Ok (Some (JSNumber (double_of_Z value))) env.

Definition napi_create_double (value : spec_float) (env : napi_env) : ret napi_value :=
  Ok (Some (JSNumber value)) env.

(** Out of range numbers are reduced modulo 2^32; NaN and the infinities
    give zero. *)
Definition napi_get_value_uint32 (value : napi_value) (env : napi_env) : ret Z :=
  match value with
  | None => Fail napi_invalid_arg env
  | Some (JSNumber d) =>
      Ok (match double_trunc d with
          | Some z => wrap_unsigned 32 z
          | None => 0
          end) env
  | Some _ => Fail napi_number_expected env
  end.

Definition napi_get_value_int32 (value : napi_value) (env : napi_env) : ret Z :=
  match value with
  | None => Fail napi_invalid_arg env
  | Some (JSNumber d) =>
      Ok (match double_trunc d with
          | Some z => wrap_signed 32 z
          | None => 0
          end) env
  | Some _ => Fail napi_number_expected env
  end.

(** Out of range numbers saturate; NaN and the infinities give zero. *)
Definition napi_get_value_int64 (value : napi_value) (env : napi_env) : ret Z :=
  match value with
  | None => Fail napi_invalid_arg env
  | Some (JSNumber d) =>
      Ok (match double_trunc d with
          | Some z => Z.max INT64_MIN (Z.min INT64_MAX z)
          | None => 0
          end) env
  | Some _ => Fail napi_number_expected env
  end.

Definition napi_get_value_double (value : napi_value) (env : napi_env) : ret spec_float :=
  match value with
  | None => Fail napi_invalid_arg env
  | Some (JSNumber d) => Ok d env
  | Some _ => Fail napi_number_expected env
  end.

(** *** Strings *)

Definition NUL : ascii := Ascii.zero.

(** What a [const char*] reader sees of a buffer: the bytes before the
    first NUL. *)
Fixpoint c_str (s : string) : string :=
  match s with
  | EmptyString => EmptyString
  | String c s' => if Ascii.eqb c NUL then EmptyString else String c (c_str s')
  end.

Fixpoint string_take (n : nat) (s : string) : string :=
  match n, s with
  | S n', String c s' => String c (string_take n' s')
  | _, _ => EmptyString
  end.

Fixpoint string_drop (n : nat) (s : string) : string :=
  match n, s with
  | S n', String _ s' => string_drop n' s'
  | _, _ => s
  end.

(** The code of a byte, and membership in a range of codes. *)
Definition code (c : ascii) : N := N_of_ascii c.

Definition between (lo hi : N) (c : ascii) : bool :=
  ((lo <=? code c) && (code c <=? hi))%N.

(** The bytes that may follow a lead byte in UTF-8: 80..BF, except that
    the second byte is at least A0 after E0 and at least 90 after F0 (no
    overlong form), at most 9F after ED (no surrogate) and at most 8F
    after F4 (nothing above U+10FFFF). *)
Definition continuation (c : ascii) : bool := between 0x80 0xBF c.

Definition second_low (b0 : ascii) : N :=
  if (code b0 =? 0xE0)%N then 0xA0%N
  else if (code b0 =? 0xF0)%N then 0x90%N else 0x80%N.

Definition second_high (b0 : ascii) : N :=
  if (code b0 =? 0xED)%N then 0x9F%N
  else if (code b0 =? 0xF4)%N then 0x8F%N else 0xBF%N.

Definition second (b0 b1 : ascii) : bool :=
  between (second_low b0) (second_high b0) b1.

(** U+FFFD, the replacement character, in UTF-8. *)
Definition REPLACEMENT : string :=
  String (ascii_of_N 0xEF) (String (ascii_of_N 0xBF) (String (ascii_of_N 0xBD) EmptyString)).

(** Well-formed UTF-8: one byte 00..7F, or a lead byte C2..DF, E0..EF or
    F0..F4 followed by one, two or three bytes in the ranges above. *)
Fixpoint well_formed (s : string) : bool :=
  match s with
  | EmptyString => true
  | String b0 s1 =>
      if between 0x00 0x7F b0 then well_formed s1
      else if between 0xC2 0xDF b0 then
        match s1 with
        | String b1 s2 => continuation b1 && well_formed s2
        | _ => false
        end
      else if between 0xE0 0xEF b0 then
        match s1 with
        | String b1 (String b2 s3) => second b0 b1 && continuation b2 && well_formed s3
        | _ => false
        end
      else if between 0xF0 0xF4 b0 then
        match s1 with
        | String b1 (String b2 (String b3 s4)) =>
            second b0 b1 && continuation b2 && continuation b3 && well_formed s4
        | _ => false
        end
      else false
  end.

(** The script string that the host makes of bytes it decodes as UTF-8.
    A well-formed sequence is a code point of the string.  Where the
    input is ill-formed, the longest run of bytes that begins a
    well-formed sequence, or else one byte, becomes U+FFFD, and decoding
    resumes at the byte that did not fit. *)
Fixpoint from_utf8 (s : string) : string :=
  match s with
  | EmptyString => EmptyString
  | String b0 s1 =>
      if between 0x00 0x7F b0 then String b0 (from_utf8 s1)
      else if between 0xC2 0xDF b0 then
        match s1 with
        | EmptyString => REPLACEMENT
        | String b1 s2 =>
            if continuation b1 then String b0 (String b1 (from_utf8 s2))
            else (REPLACEMENT ++ from_utf8 s1)%string
        end
      else if between 0xE0 0xEF b0 then
        match s1 with
        | EmptyString => REPLACEMENT
        | String b1 s2 =>
            if second b0 b1 then
              match s2 with
              | EmptyString => REPLACEMENT
              | String b2 s3 =>
                  if continuation b2 then String b0 (String b1 (String b2 (from_utf8 s3)))
                  else (REPLACEMENT ++ from_utf8 s2)%string
              end
            else (REPLACEMENT ++ from_utf8 s1)%string
        end
      else if between 0xF0 0xF4 b0 then
        match s1 with
        | EmptyString => REPLACEMENT
        | String b1 s2 =>
            if second b0 b1 then
              match s2 with
              | EmptyString => REPLACEMENT
              | String b2 s3 =>
                  if continuation b2 then
                    match s3 with
                    | EmptyString => REPLACEMENT
                    | String b3 s4 =>
                        if continuation b3 then
                          String b0 (String b1 (String b2 (String b3 (from_utf8 s4))))
                        else (REPLACEMENT ++ from_utf8 s3)%string
                    end
                  else (REPLACEMENT ++ from_utf8 s2)%string
              end
            else (REPLACEMENT ++ from_utf8 s1)%string
        end
      else (REPLACEMENT ++ from_utf8 s1)%string
  end.

(** The UTF-8 bytes that the host writes for a script string: those of
    its code points, with U+FFFD in place of a surrogate that is not half
    of a pair. *)
Fixpoint to_utf8 (s : string) : string :=
  match s with
  | EmptyString => EmptyString
  | String b0 s1 =>
      if (code b0 =? 0xED)%N then
        match s1 with
        | String b1 (String b2 s3) =>
            if between 0xA0 0xBF b1 then (REPLACEMENT ++ to_utf8 s3)%string
            else String b0 (to_utf8 s1)
        | _ => String b0 (to_utf8 s1)
        end
      else String b0 (to_utf8 s1)
  end.

(** [napi_create_string_utf8(env, str, NAPI_AUTO_LENGTH, &result)]: the
    length is found with [strlen] and the bytes are decoded as UTF-8. *)
Definition napi_create_string_utf8_auto (str : string) (env : napi_env) : ret napi_value :=
  Ok (Some (JSString (from_utf8 (c_str str)))) env.

(** [napi_get_value_string_utf8(env, value, nullptr, 0, &size)]: the
    length in bytes of the UTF-8 form, without the terminator. *)
Definition napi_get_value_string_utf8_length (value : napi_value) (env : napi_env)
  : ret nat :=
  match value with
  | None => Fail napi_invalid_arg env
  | Some (JSString s) => Ok (String.length (to_utf8 s)) env
  | Some _ => Fail napi_string_expected env
  end.

(** [napi_get_value_string_utf8(env, value, buf, bufsize, &size)] with a
    buffer: at most [bufsize - 1] bytes of the UTF-8 form are copied to
    the front of [buf] and a NUL is written after them; the rest of [buf]
    is left as it was.  Returns the new buffer and the number of bytes
    copied.  The string codec hands in a buffer that holds the whole
    form. *)
Definition napi_get_value_string_utf8 (value : napi_value) (buf : string) (bufsize : nat)
    (env : napi_env) : ret (string * nat) :=
  match value with
  | None => Fail napi_invalid_arg env
  | Some (JSString s) =>
      match bufsize with
      | O => Ok (buf, O) env
      | S room =>
          let copied := string_take room (to_utf8 s) in
          let n := String.length copied in
          Ok ((copied ++ String NUL (string_drop (S n) buf))%string, n) env
      end
  | Some _ => Fail napi_string_expected env
  end.

(** *** Types, arrays and scopes *)

Definition napi_typeof (value : napi_value) (env : napi_env) : ret napi_valuetype :=
  match value with
  | None => Fail napi_invalid_arg env
  | Some JSUndefined => Ok napi_undefined env
  | Some JSNull => Ok napi_null env
  | Some (JSBoolean _) => Ok napi_boolean env
  | Some (JSNumber _) => Ok napi_number env
  | Some (JSString _) => Ok napi_string env
  | Some (JSObject a) =>
      match heap env !! a with
      | Some c =>
          Ok (match kind c with KFunction => napi_function | _ => napi_object end) env
      | None => Fail napi_invalid_arg env
      end
  end.

Definition napi_create_array (env : napi_env) : ret napi_value :=
  let '(a, env') := alloc {| kind := KArray; elems := []; wrapped := None |} env in
  Ok (Some (JSObject a)) env'.

(** Storing at an index past the end extends the element list with
    [undefined], as the script language does. *)
Definition store_element (l : list js_value) (i : nat) (v : js_value) : list js_value :=
  if decide (i < length l)%nat then <[i := v]> l
  else l ++ replicate (i - length l) JSUndefined ++ [v].

Definition set_elems (l : list js_value) (c : js_cell) : js_cell :=
  {| kind := kind c; elems := l; wrapped := wrapped c |}.

Definition napi_set_element (object : napi_value) (index : Z) (value : napi_value)
    (env : napi_env) : ret unit :=
  preamble env
    match value, object with
    | None, _ => Fail napi_invalid_arg env
    | _, None => Fail napi_invalid_arg env
    | Some v, Some (JSObject a) =>
        match heap env !! a with
        | Some c =>
            Ok tt (record (SetElement a index)
                     (set_heap
                        (<[a := set_elems (store_element (elems c) (Z.to_nat index) v) c]>
                           (heap env)) env))
        | None => Fail napi_object_expected env
        end
    | Some _, Some _ => Fail napi_object_expected env
    end.

Definition napi_get_element (object : napi_value) (index : Z) (env : napi_env)
  : ret napi_value :=
  preamble env
    match object with
    | None => Fail napi_invalid_arg env
    | Some (JSObject a) =>
        match heap env !! a with
        | Some c =>
            Ok (Some (default JSUndefined (elems c !! Z.to_nat index)))
               (record (GetElement a index) env)
        | None => Fail napi_object_expected env
        end
    | Some _ => Fail napi_object_expected env
    end.

Definition napi_get_array_length (value : napi_value) (env : napi_env) : ret Z :=
  match value with
  | None => Fail napi_invalid_arg env
  | Some (JSObject a) =>
      match heap env !! a with
      | Some {| kind := KArray; elems := l |} => Ok (Z.of_nat (length l)) env
      | _ => Fail napi_array_expected env
      end
  | Some _ => Fail napi_array_expected env
  end.

Definition napi_open_handle_scope (env : napi_env) : ret napi_handle_scope :=
  Ok (length (scopes env)) (set_scopes (scopes env ++ [PlainScope]) env).

Definition napi_open_escapable_handle_scope (env : napi_env) : ret napi_handle_scope :=
  Ok (length (scopes env)) (set_scopes (scopes env ++ [EscapableScope false]) env).

(** Closing removes the innermost open scope; with none open it reports
    [napi_handle_scope_mismatch]. *)
Definition napi_close_handle_scope (scope : napi_handle_scope) (env : napi_env) : ret unit :=
  match scopes env with
  | [] => Fail napi_handle_scope_mismatch env
  | _ => Ok tt (set_scopes (removelast (scopes env)) env)
  end.

Definition napi_close_escapable_handle_scope := napi_close_handle_scope.

Definition napi_escape_handle (scope : napi_handle_scope) (escapee : napi_value)
    (env : napi_env) : ret napi_value :=
  match escapee with
  | None => Fail napi_invalid_arg env
  | Some v =>
      match scopes env !! scope with
      | Some (EscapableScope false) =>
          Ok (Some v) (set_scopes (<[scope := EscapableScope true]> (scopes env)) env)
      | Some (EscapableScope true) => Fail napi_escape_called_twice env
      | _ => Fail napi_invalid_arg env
      end
  end.

(** *** References, wrapping, exceptions, promises *)

(** References are created for objects only, with the initial count the
    caller gives; a count of one keeps the object alive, so the reference
    yields its object until it is deleted. *)
Definition napi_create_reference (value : napi_value) (env : napi_env) : ret napi_ref :=
  match value with
  | Some (JSObject a) =>
      Ok (Some (length (references env)))
         (set_references (references env ++ [Some (JSObject a)]) env)
  | _ => Fail napi_invalid_arg env
  end.

Definition live_reference (ref : napi_ref) (env : napi_env) : option js_value :=
  match ref with
  | Some r => mjoin (references env !! r)
  | None => None
  end.

Definition napi_get_reference_value (ref : napi_ref) (env : napi_env) : ret napi_value :=
  match ref, live_reference ref env with
  | Some r, Some v => Ok (Some v) (record (GetReferenceValue r) env)
  | _, _ => Fail napi_invalid_arg env
  end.

Definition napi_delete_reference (ref : napi_ref) (env : napi_env) : ret unit :=
  match ref, live_reference ref env with
  | Some r, Some _ =>
      Ok tt (record (DeleteReference r)
               (set_references (<[r := None]> (references env)) env))
  | _, _ => Fail napi_invalid_arg env
  end.

Definition set_wrapped (p : option pointer) (c : js_cell) : js_cell :=
  {| kind := kind c; elems := elems c; wrapped := p |}.

Definition napi_wrap (js_object : napi_value) (native_object : pointer) (env : napi_env)
  : ret unit :=
  preamble env
    match js_object with
    | None => Fail napi_invalid_arg env
    | Some (JSObject a) =>
        match heap env !! a with
        | Some c =>
            match wrapped c with
            | Some _ => Fail napi_invalid_arg env
            | None =>
                Ok tt (set_heap (<[a := set_wrapped (Some native_object) c]> (heap env)) env)
            end
        | None => Fail napi_object_expected env
        end
    | Some _ => Fail napi_object_expected env
    end.

Definition napi_unwrap (js_object : napi_value) (env : napi_env) : ret pointer :=
  preamble env
    match js_object with
    | Some (JSObject a) =>
        match heap env !! a ≫= wrapped with
        | Some p => Ok p env
        | None => Fail napi_invalid_arg env
        end
    | _ => Fail napi_invalid_arg env
    end.

(** [napi_throw_error(env, nullptr, msg)]: builds an error object carrying
    [msg] and makes it the pending exception. *)
Definition napi_throw_error (msg : string) (env : napi_env) : ret unit :=
  preamble env
    (let '(a, env') := alloc {| kind := KError msg; elems := []; wrapped := None |} env in
     Ok tt (set_last_exception (Some (JSObject a)) env')).

Definition napi_is_exception_pending (env : napi_env) : bool :=
  match last_exception env with Some _ => true | None => false end.

Definition napi_create_error (msg : napi_value) (env : napi_env) : ret napi_value :=
  match msg with
  | None => Fail napi_invalid_arg env
  | Some (JSString s) =>
      let '(a, env') := alloc {| kind := KError s; elems := []; wrapped := None |} env in
      Ok (Some (JSObject a)) env'
  | Some _ => Fail napi_string_expected env
  end.

(** [napi_create_promise]: a fresh unsettled promise object; the deferred
    handle designates it. *)
Definition napi_create_promise (env : napi_env) : ret (napi_deferred * napi_value) :=
  preamble env
    (let '(a, env') :=
       alloc {| kind := KPromise Unsettled; elems := []; wrapped := None |} env in
     Ok (Some a, Some (JSObject a)) env').

Definition set_kind (k : cell_kind) (c : js_cell) : js_cell :=
  {| kind := k; elems := elems c; wrapped := wrapped c |}.

Definition conclude_deferred (deferred : napi_deferred) (value : napi_value)
    (settle : js_value -> settlement) (env : napi_env) : ret unit :=
  preamble env
    match deferred, value with
    | Some a, Some v =>
        match heap env !! a with
        | Some c =>
            match kind c with
            | KPromise Unsettled =>
                Ok tt (set_heap (<[a := set_kind (KPromise (settle v)) c]> (heap env)) env)
            | _ => Fail napi_invalid_arg env
            end
        | None => Fail napi_invalid_arg env
        end
    | _, _ => Fail napi_invalid_arg env
    end.

Definition napi_resolve_deferred deferred resolution :=
  conclude_deferred deferred resolution Fulfilled.

Definition napi_reject_deferred deferred rejection :=
  conclude_deferred deferred rejection Rejected.

(** *** Callback information *)

Record napi_callback_info := {
  cb_this : napi_value;
  cb_args : list napi_value;
  cb_new_target : napi_value;
  cb_data : pointer
}.

Definition napi_get_new_target (info : napi_callback_info) (env : napi_env)
  : ret napi_value :=
  Ok (cb_new_target info) env.

(** [napi_get_cb_info] hands out the receiver, the data pointer and the
    first [argc] arguments, padding with [undefined]. *)
Definition napi_get_cb_info (info : napi_callback_info) (argc : nat) (env : napi_env)
  : ret (list napi_value * napi_value * pointer) :=
  Ok (take argc (cb_args info ++ replicate argc (Some JSUndefined)),
      cb_this info, cb_data info) env.

End Napi.

(** ** The value conversion framework: [Converter<T>] *)

Module Conversion.
Import Napi.

(** The outcome of a function that returns a status and writes through an
    output pointer: the status, the pointee on return, the environment. *)
Definition outcome (A : Type) : Type := napi_status * A * napi_env.

Definition status_of {A} (o : outcome A) : napi_status := o.1.1.
Definition output_of {A} (o : outcome A) : A := o.1.2.
Definition env_of {A} (o : outcome A) : napi_env := o.2.

(** Modelled from the spec: [STATUS_CALL] is declared in webidl-napi.h.
    A failure of the call is propagated immediately as the status the
    enclosing function returns (short-circuit).  IsConstructCall,
    PickSignature, Retrieve and SetRef use the macro with neither a
    [status] local nor a [fail] label in scope, so it cannot assign to the
    one or jump to the other.  [status_call] is the macro around a call of
    the handle interface, inside a function whose output currently holds
    [result]. *)
Definition status_call {A B} (call : ret A) (result : B)
    (k : A -> napi_env -> outcome B) : outcome B :=
  match call with
  | Ok a env => k a env
  | Fail s env => (s, result, env)
  end.

(** [STATUS_CALL(call)] around a call of another function of this file,
    which wrote [a] through the pointer it was given. *)
Definition status_call_fn {A B} (call : outcome A) (result : B)
    (k : A -> napi_env -> outcome B) : outcome B :=
  match call with
  | (napi_ok, a, env) => k a env
  | (s, _, env) => (s, result, env)
  end.

(** [return call;] where [call] writes straight through [result]. *)
Definition return_call {A} (call : ret A) (result : A) : outcome A :=
  match call with
  | Ok a env => (napi_ok, a, env)
  | Fail s env => (s, result, env)
  end.

Declare Scope napi_scope.
Delimit Scope napi_scope with napi.
Notation "'STATUS_CALL' ( x , env ) <- call 'keeping' result ;; k" :=
  (status_call call result (fun x env => k))
  (at level 10, x pattern, env name, call at level 100, result at level 9,
   k at level 200,
   format "'[v' 'STATUS_CALL'  ( x ,  env )  <-  call  'keeping'  result  ;; '/' k ']'")
  : napi_scope.
Notation "'STATUS_CALL_FN' ( x , env ) <- call 'keeping' result ;; k" :=
  (status_call_fn call result (fun x env => k))
  (at level 10, x pattern, env name, call at level 100, result at level 9,
   k at level 200,
   format "'[v' 'STATUS_CALL_FN'  ( x ,  env )  <-  call  'keeping'  result  ;; '/' k ']'")
  : napi_scope.
Local Open Scope napi_scope.

(** Modelled from the spec: [NAPI_CALL_RETURN_VOID] and [NAPI_CALL] are
    declared in webidl-napi.h.  A failing call is surfaced through the
    exception mechanism (an error describing the status is thrown unless
    an exception is already pending) and the enclosing function returns
    at once, with [nullptr] where it returns a value. *)
Definition error_message (s : napi_status) : string :=
  match s with
  | napi_ok => "empty error message"
  | napi_invalid_arg => "Invalid argument"
  | napi_object_expected => "An object was expected"
  | napi_string_expected => "A string was expected"
  | napi_function_expected => "A function was expected"
  | napi_number_expected => "A number was expected"
  | napi_boolean_expected => "A boolean was expected"
  | napi_array_expected => "An array was expected"
  | napi_generic_failure => "Unknown failure"
  | napi_pending_exception => "An exception is pending"
  | napi_escape_called_twice => "napi_escape_handle already called on scope"
  | napi_handle_scope_mismatch => "Invalid handle scope usage"
  end%string.

Definition throw_last_error (s : napi_status) (env : napi_env) : napi_env :=
  if napi_is_exception_pending env then env
  else match napi_throw_error (error_message s) env with
       | Ok _ env' | Fail _ env' => env'
       end.

(** The two static members of [Converter<T>]. *)
Record Converter (T : Type) := {
  ToNative : napi_value -> T -> napi_env -> outcome T;
  ToJS : T -> napi_value -> napi_env -> outcome napi_value
}.
Arguments ToNative {T} _ _ _ _.
Arguments ToJS {T} _ _ _ _.

(** Native types.  The fixed-width integers are integers in the range of
    their width; [unsigned long] has 64 bits (LP64). *)
Definition uint32_t := Z.
Definition int32_t := Z.
Definition int64_t := Z.
Definition unsigned_long := Z.
Definition double := spec_float.
Definition DOMString := string.
Definition object := napi_value.

Definition is_uint32 (x : Z) : Prop := 0 <= x < 2 ^ 32.
Definition is_int32 (x : Z) : Prop := - 2 ^ 31 <= x < 2 ^ 31.
Definition is_int64 (x : Z) : Prop := - 2 ^ 63 <= x < 2 ^ 63.
Definition is_unsigned_long (x : Z) : Prop := 0 <= x < 2 ^ 64.

(** An integer that binary64 holds exactly: it has at most 53 significant
    bits. *)
Definition binary64_exact (z : Z) : bool :=
  let a := Z.abs z in
  a mod 2 ^ Z.max 0 (Z.log2 a - 52) =? 0.

(** [static_cast<unsigned long>(int64_t)] and back. *)
Definition unsigned_long_of_int64 (x : int64_t) : unsigned_long := wrap_unsigned 64 x.
Definition int64_of_unsigned_long (x : unsigned_long) : int64_t := wrap_signed 64 x.

Definition Converter_uint32_t : Converter uint32_t := {|
  ToNative value result env := return_call (napi_get_value_uint32 value env) result;
  ToJS value result env := return_call (napi_create_uint32 value env) result
|}.

Definition Converter_int32_t : Converter int32_t := {|
  ToNative value result env := return_call (napi_get_value_int32 value env) result;
  ToJS value result env := return_call (napi_create_int32 value env) result
|}.

Definition Converter_int64_t : Converter int64_t := {|
  ToNative value result env := return_call (napi_get_value_int64 value env) result;
  ToJS value result env := return_call (napi_create_int64 value env) result
|}.

Definition Converter_double : Converter double := {|
  ToNative value result env := return_call (napi_get_value_double value env) result;
  ToJS value result env := return_call (napi_create_double value env) result
|}.

(** [std::string::resize(n)]: truncate, or pad with NUL characters. *)
Fixpoint resize (n : nat) (s : string) : string :=
  match n with
  | O => EmptyString
  | S n' =>
      match s with
      | EmptyString => String NUL (resize n' EmptyString)
      | String c s' => String c (resize n' s')
      end
  end.

(** The string is resized to the reported length plus one and the second
    call writes into its buffer, terminator included; the string keeps
    that size. *)
Definition DOMString_ToNative (str : napi_value) (result : DOMString) (env : napi_env)
  : outcome DOMString :=
  STATUS_CALL (size, env) <- napi_get_value_string_utf8_length str env keeping result ;;
  let result := resize (size + 1) result in
  STATUS_CALL (written, env) <-
    napi_get_value_string_utf8 str result (size + 1) env keeping result ;;
  (napi_ok, written.1, env).

Definition DOMString_ToJS (str : DOMString) (result : napi_value) (env : napi_env)
  : outcome napi_value :=
  return_call (napi_create_string_utf8_auto str env) result.

Definition Converter_DOMString : Converter DOMString := {|
  ToNative := DOMString_ToNative;
  ToJS := DOMString_ToJS
|}.

Definition Converter_object : Converter object := {|
  ToNative val result env := (napi_ok, val, env);
  ToJS val result env := (napi_ok, val, env)
|}.

(** [from_js] is an uninitialised local; it is read only after the inner
    conversion has written it. *)
Definition unsigned_long_ToNative (val : napi_value) (result : unsigned_long)
    (env : napi_env) : outcome unsigned_long :=
  let from_js : int64_t := 0 in
  let '(status, from_js, env) := ToNative Converter_int64_t val from_js env in
  (status,
   if napi_status_eqb status napi_ok then unsigned_long_of_int64 from_js else result,
   env).

Definition unsigned_long_ToJS (val : unsigned_long) (result : napi_value) (env : napi_env)
  : outcome napi_value :=
  let to_js := int64_of_unsigned_long val in
  ToJS Converter_int64_t to_js result env.

Definition Converter_unsigned_long : Converter unsigned_long := {|
  ToNative := unsigned_long_ToNative;
  ToJS := unsigned_long_ToJS
|}.

(** A codec mints when every object handle its [ToJS] returns designates
    a heap cell allocated during that very call. *)
Definition mints {T} (C : Converter T) : Prop :=
  forall x r env b env',
    ToJS C x r env = (napi_ok, Some (JSObject b), env') ->
    (length (heap env) <= b < length (heap env'))%nat.

(** The double 1.5. *)
Definition one_and_a_half : double := S754_finite false 6755399441055744 (-52).

(** The double -0. *)
Definition minus_zero : double := S754_zero true.

(** The byte FF followed by the letter A: no UTF-8. *)
Definition stray_byte : DOMString :=
  String (ascii_of_N 0xFF) (String (ascii_of_N 0x41) EmptyString).

(** The surrogate U+D800 with no second half, as a script string, and
    the replacement character U+FFFD. *)
Definition lone_surrogate : string :=
  String (ascii_of_N 0xED) (String (ascii_of_N 0xA0) (String (ascii_of_N 0x80) EmptyString)).

(** [ToJS] followed by [ToNative] of what it produced: the final status and
    native value.  [js0] and [native0] are what the two output variables
    hold beforehand. *)
Definition there_and_back {T} (C : Converter T) (x : T) (js0 : napi_value) (native0 : T)
    (env : napi_env) : napi_status * T :=
  match ToJS C x js0 env with
  | (napi_ok, v, env') =>
      let '(s, y, _) := ToNative C v native0 env' in (s, y)
  | (s, _, _) => (s, native0)
  end.

(** [ToNative] followed by [ToJS]: the final status and script value. *)
Definition back_and_there {T} (C : Converter T) (v : napi_value) (native0 : T)
    (js0 : napi_value) (env : napi_env) : napi_status * napi_value :=
  match ToNative C v native0 env with
  | (napi_ok, x, env') =>
      let '(s, w, _) := ToJS C x js0 env' in (s, w)
  | (s, _, _) => (s, js0)
  end.

End Conversion.

(** ** Container codecs: [details::ArrayToJS], [details::ArrayToNative] *)

Module Containers.
Import Napi Conversion.
Local Open Scope napi_scope.

Section Array.
Context {T : Type}.
(** [Converter<T>] of the element type, and the value-initialised [T{}]
    that [resize] fills a vector with. *)
Variable C : Converter T.
Variable T_default : T.

(** The body of the loop of [ArrayToJS] for the elements from [idx] on.
    [member] is an uninitialised local handed to the element codec.  The
    counter is an [int] in the source; it is not bounded here, so the
    embedding speaks of containers of fewer than 2^31 elements. *)
Fixpoint ArrayToJS_for (items : list T) (idx : Z) (res : napi_value) (env : napi_env)
  : outcome unit :=
  match items with
  | [] => (napi_ok, tt, env)
  | item :: rest =>
      let member : napi_value := None in
      STATUS_CALL_FN (member, env) <- ToJS C item member env keeping tt ;;
      STATUS_CALL (_, env) <- napi_set_element res idx member env keeping tt ;;
      ArrayToJS_for rest (idx + 1) res env
  end.

(** The [fail:] label of [ArrayToJS] closes the scope and returns the
    status, but no [goto] leads to it: every [STATUS_CALL] returns on the
    spot.  [freeze] is ignored, as in the source. *)
Definition ArrayToJS (freeze : bool) (ar : list T) (result : napi_value) (env : napi_env)
  : outcome napi_value :=
  STATUS_CALL (scope, env) <- napi_open_escapable_handle_scope env keeping result ;;
  STATUS_CALL (res, env) <- napi_create_array env keeping result ;;
  STATUS_CALL_FN (_, env) <- ArrayToJS_for ar 0 res env keeping result ;;
  STATUS_CALL (res, env) <- napi_escape_handle scope res env keeping result ;;
  STATUS_CALL (_, env) <- napi_close_escapable_handle_scope scope env keeping result ;;
  (napi_ok, res, env).

(** [res.at(idx)] as an output: the element is replaced by what the
    element codec leaves in it.  [idx] stays below the size [res] was
    resized to, so [at] never throws. *)
Fixpoint ArrayToNative_for (count : nat) (idx : Z) (ar : napi_value) (res : list T)
    (env : napi_env) : outcome (list T) :=
  match count with
  | O => (napi_ok, res, env)
  | S count' =>
      STATUS_CALL (member, env) <- napi_get_element ar idx env keeping res ;;
      let slot := default T_default (res !! Z.to_nat idx) in
      STATUS_CALL_FN (slot, env) <- ToNative C member slot env keeping res ;;
      ArrayToNative_for count' (idx + 1) ar (<[Z.to_nat idx := slot]> res) env
  end.

Definition ArrayToNative (ar : napi_value) (result : list T) (env : napi_env)
  : outcome (list T) :=
  let res : list T := [] in
  STATUS_CALL (scope, env) <- napi_open_handle_scope env keeping result ;;
  STATUS_CALL (size, env) <- napi_get_array_length ar env keeping result ;;
  let res := replicate (Z.to_nat size) T_default in
  STATUS_CALL_FN (res, env) <-
    ArrayToNative_for (Z.to_nat size) 0 ar res env keeping result ;;
  STATUS_CALL (_, env) <- napi_close_handle_scope scope env keeping result ;;
  (napi_ok, res, env).

(** [sequence<T>] and [FrozenArray<T>] are vectors of [T]; their static
    members and their [Converter] specialisations forward to the two
    functions above. *)
Definition sequence_ToJS := ArrayToJS false.
Definition sequence_ToNative := ArrayToNative.

Definition Converter_sequence : Converter (list T) :=
  {| ToNative := sequence_ToNative; ToJS := sequence_ToJS |}.

End Array.

(** The events of [l] that concern the object at address [a]. *)
Definition about (a : nat) (ev : event) : bool :=
  match ev with
  | SetElement o _ | GetElement o _ => Nat.eqb o a
  | _ => false
  end.

Definition events_about (a : nat) (l : list event) : list event :=
  List.filter (about a) l.



(** No exception is pending. *)
Definition quiet (env : napi_env) : Prop := last_exception env = None.

(** [env'] has the cells of [env], unchanged, and possibly more. *)
Definition extends (env env' : napi_env) : Prop := heap env `prefix_of` heap env'.

(** [env2] has the cells that [env] has from address [b] on, unchanged. *)
Definition agree_from (b : nat) (env env2 : napi_env) : Prop :=
  forall i, (b <= i < length (heap env))%nat -> heap env2 !! i = heap env !! i.

(** Between [env] and [env'] the journal only grew, and by no event
    about an object below address [b]. *)
Definition fresh_events (b : nat) (env env' : napi_env) : Prop :=
  exists evs, journal env' = journal env ++ evs /\
              forall a, (a < b)%nat -> events_about a evs = [].

Section RoundTrip.
Context {T : Type}.
Variable C : Converter T.

(** The script value [v], made from [x] when the heap had [b] cells and
    the conversion ended in [env'], converts back to [x] in every later
    environment that kept the cells made since. *)
Definition converts_back (x : T) (v : js_value) (b : nat) (env' : napi_env) : Prop :=
  forall env2 r0, quiet env2 -> agree_from b env' env2 ->
    exists env3,
      ToNative C (Some v) r0 env2 = (napi_ok, x, env3) /\
      extends env2 env3 /\ scopes env3 = scopes env2 /\ quiet env3 /\
      fresh_events b env2 env3.

(** The element codec takes [x] to a script value and that value back to
    [y]: [ToJS] succeeds whenever no exception is pending, keeps the
    existing cells and the scopes, and its result converts back to [y]. *)
Definition trips (x y : T) : Prop :=
  forall env r, quiet env ->
    exists v env',
      ToJS C x r env = (napi_ok, Some v, env') /\
      extends env env' /\ scopes env' = scopes env /\ quiet env' /\
      fresh_events (length (heap env)) env env' /\
      converts_back y v (length (heap env)) env'.

End RoundTrip.

(** An array cell. *)
Definition array_cell (l : list js_value) : js_cell :=
  {| kind := KArray; elems := l; wrapped := None |}.

(** An environment whose only object is the array [["x"]], and one in
    which an exception is pending. *)
Definition text_array_env : napi_env :=
  set_heap [array_cell [JSString "x"]] empty_env.

Definition throwing_env : napi_env :=
  set_last_exception (Some JSNull) empty_env.

End Containers.

(** ** Construct-call guard and overload resolution *)

Module Dispatch.
Import Napi Conversion.
Local Open Scope napi_scope.
Local Open Scope string_scope.

Definition IsConstructCall_message (ifname : string) : string :=
  "Non-construct calls to the `" ++ ifname ++ "` constructor are not supported.".

Definition IsConstructCall (info : napi_callback_info) (ifname : string) (result : bool)
    (env : napi_env) : outcome bool :=
  let res := true in
  STATUS_CALL (new_target, env) <- napi_get_new_target info env keeping result ;;
  match new_target with
  | None =>
      STATUS_CALL (_, env) <-
        napi_throw_error (IsConstructCall_message ifname) env keeping result ;;
      let res := false in
      (napi_ok, res, env)
  | Some _ => (napi_ok, res, env)
  end.

(** [webidl_sig]: the expected type tags of one signature and its
    "still a candidate" flag. *)
Record webidl_sig := {
  candidate : bool;
  sig : list napi_valuetype
}.

(** The innermost statement of the first loop, for one signature:
    [if (sig.candidate) if (idx >= sig.sig.size() || sig.sig[idx] != val_type)
       sig.candidate = false;] *)
Definition PickSignature_mark (idx : nat) (val_type : napi_valuetype) (s : webidl_sig)
  : webidl_sig :=
  if candidate s then
    match sig s !! idx with
    | None => {| candidate := false; sig := sig s |}
    | Some expected =>
        if napi_valuetype_eqb expected val_type then s
        else {| candidate := false; sig := sig s |}
    end
  else s.

(** The marks one signature receives from the arguments whose type tags
    are [types], the first of them at position [idx]. *)
Fixpoint PickSignature_marks (idx : nat) (types : list napi_valuetype) (s : webidl_sig)
  : webidl_sig :=
  match types with
  | [] => s
  | t :: rest => PickSignature_marks (S idx) rest (PickSignature_mark idx t s)
  end.

(** The first loop, for the arguments from position [idx] on. *)
Fixpoint PickSignature_scan (idx : nat) (argv : list napi_value) (sigs : list webidl_sig)
    (env : napi_env) : outcome (list webidl_sig) :=
  match argv with
  | [] => (napi_ok, sigs, env)
  | arg :: rest =>
      STATUS_CALL (val_type, env) <- napi_typeof arg env keeping sigs ;;
      PickSignature_scan (S idx) rest (List.map (PickSignature_mark idx val_type) sigs) env
  end.

(** The second loop: the index of the first signature from [idx] on that
    is still a candidate is stored, otherwise [sig_idx] keeps its value. *)
Fixpoint PickSignature_first (idx : Z) (sigs : list webidl_sig) (sig_idx : Z) : Z :=
  match sigs with
  | [] => sig_idx
  | s :: rest => if candidate s then idx else PickSignature_first (idx + 1) rest sig_idx
  end.

(** [sigs] is passed by value: the marks live in the callee's copy. *)
Definition PickSignature (argv : list napi_value) (sigs : list webidl_sig) (sig_idx : Z)
    (env : napi_env) : outcome Z :=
  STATUS_CALL_FN (sigs, env) <- PickSignature_scan 0 argv sigs env keeping sig_idx ;;
  (napi_ok, PickSignature_first 0 sigs sig_idx, env).

(** A signature agrees with a list of runtime type tags when it has a
    parameter at every argument position and the tags are equal there. *)
Definition agrees (types : list napi_valuetype) (s : webidl_sig) : Prop :=
  forall i t, types !! i = Some t -> sig s !! i = Some t.

Definition typeof_all (argv : list napi_value) (env : napi_env)
  : option (list napi_valuetype) :=
  mapM (fun arg => match napi_typeof arg env with
                   | Ok t _ => Some t
                   | Fail _ _ => None
                   end) argv.

(** Sample arguments and the signature sets of generated call sites, all
    candidates on entry. *)
Definition number : napi_value := Some (JSNumber (S754_zero false)).
Definition text : napi_value := Some (JSString "x").
Definition boolean : napi_value := Some (JSBoolean true).

Definition declared (l : list (list napi_valuetype)) : list webidl_sig :=
  List.map (fun tags => {| candidate := true; sig := tags |}) l.

End Dispatch.

(** ** The promise bridge: [Promise<T>] *)

Module Promise.
Import Napi Conversion.
Local Open Scope napi_scope.

Inductive State := kPending | kResolved | kRejected.

Definition State_eqb (a b : State) : bool :=
  match a, b with
  | kPending, kPending | kResolved, kResolved | kRejected, kRejected => true
  | _, _ => false
  end.

Section Promise.
Context {T : Type}.
Variable C : Converter T.

(** The data members of [Promise<T>].  [env] is the environment pointer
    the promise holds: [false] for [nullptr]. *)
Record Promise := {
  state : State;
  resolution : T;
  env : bool;
  deferred : napi_deferred;
  promise : napi_value
}.

Definition set_env (b : bool) (p : Promise) : Promise :=
  {| state := state p; resolution := resolution p; env := b;
     deferred := deferred p; promise := promise p |}.

Definition set_handles (d : napi_deferred) (v : napi_value) (p : Promise) : Promise :=
  {| state := state p; resolution := resolution p; env := env p;
     deferred := d; promise := v |}.

(** [Conclude(napi_env candidate_env)]; [candidate] tells whether the
    argument is a live environment. *)
Definition Conclude_env (candidate : bool) (p : Promise) (world : napi_env)
  : outcome Promise :=
  let p := set_env (if env p then true else candidate) p in
  if negb (env p) then (napi_ok, p, world) else
  STATUS_CALL_FN (p, world) <-
    (match deferred p with
     | None =>
         STATUS_CALL (handles, world) <- napi_create_promise world keeping p ;;
         (napi_ok, set_handles handles.1 handles.2 p, world)
     | Some _ => (napi_ok, p, world)
     end) keeping p ;;
  match state p with
  | kResolved =>
      let js_resolution : napi_value := None in
      STATUS_CALL_FN (js_resolution, world) <-
        ToJS C (resolution p) js_resolution world keeping p ;;
      STATUS_CALL (_, world) <-
        napi_resolve_deferred (deferred p) js_resolution world keeping p ;;
      (napi_ok, p, world)
  | kRejected =>
      STATUS_CALL (message, world) <-
        napi_create_string_utf8_auto "Promise rejected" world keeping p ;;
      STATUS_CALL (error, world) <- napi_create_error message world keeping p ;;
      STATUS_CALL (_, world) <-
        napi_reject_deferred (deferred p) error world keeping p ;;
      (napi_ok, p, world)
  | kPending => (napi_ok, p, world)
  end.

(** [Conclude()]: [if (env) NAPI_CALL_RETURN_VOID(env, Conclude(env));] *)
Definition Conclude (p : Promise) (world : napi_env) : Promise * napi_env :=
  if env p then
    match Conclude_env true p world with
    | (napi_ok, p, world) => (p, world)
    | (s, p, world) => (p, throw_last_error s world)
    end
  else (p, world).

Definition Resolve (result : T) (p : Promise) (world : napi_env) : Promise * napi_env :=
  if negb (State_eqb (state p) kPending) then (p, world) else
  let p := {| state := state p; resolution := result; env := env p;
              deferred := deferred p; promise := promise p |} in
  let p := {| state := kResolved; resolution := resolution p; env := env p;
              deferred := deferred p; promise := promise p |} in
  Conclude p world.

Definition Reject (p : Promise) (world : napi_env) : Promise * napi_env :=
  if negb (State_eqb (state p) kPending) then (p, world) else
  let p := {| state := kRejected; resolution := resolution p; env := env p;
              deferred := deferred p; promise := promise p |} in
  Conclude p world.

(** A call made on a promise by the producing native code. *)
Inductive call :=
| CallResolve (result : T)
| CallReject.

Definition perform (c : call) (s : Promise * napi_env) : Promise * napi_env :=
  match c with
  | CallResolve result => Resolve result s.1 s.2
  | CallReject => Reject s.1 s.2
  end.

Definition perform_all (cs : list call) (s : Promise * napi_env) : Promise * napi_env :=
  fold_left (fun s c => perform c s) cs s.
End Promise.

(** A promise of a number that nobody has settled yet, in a live
    environment. *)
Definition pending_promise : Promise :=
  {| state := kPending; resolution := 0; env := true; deferred := None; promise := None |}.

End Promise.

(** ** Object wrapping and the same-object cache: [Wrapping<T>] *)

Module Wrapping.
Import Napi Conversion.

(** Reading through a native pointer: [None] when it is null, dangling or
    already deleted. *)
Definition deref {A} (p : pointer) (l : list (option A)) : option A :=
  match p with
  | Some a => mjoin (l !! a)
  | None => None
  end.

Section Wrapping.
Context {T FieldType : Type}.
(** [Converter<FieldType>] and the member pointer [FieldName]. *)
Variable C : Converter FieldType.
Variable FieldName : T -> FieldType.

(** The data members of [Wrapping<T>]. *)
Record Wrapping := {
  native : pointer;
  refs : list napi_ref
}.

(** The native free store: the [T] objects and the [Wrapping<T>]
    records; an entry is [None] once deleted. *)
Record store := {
  objects : list (option T);
  wrappings : list (option Wrapping)
}.

Definition set_wrappings (w : list (option Wrapping)) (mem : store) : store :=
  {| objects := objects mem; wrappings := w |}.

Definition set_objects (o : list (option T)) (mem : store) : store :=
  {| objects := o; wrappings := wrappings mem |}.

(** [new Wrapping<T>] takes the next free address of the store. *)
Definition Create (js_rcv : napi_value) (cc_rcv : pointer) (same_obj_count : nat)
    (env : napi_env) (mem : store) : napi_status * napi_env * store :=
  let wrapping : pointer := Some (length (wrappings mem)) in
  let fields :=
    {| native := cc_rcv;
       refs := if (0 <? same_obj_count)%nat then replicate same_obj_count None else [] |} in
  let mem := set_wrappings (wrappings mem ++ [Some fields]) mem in
  match napi_wrap js_rcv wrapping env with
  | Ok _ env => (napi_ok, env, mem)
  | Fail s env => (s, env, mem)
  end.

(** The three outputs of [Retrieve].  [ref] and [get_wrapping] are
    optional: [None] stands for a null output pointer, [Some x] for a
    pointer to a variable holding [x]. *)
Record Retrieve_out := {
  cc_rcv : pointer;
  ref : option napi_value;
  get_wrapping : option pointer
}.

Definition Retrieve_finish (data : pointer) (wrapping : Wrapping) (out : Retrieve_out)
    (env : napi_env) : option (outcome Retrieve_out) :=
  Some (napi_ok,
        {| cc_rcv := native wrapping;
           ref := ref out;
           get_wrapping := match get_wrapping out with
                           | Some _ => Some data
                           | None => None
                           end |},
        env).

(** The three conjuncts of the guard are evaluated left to right and
    [refs[ref_idx]] only when the first two hold; a read outside the
    vector would be undefined. *)
Definition Retrieve (js_rcv : napi_value) (ref_idx : Z) (out : Retrieve_out)
    (env : napi_env) (mem : store) : option (outcome Retrieve_out) :=
  match napi_unwrap js_rcv env with
  | Fail s env => Some (s, out, env)
  | Ok data env =>
      match deref data (wrappings mem) with
      | None => None
      | Some wrapping =>
          if negb (0 <=? ref_idx) then Retrieve_finish data wrapping out env
          else if negb (ref_idx <? Z.of_nat (length (refs wrapping)))
          then Retrieve_finish data wrapping out env
          else
            match refs wrapping !! Z.to_nat ref_idx with
            | None => None
            | Some None => Retrieve_finish data wrapping out env
            | Some (Some r) =>
                match napi_get_reference_value (Some r) env with
                | Fail s env => Some (s, out, env)
                | Ok ref_value env =>
                    let out :=
                      {| cc_rcv := cc_rcv out;
                         ref := match ref out with
                                | Some _ => Some ref_value
                                | None => None
                                end;
                         get_wrapping := get_wrapping out |} in
                    Retrieve_finish data wrapping out env
                end
            end
      end
  end.

(** [refs[idx] = ref] is an unchecked vector access: outside the vector
    it is undefined. *)
Definition SetRef (this : pointer) (idx : Z) (same_obj : napi_value)
    (env : napi_env) (mem : store) : option (napi_status * napi_env * store) :=
  match napi_create_reference same_obj env with
  | Fail s env => Some (s, env, mem)
  | Ok r env =>
      match this, deref this (wrappings mem) with
      | Some w, Some wrapping =>
          if (0 <=? idx) && (idx <? Z.of_nat (length (refs wrapping))) then
            let wrapping :=
              {| native := native wrapping;
                 refs := <[Z.to_nat idx := r]> (refs wrapping) |} in
            Some (napi_ok, env, set_wrappings (<[w := Some wrapping]> (wrappings mem)) mem)
          else None
      | _, _ => None
      end
  end.

(** The loop of [Destroy]; a failing release throws and makes [Destroy]
    return ([NAPI_CALL_RETURN_VOID]). *)
Fixpoint Destroy_for (l : list napi_ref) (env : napi_env) : outcome unit :=
  match l with
  | [] => (napi_ok, tt, env)
  | None :: rest => Destroy_for rest env
  | Some r :: rest =>
      match napi_delete_reference (Some r) env with
      | Ok _ env => Destroy_for rest env
      | Fail s env => (s, tt, throw_last_error s env)
      end
  end.

(** [delete p] for a [T*]: nothing for [nullptr], undefined when [p]
    does not point to a live object. *)
Definition delete_native (p : pointer) (env : napi_env) (mem : store)
  : option (napi_env * store) :=
  match p with
  | None => Some (env, mem)
  | Some a =>
      match deref p (objects mem) with
      | Some _ => Some (record (DeleteNative a) env,
                        set_objects (<[a := None]> (objects mem)) mem)
      | None => None
      end
  end.

Definition delete_wrapping (p : pointer) (env : napi_env) (mem : store)
  : option (napi_env * store) :=
  match p with
  | None => Some (env, mem)
  | Some a =>
      match deref p (wrappings mem) with
      | Some _ => Some (record (DeleteWrapping a) env,
                        set_wrappings (<[a := None]> (wrappings mem)) mem)
      | None => None
      end
  end.

Definition Destroy (data : pointer) (env : napi_env) (mem : store)
  : option (napi_env * store) :=
  match deref data (wrappings mem) with
  | None => None
  | Some wrapping =>
      match Destroy_for (refs wrapping) env with
      | (napi_ok, _, env) =>
          match delete_native (native wrapping) env mem with
          | Some (env, mem) => delete_wrapping data env mem
          | None => None
          end
      | (_, _, env) => Some (env, mem)
      end
  end.

(** Modelled from the spec: the defaults of the last three parameters of
    [Retrieve] are declared in webidl-napi.h; the slot index is optional
    and, when it is left out, no cached value is asked for. *)
Definition Retrieve_default_ref_idx : Z := -1.

(** [NAPI_CALL] inside a callback that returns a [napi_value]. *)
Definition NAPI_CALL {A} (call : outcome A) (mem : store)
    (k : A -> napi_env -> option (napi_value * napi_env * store))
  : option (napi_value * napi_env * store) :=
  match call with
  | (napi_ok, a, env) => k a env
  | (s, _, env) => Some (None, throw_last_error s env, mem)
  end.

(** The tail of [InstanceGetter]: convert the field, then cache. *)
Definition InstanceGetter_convert (sameIdx : Z) (receiver wrapping : pointer)
    (result : napi_value) (env : napi_env) (mem : store)
  : option (napi_value * napi_env * store) :=
  match deref receiver (objects mem) with
  | None => None
  | Some target =>
      NAPI_CALL (ToJS C (FieldName target) result env) mem (fun result env =>
      if 0 <=? sameIdx then
        match SetRef wrapping sameIdx result env mem with
        | None => None
        | Some (napi_ok, env, mem) => Some (result, env, mem)
        | Some (s, env, mem) => Some (None, throw_last_error s env, mem)
        end
      else Some (result, env, mem))
  end.

(** [InstanceGetter<FieldType, FieldName, sameIdx>].  The locals
    [js_rcv], [result], [wrapping] and [cc_rcv] start as [nullptr]. *)
Definition InstanceGetter (sameIdx : Z) (info : napi_callback_info)
    (env : napi_env) (mem : store) : option (napi_value * napi_env * store) :=
  let result0 : napi_value := None in
  let wrapping0 : pointer := None in
  let cc_rcv0 : pointer := None in
  NAPI_CALL (return_call (napi_get_cb_info info 0 env) ([], None, None)) mem
    (fun got env =>
  let js_rcv := got.1.2 in
  if 0 <=? sameIdx then
    match Retrieve js_rcv sameIdx
            {| cc_rcv := cc_rcv0; ref := Some result0; get_wrapping := Some wrapping0 |}
            env mem with
    | None => None
    | Some retrieved =>
        NAPI_CALL retrieved mem (fun out env =>
        let result := default result0 (ref out) in
        let wrapping := default wrapping0 (get_wrapping out) in
        match result with
        | Some _ => Some (result, env, mem)
        | None => InstanceGetter_convert sameIdx (cc_rcv out) wrapping result env mem
        end)
    end
  else
    match Retrieve js_rcv Retrieve_default_ref_idx
            {| cc_rcv := cc_rcv0; ref := None; get_wrapping := None |} env mem with
    | None => None
    | Some retrieved =>
        NAPI_CALL retrieved mem (fun out env =>
        InstanceGetter_convert sameIdx (cc_rcv out) wrapping0 result0 env mem)
    end).

(** The references held in the slots of a record, in slot order. *)
Definition held (l : list napi_ref) : list nat := omap id l.

(** The environment after releasing the references [rs] one after the
    other. *)
Definition release (r : nat) (env : napi_env) : napi_env :=
  record (DeleteReference r) (set_references (<[r := None]> (references env)) env).

Definition released (rs : list nat) (env : napi_env) : napi_env :=
  fold_left (fun env r => release r env) rs env.

(** What the first read of slot [idx] leaves behind when the conversion
    ended in [env1] with the object at [b]: a new reference to [b], stored
    in the slot. *)
Definition cached_env (b : nat) (env1 : napi_env) : napi_env :=
  set_references (references env1 ++ [Some (JSObject b)]) env1.

Definition cached_store (w : nat) (wrapping : Wrapping) (idx : Z) (env1 : napi_env)
    (mem : store) : store :=
  set_wrappings
    (<[w := Some {| native := native wrapping;
                    refs := <[Z.to_nat idx := Some (length (references env1))]>
                              (refs wrapping) |}]> (wrappings mem)) mem.

(** The receiver [js_rcv] is a wrapped instance: it carries a pointer to
    a live [Wrapping<T>] record and no exception is pending. *)
Definition wrapped_instance (js_rcv : napi_value) (data : pointer) (wrapping : Wrapping)
    (env : napi_env) (mem : store) : Prop :=
  napi_unwrap js_rcv env = Ok data env /\ deref data (wrappings mem) = Some wrapping.

(** The slot [idx] of the record at [data] holds a reference whose value
    is the object [v]. *)
Definition slot_caches (data : pointer) (idx : Z) (v : js_value)
    (env : napi_env) (mem : store) : Prop :=
  exists wrapping r,
    deref data (wrappings mem) = Some wrapping /\
    0 <= idx /\
    refs wrapping !! Z.to_nat idx = Some (Some r) /\
    live_reference (Some r) env = Some v.
End Wrapping.

(** A sample world: the script object at address 0 wraps a native object
    that is a sequence of numbers, with one same-object slot; the accessor
    exposes the sequence itself. *)
Definition sample_info : napi_callback_info :=
  {| cb_this := Some (JSObject 0); cb_args := []; cb_new_target := None;
     cb_data := None |}.

Definition sample_created : napi_status * napi_env * @store (list Z) :=
  Create (Some (JSObject 0)) (Some 0%nat) 1
    (set_heap [{| kind := KObject; elems := []; wrapped := None |}] empty_env)
    {| objects := [Some [3; 1; 2]]; wrappings := [] |}.

Definition sample_env : napi_env := sample_created.1.2.
Definition sample_store : @store (list Z) := sample_created.2.

Definition sample_wrapping : Wrapping := {| native := Some 0%nat; refs := [None] |}.

Definition sample_codec : Converter (list Z) :=
  Containers.Converter_sequence Converter_uint32_t 0.

(** The environment in which the conversion of the sample field ends. *)
Definition sample_converted : napi_env :=
  env_of (ToJS sample_codec [3; 1; 2] None sample_env).

(** The world after the first read of the sample accessor. *)
Definition sample_read_env : napi_env := cached_env 1 sample_converted.
Definition sample_read_store : @store (list Z) :=
  cached_store 0 sample_wrapping 0 sample_converted sample_store.

(** A world with two wrapped instances, at addresses 0 and 1, and a read
    of the same-object accessor on one of them. *)
Definition pair_world : napi_env * @store (list Z) :=
  let env := set_heap [{| kind := KObject; elems := []; wrapped := None |};
                       {| kind := KObject; elems := []; wrapped := None |}] empty_env in
  let mem := {| objects := [Some [3; 1; 2]; Some [3; 1; 2]]; wrappings := [] |} in
  let '(_, env, mem) := Create (Some (JSObject 0)) (Some 0%nat) 1 env mem in
  let '(_, env, mem) := Create (Some (JSObject 1)) (Some 1%nat) 1 env mem in
  (env, mem).

Definition read_accessor (receiver : nat) (world : napi_env * @store (list Z))
  : option (napi_value * (napi_env * @store (list Z))) :=
  match InstanceGetter sample_codec id 0
          {| cb_this := Some (JSObject receiver); cb_args := []; cb_new_target := None;
             cb_data := None |} world.1 world.2 with
  | Some (v, env, mem) => Some (v, (env, mem))
  | None => None
  end.

(** A world with two wrapped instances, at addresses 0 and 1, over two
    native objects that differ in their first member and whose second
    member holds the same script object, the one at address 2; and a read
    of the same-object accessor of that member on one of them. *)
Definition shared_handle_world : napi_env * @store (Z * object) :=
  let env := set_heap [{| kind := KObject; elems := []; wrapped := None |};
                       {| kind := KObject; elems := []; wrapped := None |};
                       {| kind := KObject; elems := []; wrapped := None |}] empty_env in
  let mem := {| objects := [Some (1, Some (JSObject 2)); Some (2, Some (JSObject 2))];
                wrappings := [] |} in
  let '(_, env, mem) := Create (Some (JSObject 0)) (Some 0%nat) 1 env mem in
  let '(_, env, mem) := Create (Some (JSObject 1)) (Some 1%nat) 1 env mem in
  (env, mem).

Definition read_handle (receiver : nat) (world : napi_env * @store (Z * object))
  : option (napi_value * (napi_env * @store (Z * object))) :=
  match InstanceGetter Converter_object snd 0
          {| cb_this := Some (JSObject receiver); cb_args := []; cb_new_target := None;
             cb_data := None |} world.1 world.2 with
  | Some (v, env, mem) => Some (v, (env, mem))
  | None => None
  end.

End Wrapping.

(** ** Exposed partial properties *)

Module Exposed.
Import Napi Conversion Wrapping.

Section ExposedPartialProperty.
Context {T : Type}.
Variable C : Converter T.
Variable T_default : T.

(** The backing record of a plain property: one native value. *)
Record ExposedPartialProperty := {
  value : T
}.

(** [ExposedPartialProperty<T>::Getter].  The local [data] is declared
    as [ExposedPartialProperty<T>* data = static_cast<...>(data)]: it is
    initialised from itself, not from [raw_data], so it holds whatever
    the stack held.  [garbage] is that indeterminate pointer. *)
Definition Getter (garbage : pointer) (info : napi_callback_info) (env : napi_env)
    (mem : list (option ExposedPartialProperty)) : option (napi_value * napi_env) :=
  match napi_get_cb_info info 0 env with
  | Fail s env => Some (None, throw_last_error s env)
  | Ok (_, _, raw_data) env =>
      let data := garbage in
      match deref data mem with
      | None => None
      | Some property =>
          let result : napi_value := None in
          match ToJS C (value property) result env with
          | (napi_ok, result, env) => Some (result, env)
          | (s, _, env) => Some (None, throw_last_error s env)
          end
      end
  end.

(** [ExposedPartialProperty<T>::Setter], with the same self-initialised
    [data]. *)
Definition Setter (garbage : pointer) (info : napi_callback_info) (env : napi_env)
    (mem : list (option ExposedPartialProperty))
  : option (napi_value * napi_env * list (option ExposedPartialProperty)) :=
  match napi_get_cb_info info 1 env with
  | Fail s env => Some (None, throw_last_error s env, mem)
  | Ok (argv, _, raw_data) env =>
      let new_value := default None (argv !! 0%nat) in
      let data := garbage in
      match data, deref data mem with
      | Some a, Some property =>
          match ToNative C new_value (value property) env with
          | (napi_ok, v, env) => Some (None, env, <[a := Some {| value := v |}]> mem)
          | (s, v, env) =>
              Some (None, throw_last_error s env, <[a := Some {| value := v |}]> mem)
          end
      | _, _ => None
      end
  end.

(** The backing record of a same-object property: a reference, null
    until the first read. *)
Record ExposedPartialSameObjProperty := {
  cached : napi_ref
}.

(** [ExposedPartialSameObjProperty<T>::Getter]: here [data] is
    initialised from [raw_data]. *)
Definition SameObj_Getter (info : napi_callback_info) (env : napi_env)
    (mem : list (option ExposedPartialSameObjProperty))
  : option (napi_value * napi_env * list (option ExposedPartialSameObjProperty)) :=
  match napi_get_cb_info info 0 env with
  | Fail s env => Some (None, throw_last_error s env, mem)
  | Ok (_, _, raw_data) env =>
      let data := raw_data in
      match data, deref data mem with
      | Some a, Some property =>
          match cached property with
          | None =>
              let item := T_default in
              match ToJS C item None env with
              | (napi_ok, result, env) =>
                  match napi_create_reference result env with
                  | Ok r env => Some (result, env, <[a := Some {| cached := r |}]> mem)
                  | Fail s env => Some (None, throw_last_error s env, mem)
                  end
              | (s, _, env) => Some (None, throw_last_error s env, mem)
              end
          | Some r =>
              match napi_get_reference_value (Some r) env with
              | Ok result env => Some (result, env, mem)
              | Fail s env => Some (None, throw_last_error s env, mem)
              end
          end
      | _, _ => None
      end
  end.
End ExposedPartialProperty.

(** Two property records holding 1 and 2, and a callback whose data
    pointer designates the first. *)
Definition two_properties : list (option (@ExposedPartialProperty Z)) :=
  [Some {| value := 1 |}; Some {| value := 2 |}].

Definition first_property_info : napi_callback_info :=
  {| cb_this := Some JSUndefined; cb_args := [Some (JSNumber (double_of_Z 7))];
     cb_new_target := None; cb_data := Some 0%nat |}.

End Exposed.

(** ** Accessor descriptors and the instance setter *)

Module Accessors.
Import Napi Conversion Wrapping.

Section Accessors.
Context {T FieldType : Type}.
Variable C : Converter FieldType.
(** The member pointer [FieldName], as a read of the field and as an
    assignment to it. *)
Variable FieldName : T -> FieldType.
Variable FieldName_assign : FieldType -> T -> T.

(** [InstanceSetter<FieldType, FieldName>].  [cc_rcv] is an uninitialised
    local that [Retrieve] writes before it is read; the codec writes
    straight into the field of the receiver, so the field holds whatever
    the codec left in it, also when the codec fails. *)
Definition InstanceSetter (info : napi_callback_info) (env : napi_env) (mem : @store T)
  : option (napi_value * napi_env * @store T) :=
  NAPI_CALL (return_call (napi_get_cb_info info 1 env) ([], None, None)) mem
    (fun got env =>
  let js_new := default (Some JSUndefined) (got.1.1 !! 0%nat) in
  let js_rcv := got.1.2 in
  match Retrieve js_rcv Retrieve_default_ref_idx
          {| cc_rcv := None; ref := None; get_wrapping := None |} env mem with
  | None => None
  | Some retrieved =>
      NAPI_CALL retrieved mem (fun out env =>
      match cc_rcv out, deref (cc_rcv out) (objects mem) with
      | Some a, Some target =>
          let '(s, field, env) := ToNative C js_new (FieldName target) env in
          let mem :=
            set_objects (<[a := Some (FieldName_assign field target)]> (objects mem)) mem in
          match s with
          | napi_ok => Some (None, env, mem)
          | _ => Some (None, throw_last_error s env, mem)
          end
      | _, _ => None
      end)
  end).

(** A callback of the handle interface over the native store. *)
Definition napi_callback : Type :=
  napi_callback_info -> napi_env -> @store T -> option (napi_value * napi_env * @store T).

(** The members of [napi_property_descriptor] that accessors use; the
    others stay null. *)
Record napi_property_descriptor := {
  utf8name : string;
  getter : option napi_callback;
  setter : option napi_callback;
  attributes : Z
}.

(** [InstanceAccessor<FieldType, FieldName, attributes, sameObjId, readonly>]. *)
Definition InstanceAccessor (attributes : Z) (sameObjId : Z) (readonly : bool)
    (utf8name : string) : napi_property_descriptor :=
  {| utf8name := utf8name;
     getter := Some (InstanceGetter C FieldName sameObjId);
     setter := if readonly then None else Some InstanceSetter;
     attributes := attributes |}.

End Accessors.

(** The sample receiver called with one argument. *)
Definition sample_assignment (v : js_value) : napi_callback_info :=
  {| cb_this := Some (JSObject 0); cb_args := [Some v]; cb_new_target := None;
     cb_data := None |}.

(** A sample world for assignments: the receiver at address 0 wraps a
    native pair whose first member the accessor exposes as a number. *)
Definition point_created : napi_status * napi_env * @store (Z * Z) :=
  Create (Some (JSObject 0)) (Some 0%nat) 0
    (set_heap [{| kind := KObject; elems := []; wrapped := None |}] empty_env)
    {| objects := [Some (5, 6)]; wrappings := [] |}.

Definition point_env : napi_env := point_created.1.2.
Definition point_store : @store (Z * Z) := point_created.2.
Definition point_wrapping : Wrapping := {| native := Some 0%nat; refs := [] |}.
Definition assign_first (x : Z) (t : Z * Z) : Z * Z := (x, t.2).

(** A sample world for cached reads: the receiver at address 0 wraps a
    sequence of numbers with one same-object slot, and the script array
    at address 1 holds the number 9. *)
Definition nine_world : napi_env * @store (list Z) :=
  let env := set_heap [{| kind := KObject; elems := []; wrapped := None |};
                       {| kind := KArray; elems := [JSNumber (double_of_Z 9)];
                          wrapped := None |}] empty_env in
  let mem := {| objects := [Some [3; 1; 2]]; wrappings := [] |} in
  let '(_, env, mem) := Create (Some (JSObject 0)) (Some 0%nat) 1 env mem in
  (env, mem).

(** The same world after a first read of the accessor of slot 0. *)
Definition nine_world_read : napi_env * @store (list Z) :=
  match InstanceGetter sample_codec id 0 sample_info nine_world.1 nine_world.2 with
  | Some (_, env, mem) => (env, mem)
  | None => nine_world
  end.

(** The environment in which the conversion of the array at address 1
    ends there. *)
Definition nine_assigned : napi_env :=
  env_of (ToNative sample_codec (Some (JSObject 1)) [3; 1; 2] nine_world_read.1).

End Accessors.

(** ** The references held by wrapping records *)

Module Lifecycle.
Import Napi Conversion Wrapping.

(** A world is tidy when every reference held in a slot of a live record
    is live, and no reference is held twice, in one record or in two. *)
Definition tidy {T} (env : napi_env) (mem : @store T) : Prop :=
  (forall w wrapping i r,
     deref (Some w) (wrappings mem) = Some wrapping ->
     refs wrapping !! i = Some (Some r) ->
     is_Some (live_reference (Some r) env)) /\
  (forall w1 w2 wrapping1 wrapping2 i1 i2 r,
     deref (Some w1) (wrappings mem) = Some wrapping1 ->
     deref (Some w2) (wrappings mem) = Some wrapping2 ->
     refs wrapping1 !! i1 = Some (Some r) ->
     refs wrapping2 !! i2 = Some (Some r) ->
     w1 = w2 /\ i1 = i2).

(** A codec keeps the references when neither direction creates or
    deletes one. *)
Definition keeps_references {T} (C : Converter T) : Prop :=
  (forall x r env, references (env_of (ToJS C x r env)) = references env) /\
  (forall v x env, references (env_of (ToNative C v x env)) = references env).

(** No script object carries a pointer past the end of the records. *)
Definition bounded {T} (env : napi_env) (mem : @store T) : Prop :=
  forall a c p,
    heap env !! a = Some c -> wrapped c = Some (Some p) ->
    (p < length (wrappings mem))%nat.

End Lifecycle.

(** ** Handing a promise to the script *)

Module PromiseJS.
Import Napi Conversion Promise.

Section PromiseJS.
Context {T : Type}.

(** [Promise<T>::ToJS]: the handle the promise holds, null until the
    promise has been concluded in an environment. *)
Definition Promise_ToJS (promise0 : @Promise T) (result : napi_value) (world : napi_env)
  : outcome napi_value :=
  (napi_ok, promise promise0, world).

(** [Converter<Promise<T>>::ToJS] forwards to it. *)
Definition Converter_Promise_ToJS := Promise_ToJS.
End PromiseJS.

(** A promise of a number that has not been handed an environment. *)
Definition detached_promise : @Promise Z :=
  {| state := kPending; resolution := 0; env := false; deferred := None; promise := None |}.

(** A codec that refuses every value. *)
Definition refusing : Converter Z := {|
  ToNative val result env := (napi_generic_failure, result, env);
  ToJS val result env := (napi_generic_failure, result, env)
|}.

End PromiseJS.

(** ** Exposing interfaces and partial properties on globals *)

Module Exposure.
Import Napi Conversion Wrapping Exposed.
Local Open Scope napi_scope.

(** The functions of this file that end up in a property descriptor or
    are registered as a finaliser, by name. *)
Inductive exposed_callback :=
| Plain_Getter
| Plain_Setter
| SameObj_Getter_callback.

Inductive exposed_finalizer :=
| Plain_Destroy
| SameObj_Destroy_finalizer.

(** The members of [napi_property_descriptor] that [Define] sets. *)
Record exposed_descriptor := {
  utf8name : string;
  attributes : Z;
  getter : option exposed_callback;
  setter : option exposed_callback;
  data : pointer
}.

Definition set_data (p : pointer) (desc : exposed_descriptor) : exposed_descriptor :=
  {| utf8name := utf8name desc; attributes := attributes desc; getter := getter desc;
     setter := setter desc; data := p |}.

(** [ExposedPartialProperty<T>::Destroy]: [delete] of the record. *)
Definition ExposedPartialProperty_Destroy {T} (data : pointer) (env : napi_env)
    (mem : list (option (@ExposedPartialProperty T)))
  : option (napi_env * list (option (@ExposedPartialProperty T))) :=
  match data with
  | None => Some (env, mem)
  | Some a =>
      match deref data mem with
      | Some _ => Some (env, <[a := None]> mem)
      | None => None
      end
  end.

(** [ExposedPartialSameObjProperty<T>::Destroy]: a failing release throws
    and returns before the record is deleted. *)
Definition SameObj_Destroy (raw_data : pointer) (env : napi_env)
    (mem : list (option ExposedPartialSameObjProperty))
  : option (napi_env * list (option ExposedPartialSameObjProperty)) :=
  let data := raw_data in
  match data, deref data mem with
  | Some a, Some property =>
      match cached property with
      | Some r =>
          match napi_delete_reference (Some r) env with
          | Ok _ env => Some (env, <[a := None]> mem)
          | Fail s env => Some (throw_last_error s env, mem)
          end
      | None => Some (env, <[a := None]> mem)
      end
  | _, _ => None
  end.

Section Exposure.
(** The host calls on named properties, property definitions and
    finalisers act on parts of the host that the environment above does
    not describe; the functions below are written over any host. *)
Variable napi_get_global : napi_env -> ret napi_value.
Variable napi_get_named_property : napi_value -> string -> napi_env -> ret napi_value.
Variable napi_define_properties :
  napi_value -> list exposed_descriptor -> napi_env -> ret unit.
Variable napi_add_finalizer :
  napi_value -> pointer -> exposed_finalizer -> napi_env -> ret unit.

(** The loop of [GetExposureGlobals]; [result] is the caller's vector. *)
Fixpoint GetExposureGlobals_for (global : napi_value) (globals : list string)
    (result : list napi_value) (env : napi_env) : outcome (list napi_value) :=
  match globals with
  | [] => (napi_ok, result, env)
  | global_prop :: rest =>
      STATUS_CALL (dest, env) <-
        napi_get_named_property global global_prop env keeping result ;;
      STATUS_CALL (dest_proto, env) <-
        napi_get_named_property dest "prototype" env keeping result ;;
      GetExposureGlobals_for global rest (result ++ [dest_proto]) env
  end.

Definition GetExposureGlobals (globals : list string) (result : list napi_value)
    (env : napi_env) : outcome (list napi_value) :=
  STATUS_CALL (global, env) <- napi_get_global env keeping result ;;
  GetExposureGlobals_for global globals result env.

(** The prototypes behind the names [names], looked up on [global] one
    name after the other from the environment [env]: for each name the
    property of that name on [global], then the property "prototype" of
    the object found; [env'] is the environment after the last lookup. *)
Inductive prototypes_of (global : napi_value)
  : list string -> napi_env -> list napi_value -> napi_env -> Prop :=
| prototypes_of_nil (env : napi_env) : prototypes_of global [] env [] env
| prototypes_of_cons (name : string) (names : list string) (env env1 env2 env' : napi_env)
    (dest proto : napi_value) (protos : list napi_value) :
    napi_get_named_property global name env = Ok dest env1 ->
    napi_get_named_property dest "prototype" env1 = Ok proto env2 ->
    prototypes_of global names env2 protos env' ->
    prototypes_of global (name :: names) env (proto :: protos) env'.

(** The loop shared by the two [Define]s: one new record per destination,
    a finaliser for it, then the property.  [fresh] is the record [new]
    yields and [destroy] the finaliser registered for it. *)
Fixpoint Define_for {R} (fresh : R) (destroy : exposed_finalizer) (desc : exposed_descriptor)
    (dests : list napi_value) (env : napi_env) (mem : list (option R))
  : outcome (list (option R)) :=
  match dests with
  | [] => (napi_ok, mem, env)
  | dest :: rest =>
      let data : pointer := Some (length mem) in
      let mem := mem ++ [Some fresh] in
      let desc := set_data data desc in
      STATUS_CALL (_, env) <- napi_add_finalizer dest data destroy env keeping mem ;;
      STATUS_CALL (_, env) <- napi_define_properties dest [desc] env keeping mem ;;
      Define_for fresh destroy desc rest env mem
  end.

(** [ExposedPartialProperty<T>::Define<attributes, readonly>].  The
    function has no [return] after its loop: when every call has
    succeeded, control reaches the end of a function that returns a
    [napi_status], which is undefined.  [T_default] is the value a new
    record holds. *)
Definition ExposedPartialProperty_Define {T} (T_default : T) (attributes : Z)
    (readonly : bool) (globals : list string) (utf8name : string) (env : napi_env)
    (mem : list (option (@ExposedPartialProperty T)))
  : option (outcome (list (option (@ExposedPartialProperty T)))) :=
  let desc :=
    {| utf8name := utf8name; attributes := attributes; getter := Some Plain_Getter;
       setter := if readonly then None else Some Plain_Setter; data := None |} in
  let dests : list napi_value := [] in
  match GetExposureGlobals globals dests env with
  | (napi_ok, dests, env) =>
      match Define_for {| value := T_default |} Plain_Destroy desc dests env mem with
      | (napi_ok, _, _) => None
      | failure => Some failure
      end
  | (s, _, env) => Some (s, mem, env)
  end.

(** Modelled from the spec: the class [ExposedPartialSameObjProperty] is
    declared in webidl-napi.h; the cache of a new record is empty (a null
    reference) until the first read. *)
Definition ExposedPartialSameObjProperty_Define (attributes : Z)
    (globals : list string) (utf8name : string) (env : napi_env)
    (mem : list (option ExposedPartialSameObjProperty))
  : outcome (list (option ExposedPartialSameObjProperty)) :=
  let desc :=
    {| utf8name := utf8name; attributes := attributes;
       getter := Some SameObj_Getter_callback; setter := None; data := None |} in
  let dests : list napi_value := [] in
  match GetExposureGlobals globals dests env with
  | (napi_ok, dests, env) =>
      Define_for {| cached := None |} SameObj_Destroy_finalizer desc dests env mem
  | (s, _, env) => (s, mem, env)
  end.
End Exposure.

(** A host for samples: every name designates the object at address 0,
    which is its own prototype; defining properties and registering
    finalisers succeed unless an exception is pending. *)
Definition flat_get_global (env : napi_env) : ret napi_value :=
  Ok (Some (JSObject 0)) env.

Definition flat_get_named_property (object : napi_value) (name : string) (env : napi_env)
  : ret napi_value :=
  preamble env
    match object with
    | Some (JSObject a) => Ok (Some (JSObject a)) env
    | _ => Fail napi_object_expected env
    end.

Definition flat_define_properties (object : napi_value) (props : list exposed_descriptor)
    (env : napi_env) : ret unit :=
  preamble env (Ok tt env).

Definition flat_add_finalizer (object : napi_value) (data : pointer)
    (finalizer : exposed_finalizer) (env : napi_env) : ret unit :=
  Ok tt env.

(** A host for samples in which the objects differ: a name of [n]
    letters designates the constructor at address [n], and the prototype
    of the object at address [a] is at address [a + 100]. *)
Definition spread_get_named_property (object : napi_value) (name : string) (env : napi_env)
  : ret napi_value :=
  preamble env
    match object with
    | Some (JSObject a) =>
        if String.eqb name "prototype" then Ok (Some (JSObject (a + 100))) env
        else Ok (Some (JSObject (String.length name))) env
    | _ => Fail napi_object_expected env
    end.

(** A callback whose data pointer designates the record at address 0. *)
Definition cached_property_info : napi_callback_info :=
  {| cb_this := Some JSUndefined; cb_args := []; cb_new_target := None;
     cb_data := Some 0%nat |}.

End Exposure.

(** ** The per-environment registry: [InstanceData] *)

Module Registry.
Import Napi Conversion Wrapping.
Local Open Scope napi_scope.

(** The instance data of an environment: [napi_get_instance_data] reads
    the pointer the environment holds, [napi_set_instance_data] replaces
    it.  The pointer is kept beside the environment, in [slot]. *)
Definition napi_get_instance_data (slot : pointer) (env : napi_env) : ret pointer :=
  Ok slot env.

Definition napi_set_instance_data (data : pointer) (env : napi_env) : ret pointer :=
  Ok data env.

(** A [napi_finalize] given to [SetData]: native code of the add-on,
    called with the data and the hint. *)
Definition napi_finalize : Type := pointer -> pointer -> napi_env -> napi_env.

Section InstanceData.
(** The keys of [ctors] are the [const char*] names of the interfaces. *)
Context {key : Type} `{EqDecision key}.

(** Modelled from the spec: the class [InstanceData] is declared in
    webidl-napi.h.  It owns a mapping from interface name, a unique key,
    to a strong reference on a constructor, and the data, finaliser and
    hint that [SetData] stores.  The mapping is kept as the list of its
    entries; [ctors[name]] finds the entry of [name] and adds one holding
    a null reference when there is none. *)
Record InstanceData := {
  ctors : list (key * napi_ref);
  data : pointer;
  cb : option napi_finalize;
  hint : pointer
}.

Definition set_ctors (l : list (key * napi_ref)) (this : InstanceData) : InstanceData :=
  {| ctors := l; data := data this; cb := cb this; hint := hint this |}.

Fixpoint ctors_find (name : key) (l : list (key * napi_ref)) : option napi_ref :=
  match l with
  | [] => None
  | (k, r) :: rest => if decide (k = name) then Some r else ctors_find name rest
  end.

Fixpoint ctors_assign (name : key) (r : napi_ref) (l : list (key * napi_ref))
  : list (key * napi_ref) :=
  match l with
  | [] => [(name, r)]
  | (k, r0) :: rest =>
      if decide (k = name) then (k, r) :: rest else (k, r0) :: ctors_assign name r rest
  end.

(** [InstanceData::GetCurrent].  [fresh] is the object [new InstanceData]
    yields; [mem] is the native free store of such objects. *)
Definition GetCurrent (fresh : InstanceData) (result : pointer) (slot : pointer)
    (env : napi_env) (mem : list (option InstanceData))
  : napi_status * pointer * pointer * napi_env * list (option InstanceData) :=
  let data : pointer := None in
  match napi_get_instance_data slot env with
  | Fail s env => (s, result, slot, env, mem)
  | Ok data env =>
      match data with
      | None =>
          let address := length mem in
          let new_data : pointer := Some address in
          let mem := mem ++ [Some fresh] in
          let data := new_data in
          match napi_set_instance_data data env with
          | Ok slot env => (napi_ok, data, slot, env, mem)
          | Fail status env => (status, result, slot, env, <[address := None]> mem)
          end
      | Some _ => (napi_ok, data, slot, env, mem)
      end
  end.

Definition AddConstructor (name : key) (ctor : napi_value) (this : InstanceData)
    (env : napi_env) : outcome InstanceData :=
  STATUS_CALL (ctor_ref, env) <- napi_create_reference ctor env keeping this ;;
  (napi_ok, set_ctors (ctors_assign name ctor_ref (ctors this)) this, env).

Definition SetData (new_data : pointer) (fin_cb : option napi_finalize) (new_hint : pointer)
    (this : InstanceData) : InstanceData :=
  {| ctors := ctors this; data := new_data; cb := fin_cb; hint := new_hint |}.

Definition GetData (this : InstanceData) : pointer := data this.

(** The loop of [InstanceData::Destroy]: every entry is released, a null
    one too. *)
Fixpoint InstanceData_Destroy_for (l : list (key * napi_ref)) (env : napi_env)
  : outcome unit :=
  match l with
  | [] => (napi_ok, tt, env)
  | (_, r) :: rest =>
      match napi_delete_reference r env with
      | Ok _ env => InstanceData_Destroy_for rest env
      | Fail s env => (s, tt, throw_last_error s env)
      end
  end.

(** [InstanceData::Destroy]: the finaliser runs after the loop, when both
    the data and the finaliser are set. *)
Definition InstanceData_Destroy (this : InstanceData) (env : napi_env) : napi_env :=
  match InstanceData_Destroy_for (ctors this) env with
  | (napi_ok, _, env) =>
      match data this, cb this with
      | Some _, Some finalize => finalize (data this) (hint this) env
      | _, _ => env
      end
  | (_, _, env) => env
  end.

(** [DestroyInstanceData]: the object itself is not deleted. *)
Definition DestroyInstanceData (data : pointer) (hint : pointer) (env : napi_env)
    (mem : list (option InstanceData)) : option napi_env :=
  match deref data mem with
  | Some this => Some (InstanceData_Destroy this env)
  | None => None
  end.

(** [GetConstructor]: [return ctors[name];] *)
Definition GetConstructor (name : key) (this : InstanceData) : napi_ref * InstanceData :=
  match ctors_find name (ctors this) with
  | Some r => (r, this)
  | None => (None, set_ctors (ctors_assign name None (ctors this)) this)
  end.

Definition empty_InstanceData : InstanceData :=
  {| ctors := []; data := None; cb := None; hint := None |}.
End InstanceData.

(** A finaliser for samples: it deletes the native object its data
    designates. *)
Definition sample_finalize : napi_finalize :=
  fun data hint env =>
    match data with
    | Some a => record (DeleteNative a) env
    | None => env
    end.

(** An environment holding a constructor function at address 0. *)
Definition ctor_env : napi_env :=
  set_heap [{| kind := KFunction; elems := []; wrapped := None |}] empty_env.

End Registry.

(** ** Failure behaviour of codecs *)

Module Codecs.
Import Napi Conversion.

(** A codec fails cleanly when [ToNative] never touches the environment
    and, when it fails, leaves the caller's output as it was. *)
Definition fails_cleanly {T} (C : Converter T) : Prop :=
  forall v x env s x' env',
    ToNative C v x env = (s, x', env') ->
    env' = env /\ (s <> napi_ok -> x' = x).

(** [ToJS] always succeeds, gives a value and leaves the environment as
    it was. *)
Definition always_converts {T} (C : Converter T) : Prop :=
  forall x r env, exists v, ToJS C x r env = (napi_ok, Some v, env).

End Codecs.

(** * Properties *)

(** ** Integers through binary64, strings through C buffers *)

Module ConversionFacts.
Import Napi Conversion.

Lemma digits2_pos_lower (p : positive) : 2 ^ (Zpos (digits2_pos p) - 1) <= Zpos p.
Proof.
  induction p as [p IH|p IH|]; simpl digits2_pos; [| |simpl; lia];
    rewrite Pos2Z.inj_succ;
    replace (Z.succ (Zpos (digits2_pos p)) - 1)
      with (Z.succ (Zpos (digits2_pos p) - 1)) by lia;
    rewrite Z.pow_succ_r by lia; lia.
Qed.

Lemma digits2_pos_small (p : positive) : Zpos p < 2 ^ 53 -> Zpos (digits2_pos p) <= 53.
Proof.
  intros Hp. destruct (Z_le_gt_dec (Zpos (digits2_pos p)) 53) as [|Hgt]; [assumption|].
  pose proof (digits2_pos_lower p) as Hlow.
  assert (2 ^ 53 <= 2 ^ (Zpos (digits2_pos p) - 1)) by (apply Z.pow_le_mono_r; lia).
  lia.
Qed.

Lemma digits2_pos_iter_xO (p k : positive) :
  digits2_pos (Pos.iter xO p k) = (digits2_pos p + k)%positive.
Proof.
  induction k as [|k IH] using Pos.peano_ind.
  - simpl. lia.
  - rewrite Pos.iter_succ. simpl. rewrite IH. lia.
Qed.

Lemma Zpos_iter_xO (p k : positive) : Zpos (Pos.iter xO p k) = Zpos p * 2 ^ Zpos k.
Proof.
  induction k as [|k IH] using Pos.peano_ind.
  - simpl. lia.
  - rewrite Pos.iter_succ, Pos2Z.inj_succ, Z.pow_succ_r by lia.
    rewrite Pos2Z.inj_xO, IH. lia.
Qed.

(** A mantissa of full width is left alone by the rounding step. *)
Lemma binary_round_aux_canonical (s : bool) (m : positive) (e : Z) :
  Zpos (digits2_pos m) = 53 -> -1074 <= e <= 971 ->
  binary_round_aux prec emax s (Zpos m) e loc_Exact = S754_finite s m e.
Proof.
  intros Hd He. unfold binary_round_aux, shr_fexp. simpl Zdigits2. simpl shr_record_of_loc.
  assert (Hf : fexp prec emax (Zpos (digits2_pos m) + e) - e = 0).
  { unfold fexp, emin, prec, emax. rewrite Hd. lia. }
  rewrite Hf. simpl. rewrite Hf. simpl.
  unfold emax, prec. destruct (Z.leb_spec e (1024 - 53)); [reflexivity|lia].
Qed.

Lemma binary_round_small (s : bool) (p : positive) :
  Zpos p < 2 ^ 53 ->
  double_trunc (binary_round prec emax s p 0) = Some (if s then Zneg p else Zpos p).
Proof.
  intros Hp. pose proof (digits2_pos_small p Hp) as Hd.
  unfold binary_round, shl_align.
  assert (Hf : fexp prec emax (Zpos (digits2_pos p) + 0) = Zpos (digits2_pos p) - 53).
  { unfold fexp, emin, prec, emax. lia. }
  rewrite Hf. clear Hf.
  destruct (Zpos (digits2_pos p) - 53 - 0) as [|k|k] eqn:Hk; [|lia|].
  - rewrite binary_round_aux_canonical by lia.
    simpl. destruct s; reflexivity.
  - rewrite binary_round_aux_canonical.
    + unfold double_trunc.
      destruct (Z.leb_spec 0 (Zpos (digits2_pos p) - 53)); [lia|].
      replace (- (Zpos (digits2_pos p) - 53)) with (Zpos k) by lia.
      rewrite Z.shiftr_div_pow2 by lia.
      rewrite Zpos_iter_xO, Z.div_mul by lia. destruct s; reflexivity.
    + rewrite digits2_pos_iter_xO. lia.
    + lia.
Qed.

(** Every integer of magnitude at most 2^53 is a double. *)
Lemma double_trunc_of_Z (z : Z) : Z.abs z <= 2 ^ 53 -> double_trunc (double_of_Z z) = Some z.
Proof.
  intros Hz. destruct (Z.eq_dec (Z.abs z) (2 ^ 53)) as [Heq|Hne].
  - assert (z = 2 ^ 53 \/ z = - 2 ^ 53) as [-> | ->] by lia; vm_compute; reflexivity.
  - unfold double_of_Z, binary_normalize. destruct z as [|p|p]; [reflexivity| |];
      apply binary_round_small; lia.
Qed.

Lemma wrap_unsigned_small bits z : 0 <= z < 2 ^ bits -> wrap_unsigned bits z = z.
Proof. intros H. unfold wrap_unsigned. apply Z.mod_small. exact H. Qed.

Lemma wrap_signed_32 z : is_int32 z -> wrap_signed 32 z = z.
Proof.
  unfold is_int32, wrap_signed. change (32 - 1) with 31.
  change (2 ^ 32) with 4294967296. change (2 ^ 31) with 2147483648. intros H.
  destruct (Z.ltb_spec (z mod 4294967296) 2147483648); Z.div_mod_to_equations; lia.
Qed.

Lemma unsigned_long_int64_unsigned_long z :
  is_unsigned_long z -> unsigned_long_of_int64 (int64_of_unsigned_long z) = z.
Proof.
  unfold is_unsigned_long, unsigned_long_of_int64, int64_of_unsigned_long,
    wrap_signed, wrap_unsigned. change (64 - 1) with 63.
  change (2 ^ 64) with 18446744073709551616. change (2 ^ 63) with 9223372036854775808.
  intros H.
  destruct (Z.ltb_spec (z mod 18446744073709551616) 9223372036854775808);
    Z.div_mod_to_equations; lia.
Qed.

Lemma saturate_small z : Z.abs z <= 2 ^ 53 -> Z.max INT64_MIN (Z.min INT64_MAX z) = z.
Proof.
  unfold INT64_MIN, INT64_MAX. change (2 ^ 63) with 9223372036854775808.
  change (2 ^ 53) with 9007199254740992. lia.
Qed.

Lemma digits2_pos_size (p : positive) : digits2_pos p = Pos.size p.
Proof. induction p as [p IH|p IH|]; simpl; by rewrite ?IH. Qed.

Lemma digits2_pos_log2 (p : positive) : Zpos (digits2_pos p) = Z.log2 (Zpos p) + 1.
Proof. destruct p as [p|p|]; simpl; rewrite ?digits2_pos_size; lia. Qed.

(** Shifting out the zeros that were shifted in loses nothing. *)
Lemma iter_pos_shr_1 (n : positive) : forall q,
  SpecFloat.iter_pos shr_1 n {| shr_m := Zpos (Pos.iter xO q n); shr_r := false; shr_s := false |}
  = {| shr_m := Zpos q; shr_r := false; shr_s := false |}.
Proof.
  induction n as [n IH|n IH|]; intros q; simpl.
  - by rewrite !IH.
  - by rewrite !IH.
  - reflexivity.
Qed.

(** A mantissa of full width followed by zeros is kept as it is. *)
Lemma binary_round_exact (s : bool) (q n : positive) :
  Zpos (digits2_pos q) = 53 -> Zpos n <= 971 ->
  binary_round prec emax s (Pos.iter xO q n) 0 = S754_finite s q (Zpos n).
Proof.
  intros Hq Hn.
  assert (Hd : Zpos (digits2_pos (Pos.iter xO q n)) = 53 + Zpos n).
  { rewrite digits2_pos_iter_xO. lia. }
  unfold binary_round, shl_align.
  assert (Hf : fexp prec emax (Zpos (digits2_pos (Pos.iter xO q n)) + 0) = Zpos n).
  { unfold fexp, emin, prec, emax. lia. }
  rewrite Hf. replace (Z.pos n - 0) with (Z.pos n) by lia. cbv beta iota.
  unfold binary_round_aux, shr_fexp. simpl Zdigits2. simpl shr_record_of_loc.
  rewrite Hf. replace (Z.pos n - 0) with (Z.pos n) by lia.
  unfold shr at 1. rewrite iter_pos_shr_1.
  simpl loc_of_shr_record. simpl round_nearest_even. simpl Zdigits2.
  assert (Hf' : fexp prec emax (Zpos (digits2_pos q) + (0 + Zpos n)) - (0 + Zpos n) = 0).
  { unfold fexp, emin, prec, emax. lia. }
  rewrite Hf'. simpl.
  unfold emax, prec. replace (0 + Z.pos n) with (Z.pos n) by lia.
  destruct (Z.leb_spec (Zpos n) (1024 - 53)); [reflexivity|lia].
Qed.

Lemma Zpos_lt_digits2_pos (p : positive) : Zpos p < 2 ^ Zpos (digits2_pos p).
Proof. rewrite digits2_pos_log2. apply Z.log2_spec. lia. Qed.

(** An integer with at most 53 significant bits is a double. *)
Lemma double_trunc_of_exact (z : Z) :
  binary64_exact z = true -> Z.abs z < 2 ^ 1024 ->
  double_trunc (double_of_Z z) = Some z.
Proof.
  intros Hex Hz.
  destruct (Z_lt_le_dec (Z.abs z) (2 ^ 53)) as [Hlt|Hge].
  { apply double_trunc_of_Z. lia. }
  unfold binary64_exact in Hex. cbv zeta in Hex. apply Z.eqb_eq in Hex.
  assert (Hlog : 53 <= Z.log2 (Z.abs z)) by (apply Z.log2_le_pow2; lia).
  assert (Hlog' : Z.log2 (Z.abs z) < 1024) by (apply Z.log2_lt_pow2; lia).
  rewrite Z.max_r in Hex by lia.
  set (k := Z.log2 (Z.abs z) - 52) in *.
  assert (Hk : 1 <= k <= 971) by (unfold k; lia).
  apply Z.mod_divide in Hex; [|apply Z.pow_nonzero; lia].
  destruct Hex as [q Hq].
  assert (Hqpos : 0 < q) by (assert (0 < 2 ^ k) by (apply Z.pow_pos_nonneg; lia); nia).
  assert (Hqlog : Z.log2 q = 52).
  { assert (Z.log2 (q * 2 ^ k) = k + Z.log2 q) by (apply Z.log2_mul_pow2; lia).
    rewrite <- Hq in H. unfold k in H. lia. }
  destruct q as [|q|q]; try lia.
  assert (Hd : Zpos (digits2_pos q) = 53) by (rewrite digits2_pos_log2; lia).
  destruct k as [|n|n]; try lia.
  assert (Hshape : forall p, Zpos p = Z.abs z -> p = Pos.iter xO q n).
  { intros p Hp. apply Pos2Z.inj. rewrite Zpos_iter_xO. lia. }
  unfold double_of_Z, binary_normalize.
  destruct z as [|p|p]; [simpl in Hge; lia| |];
    rewrite (Hshape p eq_refl), binary_round_exact by lia;
    unfold double_trunc; change (0 <=? Z.pos n) with true; cbv iota;
    rewrite Z.shiftl_mul_pow2, <- Zpos_iter_xO by lia; reflexivity.
Qed.

Lemma binary64_exact_small (z : Z) : Z.abs z <= 2 ^ 53 -> binary64_exact z = true.
Proof.
  intros Hz. unfold binary64_exact. cbv zeta. apply Z.eqb_eq.
  destruct (Z.eq_dec (Z.abs z) (2 ^ 53)) as [->|Hne]; [reflexivity|].
  destruct (Z.eq_dec (Z.abs z) 0) as [->|Hnz]; [reflexivity|].
  assert (Z.log2 (Z.abs z) < 53) by (apply Z.log2_lt_pow2; lia).
  rewrite Z.max_l by lia. apply Z.mod_1_r.
Qed.

Lemma saturate_int64 z : is_int64 z -> Z.max INT64_MIN (Z.min INT64_MAX z) = z.
Proof. unfold is_int64, INT64_MIN, INT64_MAX. lia. Qed.

Lemma int64_lt_pow2_1024 z : is_int64 z -> Z.abs z < 2 ^ 1024.
Proof.
  unfold is_int64. intros H.
  assert (2 ^ 63 < 2 ^ 1024) by (apply Z.pow_lt_mono_r; lia). lia.
Qed.

Lemma int64_of_unsigned_long_is_int64 z : is_int64 (int64_of_unsigned_long z).
Proof.
  unfold is_int64, int64_of_unsigned_long, wrap_signed. change (64 - 1) with 63.
  change (2 ^ 64) with 18446744073709551616. change (2 ^ 63) with 9223372036854775808.
  destruct (Z.ltb_spec (z mod 18446744073709551616) 9223372036854775808);
    Z.div_mod_to_equations; lia.
Qed.

Lemma int64_unsigned_long_int64 z :
  is_int64 z -> int64_of_unsigned_long (unsigned_long_of_int64 z) = z.
Proof.
  unfold is_int64, unsigned_long_of_int64, int64_of_unsigned_long,
    wrap_signed, wrap_unsigned. change (64 - 1) with 63.
  change (2 ^ 64) with 18446744073709551616. change (2 ^ 63) with 9223372036854775808.
  intros H. rewrite Z.mod_mod by lia.
  destruct (Z.ltb_spec (z mod 18446744073709551616) 9223372036854775808);
    Z.div_mod_to_equations; lia.
Qed.

Lemma shr_m_shr_1 (mrs : shr_record) :
  0 <= shr_m mrs -> shr_m (shr_1 mrs) = shr_m mrs / 2.
Proof.
  destruct mrs as [m r s]. simpl. intros Hm.
  destruct m as [|[p|p|]|p]; simpl shr_m; try lia.
  - reflexivity.
  - rewrite Pos2Z.inj_xI. apply Z.div_unique with 1; lia.
  - rewrite Pos2Z.inj_xO. apply Z.div_unique with 0; lia.
  - reflexivity.
Qed.

Lemma shr_m_iter_pos_shr_1 (n : positive) : forall mrs,
  0 <= shr_m mrs ->
  0 <= shr_m (SpecFloat.iter_pos shr_1 n mrs) /\
  shr_m (SpecFloat.iter_pos shr_1 n mrs) = shr_m mrs / 2 ^ Zpos n.
Proof.
  assert (Hdiv : forall a b, 0 <= a -> 0 < b -> 0 <= a / b)
    by (intros; apply Z.div_pos; lia).
  induction n as [n IH|n IH|]; intros mrs Hm; simpl SpecFloat.iter_pos.
  - assert (H1 : 0 <= shr_m (shr_1 mrs))
      by (rewrite shr_m_shr_1 by assumption; apply Hdiv; lia).
    destruct (IH _ H1) as [H2 E2]. destruct (IH _ H2) as [H3 E3].
    split; [assumption|].
    rewrite E3, E2, shr_m_shr_1 by assumption.
    assert (0 < 2 ^ Zpos n) by (apply Z.pow_pos_nonneg; lia).
    rewrite !Z.div_div by lia. f_equal.
    replace (Zpos n~1) with (1 + Zpos n + Zpos n) by lia.
    rewrite !Z.pow_add_r by lia. change (2 ^ 1) with 2. lia.
  - destruct (IH _ Hm) as [H2 E2]. destruct (IH _ H2) as [H3 E3].
    split; [assumption|].
    rewrite E3, E2.
    assert (0 < 2 ^ Zpos n) by (apply Z.pow_pos_nonneg; lia).
    rewrite !Z.div_div by lia. f_equal.
    replace (Zpos n~0) with (Zpos n + Zpos n) by lia.
    rewrite !Z.pow_add_r by lia. change (2 ^ 1) with 2. lia.
  - rewrite shr_m_shr_1 by assumption. split; [apply Hdiv; lia|reflexivity].
Qed.

Lemma round_nearest_even_step (m : Z) (l : location) :
  round_nearest_even m l = m \/ round_nearest_even m l = m + 1.
Proof.
  unfold round_nearest_even. destruct l as [|[| |]]; try (by left); try (by right).
  destruct (IntDef.Z.even m); [by left|by right].
Qed.

(** What rounding does to an integer of more than 53 bits: the bits below
    the 53 leading ones are dropped and the mantissa is kept or stepped up
    by one. *)
Lemma binary_round_large (s : bool) (p : positive) :
  2 ^ 53 <= Zpos p < 2 ^ 1023 ->
  exists m : positive,
    (Zpos m = Zpos p / 2 ^ (Z.log2 (Zpos p) - 52) \/
     Zpos m = Zpos p / 2 ^ (Z.log2 (Zpos p) - 52) + 1) /\
    2 ^ 52 <= Zpos m <= 2 ^ 53 /\
    binary_round prec emax s p 0
    = if Zpos m =? 2 ^ 53
      then S754_finite s 4503599627370496 (Z.log2 (Zpos p) - 52 + 1)
      else S754_finite s m (Z.log2 (Zpos p) - 52).
Proof.
  intros Hp.
  assert (Hlog : 53 <= Z.log2 (Zpos p) < 1023).
  { split; [apply Z.log2_le_pow2; lia|apply Z.log2_lt_pow2; lia]. }
  pose proof (Z.log2_spec (Zpos p) ltac:(lia)) as Hspec.
  remember (Z.log2 (Zpos p) - 52) as k eqn:Hk.
  assert (Hd : Zpos (digits2_pos p) = k + 53) by (rewrite digits2_pos_log2; lia).
  assert (Hf : fexp prec emax (Zpos (digits2_pos p) + 0) = k).
  { unfold fexp, emin, prec, emax. lia. }
  destruct k as [|n|n]; try lia.
  assert (Hpow : 0 < 2 ^ Zpos n) by (apply Z.pow_pos_nonneg; lia).
  assert (Hlow : 2 ^ 52 <= Zpos p / 2 ^ Zpos n).
  { apply Z.div_le_lower_bound; [lia|].
    rewrite <- Z.pow_add_r by lia.
    replace (Zpos n + 52) with (Z.log2 (Zpos p)) by lia. lia. }
  assert (Hhigh : Zpos p / 2 ^ Zpos n < 2 ^ 53).
  { apply Z.div_lt_upper_bound; [lia|].
    rewrite <- Z.pow_add_r by lia.
    replace (Zpos n + 53) with (Z.succ (Z.log2 (Zpos p))) by lia. lia. }
  unfold binary_round, shl_align.
  rewrite Hf. replace (Z.pos n - 0) with (Z.pos n) by lia. cbv beta iota.
  unfold binary_round_aux, shr_fexp. simpl Zdigits2 at 1. simpl shr_record_of_loc.
  rewrite Hf. replace (Z.pos n - 0) with (Z.pos n) by lia.
  unfold shr at 1.
  destruct (shr_m_iter_pos_shr_1 n
              {| shr_m := Zpos p; shr_r := false; shr_s := false |})
    as [_ Hm]; [simpl; lia|]. simpl shr_m in Hm.
  set (X := SpecFloat.iter_pos shr_1 n _) in *.
  pose proof (round_nearest_even_step (shr_m X) (loc_of_shr_record X)) as Hr.
  set (m1 := round_nearest_even (shr_m X) (loc_of_shr_record X)) in *.
  rewrite Hm in Hr. clearbody m1. clear X Hm.
  destruct m1 as [|m|m]; try lia.
  exists m. split; [exact Hr|]. split; [lia|].
  replace (0 + Zpos n) with (Zpos n) by lia.
  destruct (Z.eqb_spec (Zpos m) (2 ^ 53)) as [Heq|Hne].
  - assert (m = 9007199254740992%positive) as -> by (apply Pos2Z.inj; exact Heq).
    change (Zdigits2 9007199254740992) with 54.
    assert (Hf' : fexp prec emax (54 + Zpos n) - Zpos n = 1).
    { unfold fexp, emin, prec, emax. lia. }
    rewrite Hf'. simpl.
    unfold emax, prec.
    destruct (Z.leb_spec (Zpos n + 1) (1024 - 53)); [reflexivity|lia].
  - assert (Hm : Z.log2 (Zpos m) = 52) by (apply Z.log2_unique; lia).
    simpl Zdigits2.
    assert (Hf' : fexp prec emax (Zpos (digits2_pos m) + Zpos n) - Zpos n = 0).
    { rewrite digits2_pos_log2. unfold fexp, emin, prec, emax. lia. }
    rewrite Hf'. simpl.
    unfold emax, prec.
    destruct (Z.leb_spec (Zpos n) (1024 - 53)); [reflexivity|lia].
Qed.

(** The double with mantissa [q] of full width and exponent [n] is the
    double of the integer it denotes, which it holds exactly. *)
Lemma double_of_Z_canonical (s : bool) (q n : positive) :
  Zpos (digits2_pos q) = 53 -> Zpos n <= 971 ->
  let y := if s then Zneg (Pos.iter xO q n) else Zpos (Pos.iter xO q n) in
  double_of_Z y = S754_finite s q (Zpos n) /\
  double_trunc (S754_finite s q (Zpos n)) = Some y /\
  binary64_exact y = true /\
  Z.abs y = Zpos q * 2 ^ Zpos n.
Proof.
  intros Hq Hn y.
  assert (Habs : Z.abs y = Zpos q * 2 ^ Zpos n).
  { unfold y. destruct s; simpl Z.abs; apply Zpos_iter_xO. }
  assert (Hdouble : double_of_Z y = S754_finite s q (Zpos n)).
  { unfold y, double_of_Z, binary_normalize.
    destruct s; apply binary_round_exact; assumption. }
  assert (Hexact : binary64_exact y = true).
  { unfold binary64_exact. cbv zeta. rewrite Habs. apply Z.eqb_eq.
    rewrite Z.log2_mul_pow2 by lia.
    rewrite digits2_pos_log2 in Hq.
    replace (Z.max 0 (Zpos n + Z.log2 (Zpos q) - 52)) with (Zpos n) by lia.
    apply Z.mod_mul. apply Z.pow_nonzero; lia. }
  repeat split; try assumption.
  rewrite <- Hdouble. apply double_trunc_of_exact; [exact Hexact|].
  rewrite Habs.
  assert (Zpos q < 2 ^ 53) by (rewrite <- Hq; apply Zpos_lt_digits2_pos).
  assert (0 < 2 ^ Zpos n) by (apply Z.pow_pos_nonneg; lia).
  assert (2 ^ Zpos n <= 2 ^ 971) by (apply Z.pow_le_mono_r; lia).
  assert (2 ^ 53 * 2 ^ 971 = 2 ^ 1024) by (rewrite <- Z.pow_add_r by lia; reflexivity).
  nia.
Qed.

(** The double of an integer of more than 53 bits denotes an integer of
    the same sign that binary64 holds exactly, whose double it also is. *)
Lemma double_of_Z_large (z : Z) :
  2 ^ 53 <= Z.abs z < 2 ^ 1023 ->
  exists y,
    double_trunc (double_of_Z z) = Some y /\
    binary64_exact y = true /\
    double_of_Z y = double_of_Z z /\
    Z.abs y <= 2 ^ (Z.log2 (Z.abs z) + 1) /\
    Z.sgn y = Z.sgn z.
Proof.
  intros Hz.
  assert (Hshape : forall s p, Zpos p = Z.abs z ->
            exists q n,
              Zpos (digits2_pos q) = 53 /\ Zpos n <= 971 /\
              binary_round prec emax s p 0 = S754_finite s q (Zpos n) /\
              Zpos q * 2 ^ Zpos n <= 2 ^ (Z.log2 (Z.abs z) + 1)).
  { intros s p Hp. rewrite <- Hp in *.
    assert (Hlog : 53 <= Z.log2 (Zpos p) < 1023).
    { split; [apply Z.log2_le_pow2; lia|apply Z.log2_lt_pow2; lia]. }
    destruct (binary_round_large s p Hz) as (m & _ & Hm & Hround).
    remember (Z.log2 (Zpos p) - 52) as k eqn:Hk.
    destruct k as [|n|n]; try lia.
    assert (Hsplit : 2 ^ (Z.log2 (Zpos p) + 1) = 2 ^ 53 * 2 ^ Zpos n).
    { rewrite <- Z.pow_add_r by lia. f_equal. lia. }
    assert (Hpow : 0 < 2 ^ Zpos n) by (apply Z.pow_pos_nonneg; lia).
    destruct (Z.eqb_spec (Zpos m) (2 ^ 53)) as [Heq|Hne].
    - exists 4503599627370496%positive, (n + 1)%positive.
      split; [reflexivity|]. split; [lia|].
      split; [rewrite Hround; f_equal; lia|].
      rewrite Hsplit, Pos2Z.inj_add, Z.pow_add_r by lia.
      change (2 ^ 53) with 9007199254740992. change (2 ^ 1) with 2. lia.
    - exists m, n.
      assert (Z.log2 (Zpos m) = 52) by (apply Z.log2_unique; lia).
      split; [rewrite digits2_pos_log2; lia|]. split; [lia|].
      split; [exact Hround|].
      rewrite Hsplit. nia. }
  destruct z as [|p|p]; [simpl in Hz; lia| |].
  - destruct (Hshape false p eq_refl) as (q & n & Hq & Hn & Hround & Hbound).
    destruct (double_of_Z_canonical false q n Hq Hn) as (Hd & Ht & He & Ha).
    exists (Zpos (Pos.iter xO q n)).
    unfold double_of_Z at 1 3. unfold binary_normalize. rewrite Hround.
    repeat split; try assumption. simpl Z.abs in Ha. lia.
  - destruct (Hshape true p eq_refl) as (q & n & Hq & Hn & Hround & Hbound).
    destruct (double_of_Z_canonical true q n Hq Hn) as (Hd & Ht & He & Ha).
    exists (Zneg (Pos.iter xO q n)).
    unfold double_of_Z at 1 3. unfold binary_normalize. rewrite Hround.
    repeat split; try assumption. simpl Z.abs in Ha. lia.
Qed.

Lemma c_str_idempotent_nul (x t : string) :
  c_str (c_str x ++ String NUL t) = c_str x.
Proof.
  induction x as [|c x IH]; simpl.
  - reflexivity.
  - destruct (Ascii.eqb c NUL) eqn:Hc; simpl.
    + reflexivity.
    + rewrite Hc, IH. reflexivity.
Qed.

Lemma c_str_app_nul (s t : string) : c_str s = s -> c_str (s ++ String NUL t) = s.
Proof. intros H. rewrite <- H at 1. rewrite c_str_idempotent_nul. exact H. Qed.

Lemma string_take_length (s : string) : string_take (String.length s) s = s.
Proof. induction s as [|c s IH]; simpl; [reflexivity|rewrite IH; reflexivity]. Qed.

Lemma string_drop_all (buf : string) : string_drop (String.length buf) buf = EmptyString.
Proof. induction buf as [|c buf IH]; simpl; [reflexivity|exact IH]. Qed.

Lemma length_resize (n : nat) (r : string) : String.length (resize n r) = n.
Proof.
  revert r. induction n as [|n IH]; intros r; simpl; [reflexivity|].
  destruct r; simpl; rewrite IH; reflexivity.
Qed.

Lemma string_length_app (s t : string) :
  String.length (s ++ t) = (String.length s + String.length t)%nat.
Proof. induction s as [|c s IH]; simpl; [reflexivity|rewrite IH; reflexivity]. Qed.

(** Decoding well-formed UTF-8 replaces nothing, and neither does
    encoding a string without a lone surrogate. *)
Lemma from_utf8_well_formed (s : string) : well_formed s = true -> from_utf8 s = s.
Proof.
  remember (String.length s) as n eqn:Hn.
  revert s Hn. induction n as [n IH] using lt_wf_ind. intros s Hn Hwf.
  destruct s as [|b0 s1]; [reflexivity|].
  cbn [well_formed from_utf8] in Hwf |- *. simpl in Hn.
  destruct (between 0x00 0x7F b0).
  { f_equal. apply (IH (String.length s1)); [lia|reflexivity|exact Hwf]. }
  destruct (between 0xC2 0xDF b0).
  { destruct s1 as [|b1 s2]; [discriminate|].
    apply andb_true_iff in Hwf as [H1 Hwf]. rewrite H1. simpl in Hn.
    do 2 f_equal. apply (IH (String.length s2)); [lia|reflexivity|exact Hwf]. }
  destruct (between 0xE0 0xEF b0).
  { destruct s1 as [|b1 [|b2 s3]]; try discriminate.
    apply andb_true_iff in Hwf as [H1 Hwf]. apply andb_true_iff in H1 as [H1 H2].
    rewrite H1, H2. simpl in Hn.
    do 3 f_equal. apply (IH (String.length s3)); [lia|reflexivity|exact Hwf]. }
  destruct (between 0xF0 0xF4 b0); [|discriminate].
  destruct s1 as [|b1 [|b2 [|b3 s4]]]; try discriminate.
  apply andb_true_iff in Hwf as [H1 Hwf]. apply andb_true_iff in H1 as [H1 H3].
  apply andb_true_iff in H1 as [H1 H2].
  rewrite H1, H2, H3. simpl in Hn.
  do 4 f_equal. apply (IH (String.length s4)); [lia|reflexivity|exact Hwf].
Qed.

Lemma between_code lo hi c : between lo hi c = true -> (lo <= code c <= hi)%N.
Proof.
  unfold between. intros H. apply andb_true_iff in H as [H1 H2].
  apply N.leb_le in H1, H2. by split.
Qed.

Lemma to_utf8_cons (b : ascii) (s : string) :
  code b <> 0xED%N -> to_utf8 (String b s) = String b (to_utf8 s).
Proof.
  intros H. cbn [to_utf8]. destruct (N.eqb_spec (code b) 0xED); [contradiction|reflexivity].
Qed.

Lemma to_utf8_ED (b0 b1 : ascii) (s : string) :
  between 0xA0 0xBF b1 = false ->
  to_utf8 (String b0 (String b1 s)) = String b0 (to_utf8 (String b1 s)).
Proof.
  intros H. cbn [to_utf8]. destruct (code b0 =? 0xED)%N; [|reflexivity].
  destruct s; [reflexivity|]. rewrite H. reflexivity.
Qed.

Lemma to_utf8_well_formed (s : string) : well_formed s = true -> to_utf8 s = s.
Proof.
  remember (String.length s) as n eqn:Hn.
  revert s Hn. induction n as [n IH] using lt_wf_ind. intros s Hn Hwf.
  destruct s as [|b0 s1]; [reflexivity|].
  cbn [well_formed] in Hwf. simpl in Hn.
  destruct (between 0x00 0x7F b0) eqn:Hb0.
  { apply between_code in Hb0. rewrite to_utf8_cons by lia.
    f_equal. apply (IH (String.length s1)); [lia|reflexivity|exact Hwf]. }
  clear Hb0. destruct (between 0xC2 0xDF b0) eqn:Hb0.
  { destruct s1 as [|b1 s2]; [discriminate|].
    apply andb_true_iff in Hwf as [H1 Hwf]. simpl in Hn.
    apply between_code in Hb0, H1.
    rewrite !to_utf8_cons by lia.
    do 2 f_equal. apply (IH (String.length s2)); [lia|reflexivity|exact Hwf]. }
  clear Hb0. destruct (between 0xE0 0xEF b0) eqn:Hb0.
  { destruct s1 as [|b1 [|b2 s3]]; try discriminate.
    apply andb_true_iff in Hwf as [H1 Hwf]. apply andb_true_iff in H1 as [H1 H2].
    simpl in Hn. apply between_code in H2.
    assert (Hsur : code b0 <> 0xED%N \/ between 0xA0 0xBF b1 = false).
    { destruct (N.eqb_spec (code b0) 0xED) as [Heq|Hne]; [right|by left].
      unfold second, second_high in H1. rewrite Heq in H1. simpl in H1.
      apply between_code in H1. unfold between.
      apply andb_false_iff. left. apply N.leb_gt. lia. }
    assert (Hb1 : code b1 <> 0xED%N).
    { unfold second in H1. apply between_code in H1.
      assert (second_high b0 <= 0xBF)%N
        by (unfold second_high; repeat case_match; lia).
      lia. }
    assert (to_utf8 (String b0 (String b1 (String b2 s3)))
            = String b0 (to_utf8 (String b1 (String b2 s3)))) as ->.
    { destruct Hsur as [Hne|Hno]; [by apply to_utf8_cons|by apply to_utf8_ED]. }
    rewrite !to_utf8_cons by lia.
    do 3 f_equal. apply (IH (String.length s3)); [lia|reflexivity|exact Hwf]. }
  clear Hb0. destruct (between 0xF0 0xF4 b0) eqn:Hb0; [|discriminate].
  destruct s1 as [|b1 [|b2 [|b3 s4]]]; try discriminate.
  apply andb_true_iff in Hwf as [H1 Hwf]. apply andb_true_iff in H1 as [H1 H3].
  apply andb_true_iff in H1 as [H1 H2]. simpl in Hn.
  apply between_code in Hb0, H2, H3.
  assert (Hb1 : code b1 <> 0xED%N).
  { unfold second in H1. apply between_code in H1.
    assert (second_high b0 <= 0xBF)%N
      by (unfold second_high; repeat case_match; lia).
    lia. }
  rewrite !to_utf8_cons by lia.
  do 4 f_equal. apply (IH (String.length s4)); [lia|reflexivity|exact Hwf].
Qed.

Lemma napi_get_value_string_utf8_fits (s buf : string) (env : napi_env) :
  String.length buf = S (String.length (to_utf8 s)) ->
  napi_get_value_string_utf8 (Some (JSString s)) buf (S (String.length (to_utf8 s))) env
  = Ok ((to_utf8 s ++ String NUL EmptyString)%string, String.length (to_utf8 s)) env.
Proof.
  intros Hlen. unfold napi_get_value_string_utf8. cbv zeta.
  rewrite string_take_length, <- Hlen, string_drop_all. reflexivity.
Qed.

(** What the string codec computes on a script string: the bytes of its
    UTF-8 form followed by the terminator, whatever the output string held
    before. *)
Lemma DOMString_ToNative_string (s : string) (result : DOMString) (env : napi_env) :
  DOMString_ToNative (Some (JSString s)) result env
  = (napi_ok, (to_utf8 s ++ String NUL EmptyString)%string, env).
Proof.
  unfold DOMString_ToNative, napi_get_value_string_utf8_length, status_call.
  rewrite Nat.add_1_r, napi_get_value_string_utf8_fits by apply length_resize.
  reflexivity.
Qed.

(** The steps of the string codec: the first call reports [size], the
    output string is resized to [size + 1], and the second call is given
    that buffer and that size. *)
Lemma DOMString_ToNative_steps (s : string) (result : DOMString) (env : napi_env) :
  exists size buffer,
    napi_get_value_string_utf8_length (Some (JSString s)) env = Ok size env /\
    size = String.length (to_utf8 s) /\
    buffer = resize (size + 1) result /\
    String.length buffer = (size + 1)%nat /\
    DOMString_ToNative (Some (JSString s)) result env
    = return_call
        (match napi_get_value_string_utf8 (Some (JSString s)) buffer (size + 1) env with
         | Ok written env' => Ok written.1 env'
         | Fail st env' => Fail st env'
         end) buffer.
Proof.
  exists (String.length (to_utf8 s)), (resize (String.length (to_utf8 s) + 1) result).
  repeat split.
  - apply length_resize.
  - unfold DOMString_ToNative. simpl. rewrite Nat.add_1_r. reflexivity.
Qed.

Lemma well_formed_REPLACEMENT (t : string) :
  well_formed (REPLACEMENT ++ t) = well_formed t.
Proof. reflexivity. Qed.

(** Whatever the bytes, what the host decodes is well-formed UTF-8. *)
Lemma well_formed_from_utf8 (s : string) : well_formed (from_utf8 s) = true.
Proof.
  remember (String.length s) as n eqn:Hn.
  revert s Hn. induction n as [n IH] using lt_wf_ind. intros s Hn.
  assert (Htail : forall t, (String.length t < n)%nat -> well_formed (from_utf8 t) = true)
    by (intros t Ht; by apply (IH (String.length t))).
  assert (Hrep : forall t, (String.length t < n)%nat ->
            well_formed (REPLACEMENT ++ from_utf8 t) = true)
    by (intros t Ht; rewrite well_formed_REPLACEMENT; by apply Htail).
  clear IH.
  destruct s as [|b0 s1]; [reflexivity|].
  cbn [from_utf8]. simpl in Hn.
  destruct (between 0x00 0x7F b0) eqn:H0.
  { cbn [well_formed]. rewrite H0. apply Htail. lia. }
  destruct (between 0xC2 0xDF b0) eqn:H2.
  { destruct s1 as [|b1 s2]; [reflexivity|]. simpl in Hn.
    destruct (continuation b1) eqn:H1; [|apply Hrep; simpl; lia].
    cbn [well_formed]. rewrite H0, H2, H1. apply Htail. lia. }
  destruct (between 0xE0 0xEF b0) eqn:H3.
  { destruct s1 as [|b1 s2]; [reflexivity|]. simpl in Hn.
    destruct (second b0 b1) eqn:H1; [|apply Hrep; simpl; lia].
    destruct s2 as [|b2 s3]; [reflexivity|]. simpl in Hn.
    destruct (continuation b2) eqn:Hc2; [|apply Hrep; simpl; lia].
    cbn [well_formed]. rewrite H0, H2, H3, H1, Hc2. apply Htail. lia. }
  destruct (between 0xF0 0xF4 b0) eqn:H4; [|apply Hrep; lia].
  destruct s1 as [|b1 s2]; [reflexivity|]. simpl in Hn.
  destruct (second b0 b1) eqn:H1; [|apply Hrep; simpl; lia].
  destruct s2 as [|b2 s3]; [reflexivity|]. simpl in Hn.
  destruct (continuation b2) eqn:Hc2; [|apply Hrep; simpl; lia].
  destruct s3 as [|b3 s4]; [reflexivity|]. simpl in Hn.
  destruct (continuation b3) eqn:Hc3; [|apply Hrep; simpl; lia].
  cbn [well_formed]. rewrite H0, H2, H3, H4, H1, Hc2, Hc3. apply Htail. lia.
Qed.

Lemma c_str_c_str (s : string) : c_str (c_str s) = c_str s.
Proof.
  induction s as [|c s IH]; simpl; [reflexivity|].
  destruct (Ascii.eqb c NUL) eqn:Hc; simpl; [reflexivity|by rewrite Hc, IH].
Qed.

Lemma c_str_cons (c : ascii) (s : string) :
  c_str (String c s) = String c s -> Ascii.eqb c NUL = false /\ c_str s = s.
Proof.
  simpl. destruct (Ascii.eqb c NUL); [discriminate|].
  intros H. split; [reflexivity|congruence].
Qed.

Lemma c_str_REPLACEMENT (t : string) :
  c_str (REPLACEMENT ++ t) = (REPLACEMENT ++ c_str t)%string.
Proof. reflexivity. Qed.

(** Decoding puts no NUL where there was none. *)
Lemma c_str_from_utf8 (s : string) : c_str s = s -> c_str (from_utf8 s) = from_utf8 s.
Proof.
  remember (String.length s) as n eqn:Hn.
  revert s Hn. induction n as [n IH] using lt_wf_ind. intros s Hn Hs.
  assert (Htail : forall t, (String.length t < n)%nat -> c_str t = t ->
            c_str (from_utf8 t) = from_utf8 t)
    by (intros t Ht; by apply (IH (String.length t))).
  assert (Hrep : forall t, (String.length t < n)%nat -> c_str t = t ->
            c_str (REPLACEMENT ++ from_utf8 t) = (REPLACEMENT ++ from_utf8 t)%string)
    by (intros t Ht Hc; rewrite c_str_REPLACEMENT; f_equal; by apply Htail).
  clear IH.
  destruct s as [|b0 s1]; [reflexivity|].
  cbn [from_utf8]. simpl in Hn.
  pose proof Hs as Hs0. apply c_str_cons in Hs0 as [N0 Hs1].
  destruct (between 0x00 0x7F b0).
  { cbn [c_str]. rewrite N0. f_equal. apply Htail; [lia|exact Hs1]. }
  destruct (between 0xC2 0xDF b0).
  { destruct s1 as [|b1 s2]; [reflexivity|]. simpl in Hn.
    pose proof Hs1 as Hs1'. apply c_str_cons in Hs1' as [N1 Hs2].
    destruct (continuation b1); [|apply Hrep; [simpl; lia|exact Hs1]].
    cbn [c_str]. rewrite N0, N1. do 2 f_equal. apply Htail; [lia|exact Hs2]. }
  destruct (between 0xE0 0xEF b0).
  { destruct s1 as [|b1 s2]; [reflexivity|]. simpl in Hn.
    pose proof Hs1 as Hs1'. apply c_str_cons in Hs1' as [N1 Hs2].
    destruct (second b0 b1); [|apply Hrep; [simpl; lia|exact Hs1]].
    destruct s2 as [|b2 s3]; [reflexivity|]. simpl in Hn.
    pose proof Hs2 as Hs2'. apply c_str_cons in Hs2' as [N2 Hs3].
    destruct (continuation b2); [|apply Hrep; [simpl; lia|exact Hs2]].
    cbn [c_str]. rewrite N0, N1, N2. do 3 f_equal. apply Htail; [lia|exact Hs3]. }
  destruct (between 0xF0 0xF4 b0); [|apply Hrep; [lia|exact Hs1]].
  destruct s1 as [|b1 s2]; [reflexivity|]. simpl in Hn.
  pose proof Hs1 as Hs1'. apply c_str_cons in Hs1' as [N1 Hs2].
  destruct (second b0 b1); [|apply Hrep; [simpl; lia|exact Hs1]].
  destruct s2 as [|b2 s3]; [reflexivity|]. simpl in Hn.
  pose proof Hs2 as Hs2'. apply c_str_cons in Hs2' as [N2 Hs3].
  destruct (continuation b2); [|apply Hrep; [simpl; lia|exact Hs2]].
  destruct s3 as [|b3 s4]; [reflexivity|]. simpl in Hn.
  pose proof Hs3 as Hs3'. apply c_str_cons in Hs3' as [N3 Hs4].
  destruct (continuation b3); [|apply Hrep; [simpl; lia|exact Hs3]].
  cbn [c_str]. rewrite N0, N1, N2, N3. do 4 f_equal. apply Htail; [lia|exact Hs4].
Qed.

(** What the string codec gives back for the native string [x]: the
    decoded C string and a terminator. *)
Lemma DOMString_trip (x : DOMString) :
  to_utf8 (from_utf8 (c_str x)) = from_utf8 (c_str x) /\
  c_str (from_utf8 (c_str x) ++ String NUL EmptyString) = from_utf8 (c_str x) /\
  (from_utf8 (c_str x) = c_str x <-> well_formed (c_str x) = true).
Proof.
  split; [apply to_utf8_well_formed, well_formed_from_utf8|].
  split; [apply c_str_app_nul, c_str_from_utf8, c_str_c_str|].
  split; [|apply from_utf8_well_formed].
  intros H. rewrite <- H. apply well_formed_from_utf8.
Qed.

(** An [int64_t] read out of the double of the 64-bit integer [z]: it has
    the same double as [z], and is [z] itself exactly when binary64 holds
    [z] or when [z] is the largest value, to which the double 2^63 that
    [z] rounds to saturates. *)
Lemma napi_get_value_int64_of_int64 (z : Z) (env : napi_env) :
  is_int64 z ->
  exists y,
    napi_get_value_int64 (Some (JSNumber (double_of_Z z))) env = Ok y env /\
    is_int64 y /\
    double_of_Z y = double_of_Z z /\
    (y = z <-> binary64_exact z = true \/ z = INT64_MAX).
Proof.
  intros Hz. unfold napi_get_value_int64.
  destruct (Z_lt_le_dec (Z.abs z) (2 ^ 53)) as [Hsmall|Hlarge].
  { exists z. rewrite double_trunc_of_Z, saturate_int64 by (assumption || lia).
    repeat split; try apply Hz. intros _. left. apply binary64_exact_small. lia. }
  destruct (Z.eq_dec z (- 2 ^ 63)) as [->|Hmin].
  { exists (- 2 ^ 63). repeat split; try (vm_compute; congruence). by left. }
  assert (Habs : Z.abs z < 2 ^ 63) by (unfold is_int64 in Hz; lia).
  assert (Hbig : 2 ^ 53 <= Z.abs z < 2 ^ 1023).
  { assert (2 ^ 63 < 2 ^ 1023) by (apply Z.pow_lt_mono_r; lia). lia. }
  destruct (double_of_Z_large z Hbig) as (y0 & Htrunc & Hexact & Hdouble & Hbound & Hsgn).
  assert (Hy0 : Z.abs y0 <= 2 ^ 63).
  { etransitivity; [exact Hbound|]. apply Z.pow_le_mono_r; [lia|].
    assert (Z.log2 (Z.abs z) < 63) by (apply Z.log2_lt_pow2; lia). lia. }
  assert (Hthere : binary64_exact z = true -> y0 = z).
  { intros He. rewrite double_trunc_of_exact in Htrunc; [congruence|exact He|lia]. }
  rewrite Htrunc.
  destruct (Z.eq_dec y0 (2 ^ 63)) as [Htop|Hin].
  - exists INT64_MAX. subst y0.
    split; [reflexivity|]. split; [unfold is_int64, INT64_MAX; lia|].
    split; [rewrite <- Hdouble; vm_compute; reflexivity|].
    split; [intros <-; by right|].
    intros [He| ->]; [|reflexivity]. apply Hthere in He. unfold is_int64 in Hz. lia.
  - assert (Hy : is_int64 y0).
    { unfold is_int64 in *. destruct (Z.eq_dec y0 (- 2 ^ 63)); lia. }
    exists y0. rewrite saturate_int64 by exact Hy.
    split; [reflexivity|]. split; [exact Hy|]. split; [exact Hdouble|].
    split; [intros <-; by left|].
    intros [He| ->]; [by apply Hthere|].
    exfalso. apply Hin.
    assert (E : double_trunc (double_of_Z INT64_MAX) = Some (2 ^ 63))
      by (vm_compute; reflexivity).
    congruence.
Qed.

Section RoundTrips.
Variables (js0 : napi_value) (env : napi_env).

Lemma uint32_there_and_back x r0 :
  is_uint32 x -> there_and_back Converter_uint32_t x js0 r0 env = (napi_ok, x).
Proof.
  intros Hx. unfold is_uint32 in Hx. change (2 ^ 32) with 4294967296 in Hx.
  unfold there_and_back. simpl.
  rewrite double_trunc_of_Z by (change (2 ^ 53) with 9007199254740992; lia).
  rewrite wrap_unsigned_small by (change (2 ^ 32) with 4294967296; lia). reflexivity.
Qed.

Lemma int32_there_and_back x r0 :
  is_int32 x -> there_and_back Converter_int32_t x js0 r0 env = (napi_ok, x).
Proof.
  intros Hx. pose proof Hx as Hx'. unfold is_int32 in Hx'.
  change (2 ^ 31) with 2147483648 in Hx'.
  unfold there_and_back. simpl.
  rewrite double_trunc_of_Z by (change (2 ^ 53) with 9007199254740992; lia).
  rewrite wrap_signed_32 by assumption. reflexivity.
Qed.

Lemma int64_there_and_back x r0 :
  is_int64 x ->
  there_and_back Converter_int64_t x js0 r0 env = (napi_ok, x)
  <-> binary64_exact x = true \/ x = INT64_MAX.
Proof.
  intros Hx. unfold there_and_back. cbn [ToJS ToNative Converter_int64_t].
  unfold napi_create_int64. cbn [return_call].
  destruct (napi_get_value_int64_of_int64 x env Hx) as (y & -> & _ & _ & Hiff).
  cbn [return_call]. rewrite <- Hiff. split; [congruence|by intros ->].
Qed.

Lemma double_there_and_back (x : double) r0 :
  there_and_back Converter_double x js0 r0 env = (napi_ok, x).
Proof. reflexivity. Qed.

Lemma object_there_and_back (x : object) r0 :
  there_and_back Converter_object x js0 r0 env = (napi_ok, x).
Proof. reflexivity. Qed.

Lemma unsigned_long_there_and_back x r0 :
  is_unsigned_long x ->
  there_and_back Converter_unsigned_long x js0 r0 env = (napi_ok, x)
  <-> binary64_exact (int64_of_unsigned_long x) = true \/
      int64_of_unsigned_long x = INT64_MAX.
Proof.
  intros Hx. unfold there_and_back.
  cbn [ToJS ToNative Converter_unsigned_long Converter_int64_t].
  unfold unsigned_long_ToJS, unsigned_long_ToNative.
  cbn [ToJS ToNative Converter_int64_t].
  unfold napi_create_int64. cbn [return_call].
  destruct (napi_get_value_int64_of_int64 (int64_of_unsigned_long x) env
              (int64_of_unsigned_long_is_int64 x)) as (y & -> & Hy & _ & Hiff).
  cbn [return_call napi_status_eqb]. rewrite <- Hiff. split.
  - intros H. injection H as H. rewrite <- H.
    by rewrite int64_unsigned_long_int64.
  - intros ->. by rewrite unsigned_long_int64_unsigned_long.
Qed.

Lemma DOMString_there_and_back (x : DOMString) r0 :
  there_and_back Converter_DOMString x js0 r0 env
  = (napi_ok, (from_utf8 (c_str x) ++ String NUL EmptyString)%string).
Proof.
  unfold there_and_back. simpl. unfold DOMString_ToJS. simpl.
  rewrite DOMString_ToNative_string, (proj1 (DOMString_trip x)). reflexivity.
Qed.
End RoundTrips.

Section BackAndThere.
Variables (js0 : napi_value) (env : napi_env).

Lemma uint32_back_and_there d r0 :
  back_and_there Converter_uint32_t (Some (JSNumber d)) r0 js0 env
  = (napi_ok, Some (JSNumber d))
  <-> exists z, is_uint32 z /\ d = double_of_Z z.
Proof.
  unfold back_and_there. simpl. split.
  - intros H. injection H as H. eexists. split; [|symmetry; exact H].
    unfold is_uint32. destruct (double_trunc d); [|lia].
    unfold wrap_unsigned. apply Z.mod_pos_bound. lia.
  - intros (z & Hz & ->). unfold is_uint32 in Hz. change (2 ^ 32) with 4294967296 in Hz.
    rewrite double_trunc_of_Z by (change (2 ^ 53) with 9007199254740992; lia).
    rewrite wrap_unsigned_small by (change (2 ^ 32) with 4294967296; lia). reflexivity.
Qed.

Lemma int32_back_and_there d r0 :
  back_and_there Converter_int32_t (Some (JSNumber d)) r0 js0 env
  = (napi_ok, Some (JSNumber d))
  <-> exists z, is_int32 z /\ d = double_of_Z z.
Proof.
  unfold back_and_there. simpl. split.
  - intros H. injection H as H. eexists. split; [|symmetry; exact H].
    unfold is_int32. destruct (double_trunc d); [|lia].
    unfold wrap_signed. change (32 - 1) with 31.
    change (2 ^ 32) with 4294967296. change (2 ^ 31) with 2147483648.
    destruct (Z.ltb_spec (z mod 4294967296) 2147483648);
      Z.div_mod_to_equations; lia.
  - intros (z & Hz & ->). pose proof Hz as Hx'. unfold is_int32 in Hx'.
    change (2 ^ 31) with 2147483648 in Hx'.
    rewrite double_trunc_of_Z by (change (2 ^ 53) with 9007199254740992; lia).
    rewrite wrap_signed_32 by assumption. reflexivity.
Qed.

Lemma napi_get_value_int64_is_int64 d e v e' :
  napi_get_value_int64 (Some (JSNumber d)) e = Ok v e' -> is_int64 v.
Proof.
  unfold napi_get_value_int64. intros H. injection H as <- _.
  unfold is_int64, INT64_MIN, INT64_MAX. destruct (double_trunc d); lia.
Qed.

Lemma int64_back_and_there d r0 :
  back_and_there Converter_int64_t (Some (JSNumber d)) r0 js0 env
  = (napi_ok, Some (JSNumber d))
  <-> exists z, is_int64 z /\ d = double_of_Z z.
Proof.
  unfold back_and_there. cbn [ToJS ToNative Converter_int64_t]. split.
  - destruct (napi_get_value_int64 (Some (JSNumber d)) env) as [v e'|st e'] eqn:Hget;
      [|discriminate]. cbn [return_call]. unfold napi_create_int64. cbn [return_call].
    intros H. injection H as H. exists v.
    split; [by eapply napi_get_value_int64_is_int64|by symmetry].
  - intros (z & Hz & ->).
    destruct (napi_get_value_int64_of_int64 z env Hz) as (y & -> & _ & Hd & _).
    cbn [return_call]. unfold napi_create_int64. cbn [return_call]. by rewrite Hd.
Qed.

Lemma unsigned_long_back_and_there d r0 :
  back_and_there Converter_unsigned_long (Some (JSNumber d)) r0 js0 env
  = (napi_ok, Some (JSNumber d))
  <-> exists z, is_int64 z /\ d = double_of_Z z.
Proof.
  unfold back_and_there.
  cbn [ToJS ToNative Converter_unsigned_long].
  unfold unsigned_long_ToJS, unsigned_long_ToNative.
  cbn [ToJS ToNative Converter_int64_t]. split.
  - destruct (napi_get_value_int64 (Some (JSNumber d)) env) as [v e'|st e'] eqn:Hget;
      [|discriminate]. cbn [return_call napi_status_eqb].
    unfold napi_create_int64. cbn [return_call].
    pose proof (napi_get_value_int64_is_int64 _ _ _ _ Hget) as Hv.
    rewrite int64_unsigned_long_int64 by exact Hv.
    intros H. injection H as H. exists v. split; [exact Hv|by symmetry].
  - intros (z & Hz & ->).
    destruct (napi_get_value_int64_of_int64 z env Hz) as (y & -> & Hy & Hd & _).
    cbn [return_call napi_status_eqb]. unfold napi_create_int64. cbn [return_call].
    by rewrite int64_unsigned_long_int64, Hd.
Qed.

Lemma double_back_and_there (d : spec_float) r0 :
  back_and_there Converter_double (Some (JSNumber d)) r0 js0 env
  = (napi_ok, Some (JSNumber d)).
Proof. reflexivity. Qed.

Lemma object_back_and_there (v : napi_value) r0 :
  back_and_there Converter_object v r0 js0 env = (napi_ok, v).
Proof. reflexivity. Qed.

Lemma DOMString_back_and_there (s : string) r0 :
  back_and_there Converter_DOMString (Some (JSString s)) r0 js0 env
  = (napi_ok, Some (JSString s))
  <-> well_formed s = true /\ c_str s = s.
Proof.
  unfold back_and_there. simpl. rewrite DOMString_ToNative_string.
  simpl. unfold DOMString_ToJS. simpl. split.
  - intros H. injection H as H.
    assert (Hwf : well_formed s = true) by (rewrite <- H; apply well_formed_from_utf8).
    split; [exact Hwf|].
    rewrite <- H at 2. rewrite <- H at 1.
    apply c_str_from_utf8, c_str_c_str.
  - intros [Hwf Hs].
    rewrite to_utf8_well_formed, c_str_app_nul, from_utf8_well_formed by assumption.
    reflexivity.
Qed.
End BackAndThere.

(** C1, as amended.  Converting a native value to a script value and back
    gives the value again for every [uint32_t], [int32_t], [double] and
    opaque object; for an [int64_t] exactly when binary64 holds it (at most
    53 significant bits, so every integer of magnitude up to 2^53) or it is
    the largest value, and for an [unsigned long] exactly when its 64-bit
    signed reading is such a value; for a [DOMString] the result reads as
    the same C string exactly when that C string is well-formed UTF-8.
    Converting a script value to native and back gives the same script
    value for a number exactly when it is the double of an integer of the
    type (of a signed 64-bit integer for [unsigned long]), for any number
    with [double], for any handle with the object type, and for a string
    exactly when it has neither a lone surrogate nor a NUL.  The string
    codec asks for the byte length of the UTF-8 form, resizes the output
    string to that length plus one and fetches again into that buffer. *)
Theorem primitive_round_trips (js0 : napi_value) (env : napi_env) :
  (forall x r0, is_uint32 x ->
     there_and_back Converter_uint32_t x js0 r0 env = (napi_ok, x)) /\
  (forall x r0, is_int32 x ->
     there_and_back Converter_int32_t x js0 r0 env = (napi_ok, x)) /\
  (forall x r0, is_int64 x ->
     there_and_back Converter_int64_t x js0 r0 env = (napi_ok, x)
     <-> binary64_exact x = true \/ x = INT64_MAX) /\
  (forall x r0, there_and_back Converter_double x js0 r0 env = (napi_ok, x)) /\
  (forall x r0, is_unsigned_long x ->
     there_and_back Converter_unsigned_long x js0 r0 env = (napi_ok, x)
     <-> binary64_exact (int64_of_unsigned_long x) = true \/
         int64_of_unsigned_long x = INT64_MAX) /\
  (forall x r0, there_and_back Converter_object x js0 r0 env = (napi_ok, x)) /\
  (forall x r0, exists y,
     there_and_back Converter_DOMString x js0 r0 env = (napi_ok, y) /\
     (c_str y = c_str x <-> well_formed (c_str x) = true)) /\
  (forall d r0,
     back_and_there Converter_uint32_t (Some (JSNumber d)) r0 js0 env
     = (napi_ok, Some (JSNumber d))
     <-> exists z, is_uint32 z /\ d = double_of_Z z) /\
  (forall d r0,
     back_and_there Converter_int32_t (Some (JSNumber d)) r0 js0 env
     = (napi_ok, Some (JSNumber d))
     <-> exists z, is_int32 z /\ d = double_of_Z z) /\
  (forall d r0,
     back_and_there Converter_int64_t (Some (JSNumber d)) r0 js0 env
     = (napi_ok, Some (JSNumber d))
     <-> exists z, is_int64 z /\ d = double_of_Z z) /\
  (forall d r0,
     back_and_there Converter_double (Some (JSNumber d)) r0 js0 env
     = (napi_ok, Some (JSNumber d))) /\
  (forall d r0,
     back_and_there Converter_unsigned_long (Some (JSNumber d)) r0 js0 env
     = (napi_ok, Some (JSNumber d))
     <-> exists z, is_int64 z /\ d = double_of_Z z) /\
  (forall v r0, back_and_there Converter_object v r0 js0 env = (napi_ok, v)) /\
  (forall s r0,
     back_and_there Converter_DOMString (Some (JSString s)) r0 js0 env
     = (napi_ok, Some (JSString s))
     <-> well_formed s = true /\ c_str s = s) /\
  (forall s result, exists size buffer,
     napi_get_value_string_utf8_length (Some (JSString s)) env = Ok size env /\
     size = String.length (to_utf8 s) /\
     buffer = resize (size + 1) result /\
     String.length buffer = (size + 1)%nat /\
     DOMString_ToNative (Some (JSString s)) result env
     = return_call
         (match napi_get_value_string_utf8 (Some (JSString s)) buffer (size + 1) env with
          | Ok written env' => Ok written.1 env'
          | Fail st env' => Fail st env'
          end) buffer).
Proof.
  repeat match goal with |- _ /\ _ => split end.
  - intros; by apply uint32_there_and_back.
  - intros; by apply int32_there_and_back.
  - intros; by apply int64_there_and_back.
  - intros; apply double_there_and_back.
  - intros; by apply unsigned_long_there_and_back.
  - intros; apply object_there_and_back.
  - intros x r0. eexists. split; [apply DOMString_there_and_back|].
    destruct (DOMString_trip x) as (_ & -> & Hiff). exact Hiff.
  - intros; apply uint32_back_and_there.
  - intros; apply int32_back_and_there.
  - intros; apply int64_back_and_there.
  - intros; apply double_back_and_there.
  - intros; apply unsigned_long_back_and_there.
  - intros; apply object_back_and_there.
  - intros; apply DOMString_back_and_there.
  - intros; apply DOMString_ToNative_steps.
Qed.

Lemma primitive_round_trips_witness :
  there_and_back Converter_uint32_t 4294967295 None 0 empty_env = (napi_ok, 4294967295).
Proof.
  apply (proj1 (primitive_round_trips None empty_env)).
  unfold is_uint32. lia.
Defined.

(** The round-trip law as stated fails.  Native to script and back:
    2^53 + 1 comes back from the [int64_t] and [unsigned long] codecs as
    2^53; the string "a" comes back from the [DOMString] codec one
    character longer; the bytes FF 41 come back reading EF BF BD 41.
    Script to native and back: the number 1.5 comes back from the
    [uint32_t] codec as 1, the number -0 from the [int32_t] codec as +0,
    and the string that is a lone surrogate as U+FFFD. *)
Lemma primitive_round_trips_counterexample :
  (is_int64 (2 ^ 53 + 1) /\
   there_and_back Converter_int64_t (2 ^ 53 + 1) None 0 empty_env = (napi_ok, 2 ^ 53) /\
   there_and_back Converter_int64_t (2 ^ 53 + 1) None 0 empty_env
   <> (napi_ok, 2 ^ 53 + 1)) /\
  (is_unsigned_long (2 ^ 53 + 1) /\
   there_and_back Converter_unsigned_long (2 ^ 53 + 1) None 0 empty_env
   <> (napi_ok, 2 ^ 53 + 1)) /\
  there_and_back Converter_DOMString "a"%string None EmptyString empty_env
  <> (napi_ok, "a"%string) /\
  (exists y,
     there_and_back Converter_DOMString stray_byte None EmptyString empty_env
     = (napi_ok, y) /\
     c_str y = (REPLACEMENT ++ "A")%string /\ c_str y <> c_str stray_byte) /\
  back_and_there Converter_uint32_t (Some (JSNumber one_and_a_half)) 0 None empty_env
  <> (napi_ok, Some (JSNumber one_and_a_half)) /\
  (back_and_there Converter_int32_t (Some (JSNumber minus_zero)) 0 None empty_env
   = (napi_ok, Some (JSNumber (S754_zero false))) /\
   back_and_there Converter_int32_t (Some (JSNumber minus_zero)) 0 None empty_env
   <> (napi_ok, Some (JSNumber minus_zero))) /\
  (back_and_there Converter_DOMString (Some (JSString lone_surrogate)) EmptyString None
     empty_env = (napi_ok, Some (JSString REPLACEMENT)) /\
   back_and_there Converter_DOMString (Some (JSString lone_surrogate)) EmptyString None
     empty_env <> (napi_ok, Some (JSString lone_surrogate))).
Proof.
  split; [repeat split; vm_compute; congruence|].
  split; [repeat split; vm_compute; congruence|].
  split; [vm_compute; congruence|].
  split; [eexists; repeat split; vm_compute; congruence|].
  repeat split; vm_compute; congruence.
Qed.

End ConversionFacts.

(** ** Container codecs *)

Module ContainersFacts.
Import Napi Conversion Containers.


Lemma extends_refl env : extends env env.
Proof. unfold extends. reflexivity. Qed.





Lemma fresh_events_refl b env : fresh_events b env env.
Proof. exists []. split; [by rewrite app_nil_r|done]. Qed.

Lemma fresh_events_weaken b0 b env env' :
  (b0 <= b)%nat -> fresh_events b env env' -> fresh_events b0 env env'.
Proof. intros Hle (evs & Hj & Hfresh). exists evs. split; [exact Hj|]. intros a Ha. apply Hfresh. lia. Qed.


Section Array.
Context {T : Type}.
Variable C : Converter T.
Variable T_default : T.








Lemma converts_back_weaken x v b0 b envA :
  (b0 <= b)%nat -> converts_back C x v b envA -> converts_back C x v b0 envA.
Proof.
  intros Hle Hback env2 r0 Hq Hagree.
  destruct (Hback env2 r0 Hq) as (env3 & H1 & H2 & H3 & H4 & H5).
  - intros i Hi. apply Hagree. lia.
  - exists env3. repeat split; try done. by eapply fresh_events_weaken.
Qed.








Lemma napi_set_element_heap_length object idx v env :
  length (heap (match napi_set_element object idx v env with
                | Ok _ env' | Fail _ env' => env'
                end)) = length (heap env).
Proof.
  unfold napi_set_element, preamble.
  repeat (case_match; simplify_eq/=); try reflexivity. by rewrite length_insert.
Qed.

Lemma ArrayToJS_for_heap_length (items : list T) : forall idx res env,
  (forall x r e, (length (heap e) <= length (heap (env_of (ToJS C x r e))))%nat) ->
  (length (heap env) <= length (heap (env_of (ArrayToJS_for C items idx res env))))%nat.
Proof.
  induction items as [|x items IH]; intros idx res env Hmono; simpl; [lia|].
  pose proof (Hmono x None env) as H1.
  destruct (ToJS C x None env) as [[s member] env1]. unfold env_of in *. simpl in *.
  pose proof (napi_set_element_heap_length res idx member env1) as H2.
  destruct s; simpl; try lia.
  destruct (napi_set_element res idx member env1) as [u env2|s2 env2]; simpl; [|lia].
  pose proof (IH (idx + 1) res env2 Hmono). lia.
Qed.

(** The sequence codec mints: it returns the array it has just created. *)
Lemma mints_sequence (freeze : bool) :
  (forall x r e, (length (heap e) <= length (heap (env_of (ToJS C x r e))))%nat) ->
  mints {| ToNative := ArrayToNative C T_default; ToJS := ArrayToJS C freeze |}.
Proof.
  intros Hmono ar r env b env'. simpl. unfold ArrayToJS.
  unfold napi_open_escapable_handle_scope, napi_create_array, alloc.
  cbn [status_call].
  set (env_a := set_heap _ _).
  pose proof (ArrayToJS_for_heap_length ar 0 (Some (JSObject (length (heap env)))) env_a
                Hmono) as Hlen.
  change (length (heap (set_scopes (scopes env ++ [EscapableScope false]) env)))
    with (length (heap env)).
  destruct (ArrayToJS_for C ar 0 (Some (JSObject (length (heap env)))) env_a)
    as [[s u] env_l]. unfold env_of in Hlen. simpl in Hlen.
  subst env_a. simpl in Hlen. rewrite length_app in Hlen. simpl in Hlen.
  unfold napi_escape_handle, napi_close_escapable_handle_scope, napi_close_handle_scope.
  intros H. destruct s; simpl in H; try discriminate.
  repeat (case_match; simplify_eq/=); lia.
Qed.
End Array.

(** A codec that neither reads nor changes the environment takes [x] to
    [y] and back as soon as its two functions do. *)
Lemma trips_pure {T} (C : Converter T) (x y : T) (v : js_value) :
  (forall r env, ToJS C x r env = (napi_ok, Some v, env)) ->
  (forall r0 env, ToNative C (Some v) r0 env = (napi_ok, y, env)) ->
  trips C x y.
Proof.
  intros Hjs Hnat env r Hq. exists v, env.
  split; [apply Hjs|]. split; [apply extends_refl|]. split; [reflexivity|].
  split; [exact Hq|]. split; [apply fresh_events_refl|].
  intros env2 r0 Hq2 _. exists env2.
  split; [apply Hnat|]. split; [apply extends_refl|]. split; [reflexivity|].
  split; [exact Hq2|apply fresh_events_refl].
Qed.


(** A 64-bit integer comes back as the integer nearest to it among the
    doubles, a string as its C string decoded as UTF-8 and followed by the
    terminator. *)
Lemma trips_int64 (x : Z) :
  trips Converter_int64_t x
    (default 0 (Z.max INT64_MIN <$> (Z.min INT64_MAX <$> double_trunc (double_of_Z x)))).
Proof.
  apply trips_pure with (v := JSNumber (double_of_Z x)); [reflexivity|].
  intros r0 env. simpl. by destruct (double_trunc (double_of_Z x)).
Qed.

Lemma trips_DOMString (x : DOMString) :
  trips Converter_DOMString x (from_utf8 (c_str x) ++ String NUL EmptyString)%string.
Proof.
  apply trips_pure with (v := JSString (from_utf8 (c_str x))); [reflexivity|].
  intros r0 env. simpl. rewrite ConversionFacts.DOMString_ToNative_string.
  by rewrite (proj1 (ConversionFacts.DOMString_trip x)).
Qed.



(** C9 (what the code does).  A failing container conversion returns a
    status other than [napi_ok] and leaves the caller's output as it was,
    but the handle scope it opened stays open.  Whenever the length query
    of [ArrayToNative] fails (the value is not an array), its status is
    returned with the new scope still on the stack; converting the script
    array [["x"]] to a sequence of numbers returns [napi_number_expected]
    with one scope more open than before, and converting a sequence to a
    script array while an exception is pending returns
    [napi_pending_exception], again with one scope more open. *)
Theorem failure_leaves_scope_open :
  (forall T (C : Converter T) freeze ar result env,
     status_of (ArrayToJS C freeze ar result env) <> napi_ok ->
     output_of (ArrayToJS C freeze ar result env) = result) /\
  (forall T (C : Converter T) d ar result env,
     status_of (ArrayToNative C d ar result env) <> napi_ok ->
     output_of (ArrayToNative C d ar result env) = result) /\
  (forall T (C : Converter T) d ar result env s,
     napi_get_array_length ar env = Fail s env ->
     ArrayToNative C d ar result env
     = (s, result, set_scopes (scopes env ++ [PlainScope]) env)) /\
  (exists env',
     ArrayToNative Converter_uint32_t 0 (Some (JSObject 0)) [7] text_array_env
     = (napi_number_expected, [7], env') /\
     open_handle_scopes text_array_env = 0%nat /\
     open_handle_scopes env' = 1%nat) /\
  (exists env',
     ArrayToJS Converter_uint32_t false [7] (Some JSNull) throwing_env
     = (napi_pending_exception, Some JSNull, env') /\
     open_handle_scopes throwing_env = 0%nat /\
     open_handle_scopes env' = 1%nat).
Proof.
  split; [|split; [|split; [|split]]].
  - intros T C freeze ar result env.
    unfold ArrayToJS, status_call, status_call_fn, status_of, output_of.
    repeat (case_match; simplify_eq/=); congruence.
  - intros T C d ar result env.
    unfold ArrayToNative, status_call, status_call_fn, status_of, output_of.
    repeat (case_match; simplify_eq/=); congruence.
  - intros T C d ar result env s Hlen.
    unfold ArrayToNative, napi_open_handle_scope. cbn [status_call].
    assert (Hs : napi_get_array_length ar
                   (set_scopes (scopes env ++ [PlainScope]) env)
                 = Fail s (set_scopes (scopes env ++ [PlainScope]) env)).
    { unfold napi_get_array_length in *. simpl.
      repeat (case_match; simplify_eq/=); reflexivity. }
    by rewrite Hs.
  - eexists. split; [vm_compute; reflexivity|]. split; reflexivity.
  - eexists. split; [vm_compute; reflexivity|]. split; reflexivity.
Qed.

Lemma failure_leaves_scope_open_witness :
  ArrayToNative Converter_uint32_t 0 (Some (JSNumber one_and_a_half)) [7] empty_env
  = (napi_array_expected, [7], set_scopes [PlainScope] empty_env).
Proof.
  apply (proj1 (proj2 (proj2 failure_leaves_scope_open))). reflexivity.
Defined.

End ContainersFacts.

(** ** Overload resolution and the construct-call guard *)

Module DispatchFacts.
Import Napi Conversion Dispatch.

Lemma napi_valuetype_eqb_eq a b : napi_valuetype_eqb a b = true <-> a = b.
Proof. destruct a, b; simpl; split; congruence. Qed.

Lemma napi_typeof_env arg env t env' : napi_typeof arg env = Ok t env' -> env' = env.
Proof.
  unfold napi_typeof. intros H.
  repeat match type of H with
         | match ?x with _ => _ end = _ => destruct x
         end; congruence.
Qed.

Lemma sig_PickSignature_mark idx t s : sig (PickSignature_mark idx t s) = sig s.
Proof.
  unfold PickSignature_mark.
  destruct (candidate s); [|reflexivity].
  destruct (sig s !! idx) as [e|]; [|reflexivity].
  destruct (napi_valuetype_eqb e t); reflexivity.
Qed.

Lemma candidate_PickSignature_mark idx t s :
  candidate (PickSignature_mark idx t s) = true <->
  candidate s = true /\ sig s !! idx = Some t.
Proof.
  unfold PickSignature_mark.
  destruct (candidate s) eqn:Hc; [|simpl; rewrite Hc; intuition congruence].
  destruct (sig s !! idx) as [e|] eqn:He; [|simpl; intuition congruence].
  destruct (napi_valuetype_eqb e t) eqn:Heq.
  - apply napi_valuetype_eqb_eq in Heq. subst. rewrite Hc. tauto.
  - simpl. split; [congruence|]. intros [_ H]. injection H as ->.
    assert (napi_valuetype_eqb t t = true) by (by apply napi_valuetype_eqb_eq).
    congruence.
Qed.

Lemma sig_PickSignature_marks types : forall idx s,
  sig (PickSignature_marks idx types s) = sig s.
Proof.
  induction types as [|t types IH]; intros idx s; simpl; [reflexivity|].
  rewrite IH. apply sig_PickSignature_mark.
Qed.

Lemma candidate_PickSignature_marks types : forall idx s,
  candidate (PickSignature_marks idx types s) = true <->
  candidate s = true /\ forall i t, types !! i = Some t -> sig s !! (idx + i)%nat = Some t.
Proof.
  induction types as [|t0 types IH]; intros idx s; simpl.
  - split; [|tauto]. intros H. split; [exact H|]. intros i t Hi. discriminate.
  - rewrite IH, candidate_PickSignature_mark, sig_PickSignature_mark. split.
    + intros [[Hc H0] Hrest]. split; [exact Hc|]. intros [|i] t Hi; simpl in Hi.
      * injection Hi as <-. rewrite Nat.add_0_r. exact H0.
      * rewrite <- Nat.add_succ_comm. by apply Hrest.
    + intros [Hc H]. repeat split; [exact Hc| |].
      * rewrite <- (Nat.add_0_r idx). by apply H.
      * intros i t Hi. rewrite Nat.add_succ_comm. by apply H.
Qed.

Lemma candidate_PickSignature_marks_false types : forall idx s,
  candidate (PickSignature_marks idx types s) = false ->
  candidate s = false \/
  exists k t, types !! k = Some t /\ sig s !! (idx + k)%nat <> Some t.
Proof.
  induction types as [|t0 types IH]; intros idx s; simpl; [by left|].
  intros H. apply IH in H. rewrite sig_PickSignature_mark in H.
  destruct H as [H|(k & t & Hk & Hne)].
  - destruct (candidate s) eqn:Hc; [right|by left].
    exists 0%nat, t0. split; [reflexivity|]. rewrite Nat.add_0_r. intros Heq.
    assert (candidate (PickSignature_mark idx t0 s) = true)
      by (apply candidate_PickSignature_mark; by split).
    congruence.
  - right. exists (S k), t. split; [exact Hk|]. by rewrite <- Nat.add_succ_comm.
Qed.

(** The first loop with every type query succeeding: the environment is
    untouched and every signature has received the marks of all the
    argument positions. *)
Lemma PickSignature_scan_marks argv : forall idx sigs env types,
  typeof_all argv env = Some types ->
  PickSignature_scan idx argv sigs env
  = (napi_ok, List.map (PickSignature_marks idx types) sigs, env).
Proof.
  induction argv as [|arg argv IH]; intros idx sigs env types Hty.
  - injection Hty as <-. simpl. by rewrite List.map_id.
  - unfold typeof_all in Hty. simpl in Hty.
    destruct (napi_typeof arg env) as [t env'|] eqn:Harg; [|discriminate].
    pose proof (napi_typeof_env _ _ _ _ Harg) as ->.
    simpl in Hty. fold (typeof_all argv env) in Hty.
    destruct (typeof_all argv env) as [rest|] eqn:Hrest; [|discriminate].
    injection Hty as <-. simpl. rewrite Harg. simpl.
    rewrite (IH _ _ _ _ Hrest), List.map_map. reflexivity.
Qed.

(** The second loop: the first candidate from [idx] on, in declaration
    order, or the old content of [sig_idx]. *)
Lemma PickSignature_first_spec sigs : forall idx sig_idx,
  (exists i s, sigs !! i = Some s /\ candidate s = true /\
     (forall j s', (j < i)%nat -> sigs !! j = Some s' -> candidate s' = false) /\
     PickSignature_first idx sigs sig_idx = idx + Z.of_nat i) \/
  ((forall j s', sigs !! j = Some s' -> candidate s' = false) /\
   PickSignature_first idx sigs sig_idx = sig_idx).
Proof.
  induction sigs as [|s sigs IH]; intros idx sig_idx; simpl.
  - right. split; [|reflexivity]. intros j s' H. discriminate.
  - destruct (candidate s) eqn:Hc.
    + left. exists 0%nat, s. repeat split; [exact Hc| |lia]. intros j s' Hj. lia.
    + destruct (IH (idx + 1) sig_idx) as [(i & s1 & Hi & Hc1 & Hbefore & Heq)|[Hnone Heq]].
      * left. exists (S i), s1. repeat split; [exact Hi|exact Hc1| |lia].
        intros [|j] s' Hj Hs'; simpl in Hs'; [congruence|].
        apply (Hbefore j); [lia|exact Hs'].
      * right. split; [|exact Heq]. intros [|j] s' Hs'; simpl in Hs'; [congruence|].
        by apply (Hnone j).
Qed.

(** A failing type query is returned at once and [sig_idx] keeps its
    value. *)
Lemma PickSignature_failure argv sigs sig_idx env :
  status_of (PickSignature argv sigs sig_idx env) <> napi_ok ->
  output_of (PickSignature argv sigs sig_idx env) = sig_idx.
Proof.
  unfold PickSignature, status_call_fn, status_of, output_of.
  destruct (PickSignature_scan 0 argv sigs env) as [[s marked] env'].
  destruct s; simpl; congruence.
Qed.

(** C2.  When the type tag of every argument can be queried,
    [PickSignature] leaves a signature marked as a candidate exactly when
    it was one on entry and has, at every argument position, a parameter
    whose tag equals the argument's; it then stores the index of the first
    signature in declaration order that is still a candidate, and leaves
    [sig_idx] as it was when there is none.  With the signatures
    [[number], [string], [number, string]], the arguments [number] select
    0, [number, string] select 2, [boolean] leave the sentinel -1, and of
    two equal signatures the first is selected. *)
Theorem PickSignature_selects (argv : list napi_value) (sigs : list webidl_sig)
    (sig_idx : Z) (env : napi_env) (types : list napi_valuetype) :
  typeof_all argv env = Some types ->
  exists marked,
    PickSignature_scan 0 argv sigs env = (napi_ok, marked, env) /\
    length marked = length sigs /\
    (forall i s m, sigs !! i = Some s -> marked !! i = Some m ->
       sig m = sig s /\
       (candidate m = false <->
        candidate s = false \/
        exists k t, types !! k = Some t /\ sig s !! k <> Some t)) /\
    PickSignature argv sigs sig_idx env
    = (napi_ok, PickSignature_first 0 marked sig_idx, env) /\
    ((exists i m, marked !! i = Some m /\ candidate m = true /\
        (forall j m', (j < i)%nat -> marked !! j = Some m' -> candidate m' = false) /\
        PickSignature_first 0 marked sig_idx = Z.of_nat i) \/
     ((forall j m', marked !! j = Some m' -> candidate m' = false) /\
      PickSignature_first 0 marked sig_idx = sig_idx)) /\
    (let sigs3 := declared [[napi_number]; [napi_string]; [napi_number; napi_string]] in
     output_of (PickSignature [number] sigs3 (-1) env) = 0 /\
     output_of (PickSignature [number; text] sigs3 (-1) env) = 2 /\
     output_of (PickSignature [boolean] sigs3 (-1) env) = -1 /\
     output_of (PickSignature [number] (declared [[napi_number]; [napi_number]]) (-1) env)
     = 0).
Proof.
  intros Hty. exists (List.map (PickSignature_marks 0 types) sigs).
  pose proof (PickSignature_scan_marks argv 0 sigs env types Hty) as Hscan.
  split; [exact Hscan|]. split; [by rewrite length_map|]. split; [|split; [|split]].
  - intros i s m Hs Hm.
    change (List.map (PickSignature_marks 0 types) sigs)
      with (PickSignature_marks 0 types <$> sigs) in Hm.
    rewrite list_lookup_fmap, Hs in Hm. injection Hm as <-.
    split; [apply sig_PickSignature_marks|].
    split.
    + intros Hfalse.
      destruct (candidate_PickSignature_marks_false types 0 s Hfalse) as [Hc|Hk];
        [by left|by right].
    + intros Hcases.
      destruct (candidate (PickSignature_marks 0 types s)) eqn:Hm; [|reflexivity].
      pose proof (proj1 (candidate_PickSignature_marks types 0 s) Hm) as [Hc Hall].
      destruct Hcases as [Hfalse|(k & t & Hk & Hne)]; [congruence|].
      exfalso. apply Hne. by apply (Hall k).
  - unfold PickSignature. rewrite Hscan. reflexivity.
  - destruct (PickSignature_first_spec (List.map (PickSignature_marks 0 types) sigs)
                0 sig_idx) as [(i & m & H1 & H2 & H3 & H4)|[H1 H2]].
    + left. exists i, m. repeat split; assumption.
    + right. by split.
  - repeat split.
Qed.

Lemma PickSignature_selects_witness :
  exists marked,
    PickSignature_scan 0 [number; text]
      (declared [[napi_number]; [napi_string]; [napi_number; napi_string]]) empty_env
    = (napi_ok, marked, empty_env).
Proof.
  destruct (PickSignature_selects [number; text]
              (declared [[napi_number]; [napi_string]; [napi_number; napi_string]])
              (-1) empty_env [napi_number; napi_string] eq_refl) as (marked & H & _).
  exists marked. exact H.
Defined.

Lemma napi_throw_error_quiet msg env :
  last_exception env = None ->
  napi_throw_error msg env
  = Ok tt (set_last_exception (Some (JSObject (length (heap env))))
             (set_heap (heap env ++ [{| kind := KError msg; elems := []; wrapped := None |}])
                env)).
Proof. intros H. unfold napi_throw_error, preamble. rewrite H. reflexivity. Qed.

Lemma napi_throw_error_pending msg env :
  napi_is_exception_pending env = true ->
  napi_throw_error msg env = Fail napi_pending_exception env.
Proof.
  unfold napi_is_exception_pending, napi_throw_error, preamble.
  destruct (last_exception env); [reflexivity|discriminate].
Qed.

(** C8.  Called without a new-target, [IsConstructCall] leaves an
    exception pending and never reports success together with [true];
    when no exception was pending on entry it throws an error whose
    message names the interface, stores [false] and returns [napi_ok].
    Called with a new-target it stores [true], returns [napi_ok] and
    leaves the environment as it was. *)
Theorem IsConstructCall_guards (info : napi_callback_info) (ifname : string)
    (result : bool) (env : napi_env) :
  (cb_new_target info = None ->
     napi_is_exception_pending (env_of (IsConstructCall info ifname result env)) = true /\
     (status_of (IsConstructCall info ifname result env) = napi_ok ->
      output_of (IsConstructCall info ifname result env) = false) /\
     (last_exception env = None ->
      exists a env',
        IsConstructCall info ifname result env = (napi_ok, false, env') /\
        last_exception env' = Some (JSObject a) /\
        kind <$> heap env' !! a
        = Some (KError ("Non-construct calls to the `" ++ ifname
                        ++ "` constructor are not supported.")%string))) /\
  (forall target, cb_new_target info = Some target ->
     IsConstructCall info ifname result env = (napi_ok, true, env)).
Proof.
  split.
  - intros Hnew. unfold IsConstructCall, napi_get_new_target. simpl. rewrite Hnew.
    destruct (last_exception env) as [pending|] eqn:Hexc.
    + rewrite napi_throw_error_pending
        by (unfold napi_is_exception_pending; by rewrite Hexc).
      simpl. unfold napi_is_exception_pending. rewrite Hexc.
      repeat split; discriminate.
    + rewrite napi_throw_error_quiet by assumption. simpl.
      repeat split. intros _. eexists _, _. split; [reflexivity|]. simpl.
      split; [reflexivity|].
      rewrite lookup_app_r by lia. rewrite Nat.sub_diag. reflexivity.
  - intros target Hnew. unfold IsConstructCall, napi_get_new_target. simpl.
    rewrite Hnew. reflexivity.
Qed.

Lemma IsConstructCall_guards_witness :
  exists a env',
    IsConstructCall
      {| cb_this := Some JSUndefined; cb_args := []; cb_new_target := None;
         cb_data := None |} "Interface" true empty_env
    = (napi_ok, false, env') /\
    last_exception env' = Some (JSObject a) /\
    kind <$> heap env' !! a
    = Some (KError ("Non-construct calls to the `" ++ "Interface"
                    ++ "` constructor are not supported.")%string).
Proof.
  apply (proj1 (IsConstructCall_guards
                  {| cb_this := Some JSUndefined; cb_args := []; cb_new_target := None;
                     cb_data := None |} "Interface" true empty_env));
    reflexivity.
Defined.

End DispatchFacts.

(** ** The promise bridge *)

Module PromiseFacts.
Import Napi Conversion Promise.

Section Promise.
Context {T : Type}.
Variable C : Converter T.

Lemma state_Conclude_env candidate (p : Promise) world :
  state (output_of (Conclude_env C candidate p world)) = state p.
Proof.
  unfold Conclude_env, output_of, status_call_fn, status_call.
  repeat (case_match; simplify_eq/=); done.
Qed.

Lemma state_Conclude (p : Promise) world : state (Conclude C p world).1 = state p.
Proof.
  unfold Conclude. destruct (env p); [|reflexivity].
  pose proof (state_Conclude_env true p world) as H. unfold output_of in H.
  destruct (Conclude_env C true p world) as [[s p'] world']. simpl in H.
  destruct s; exact H.
Qed.

Lemma Resolve_settled result (p : Promise) world :
  state p <> kPending -> Resolve C result p world = (p, world).
Proof. intros H. unfold Resolve. destruct (state p); [congruence|reflexivity..]. Qed.

Lemma Reject_settled (p : Promise) world :
  state p <> kPending -> Reject C p world = (p, world).
Proof. intros H. unfold Reject. destruct (state p); [congruence|reflexivity..]. Qed.

Lemma perform_settled c (s : Promise * napi_env) :
  state s.1 <> kPending -> perform C c s = s.
Proof.
  intros H. destruct s as [p world], c as [result|]; simpl in *.
  - by apply Resolve_settled.
  - by apply Reject_settled.
Qed.

Lemma perform_all_settled cs (s : Promise * napi_env) :
  state s.1 <> kPending -> perform_all C cs s = s.
Proof.
  induction cs as [|c cs IH]; intros H; [reflexivity|].
  unfold perform_all in *. simpl. rewrite perform_settled by exact H. by apply IH.
Qed.

(** Whatever the state before, the promise is settled after a call. *)
Lemma perform_settles c (s : Promise * napi_env) : state (perform C c s).1 <> kPending.
Proof.
  destruct s as [p world]. destruct (State_eqb (state p) kPending) eqn:Hp.
  - destruct c as [result|]; simpl; unfold Resolve, Reject; rewrite Hp; simpl;
      rewrite state_Conclude; simpl; discriminate.
  - assert (state p <> kPending) as Hne by (destruct (state p); simpl in Hp; congruence).
    rewrite perform_settled by exact Hne. exact Hne.
Qed.

(** C5.  A [Resolve] or [Reject] on a promise that is not pending
    returns the promise (state, payload, environment pointer, deferred
    and future handles) and the environment unchanged; after any first
    call the promise is settled, so a sequence of calls leaves exactly
    what its first call left. *)
Theorem settled_is_terminal (c : call) (cs : list call) (p : Promise)
    (world : napi_env) :
  (state p <> kPending ->
     (forall result, Resolve C result p world = (p, world)) /\
     Reject C p world = (p, world)) /\
  state (perform C c (p, world)).1 <> kPending /\
  perform_all C (c :: cs) (p, world) = perform C c (p, world).
Proof.
  split; [|split].
  - intros H. split; [intros result; by apply Resolve_settled|by apply Reject_settled].
  - apply perform_settles.
  - unfold perform_all. simpl. apply perform_all_settled, perform_settles.
Qed.
End Promise.

Lemma settled_is_terminal_witness :
  let settled := (perform Converter_uint32_t CallReject (pending_promise, empty_env)).1 in
  (forall result, Resolve Converter_uint32_t result settled empty_env = (settled, empty_env))
  /\ Reject Converter_uint32_t settled empty_env = (settled, empty_env).
Proof.
  intros settled.
  apply (proj1 (settled_is_terminal Converter_uint32_t CallReject [] settled empty_env)).
  vm_compute. discriminate.
Defined.

End PromiseFacts.

(** ** Wrapping records: retrieval and destruction *)

Module WrappingFacts.
Import Napi Conversion Wrapping.

Section Wrapping.
Context {T FieldType : Type}.
Variable C : Converter FieldType.
Variable FieldName : T -> FieldType.

Abbreviation store := (@store T).

(** [Retrieve] when the guard of the lookup is false. *)
Lemma Retrieve_skips (js_rcv : napi_value) (data : pointer)
    (wrapping : Wrapping) (out : Retrieve_out) (env : napi_env) (mem : store)
    (ref_idx : Z) :
  wrapped_instance js_rcv data wrapping env mem ->
  ref_idx < 0 \/ Z.of_nat (length (refs wrapping)) <= ref_idx \/
    refs wrapping !! Z.to_nat ref_idx = Some None ->
  Retrieve js_rcv ref_idx out env mem
  = Some (napi_ok,
          {| cc_rcv := native wrapping;
             ref := ref out;
             get_wrapping := match get_wrapping out with
                             | Some _ => Some data
                             | None => None
                             end |},
          env).
Proof.
  intros [Hunwrap Hderef] Hidx. unfold Retrieve. rewrite Hunwrap, Hderef.
  destruct (Z.leb_spec 0 ref_idx) as [Hnonneg|Hneg]; simpl; [|reflexivity].
  destruct (Z.ltb_spec ref_idx (Z.of_nat (length (refs wrapping)))) as [Hlt|Hge];
    simpl; [|reflexivity].
  destruct Hidx as [Hidx|[Hidx|Hidx]]; [lia|lia|].
  rewrite Hidx. reflexivity.
Qed.

(** [Retrieve] never reads outside the slot vector. *)
Lemma Retrieve_defined (js_rcv : napi_value) (data : pointer)
    (wrapping : Wrapping) (out : Retrieve_out) (env : napi_env) (mem : store)
    (ref_idx : Z) :
  wrapped_instance js_rcv data wrapping env mem ->
  is_Some (Retrieve js_rcv ref_idx out env mem).
Proof.
  intros [Hunwrap Hderef]. unfold Retrieve, Retrieve_finish. rewrite Hunwrap, Hderef.
  destruct (Z.leb_spec 0 ref_idx) as [Hnonneg|Hneg]; cbn [negb]; [|by eexists].
  destruct (Z.ltb_spec ref_idx (Z.of_nat (length (refs wrapping)))) as [Hlt|Hge];
    cbn [negb]; [|by eexists].
  destruct (refs wrapping !! Z.to_nat ref_idx) as [slot|] eqn:Hslot.
  - destruct slot as [r|]; [|by eexists].
    destruct (napi_get_reference_value (Some r) env); by eexists.
  - apply lookup_ge_None_1 in Hslot. unfold napi_ref in *. lia.
Qed.

(** C10.  On a wrapped instance, [Retrieve] is defined for every slot
    index: it never reads outside the slot vector.  With an index that is
    negative, not below the number of slots, or that designates an empty
    slot, it returns [napi_ok], stores the native pointer (and the record
    pointer when asked for), leaves [ref] as it was and does not touch the
    environment: no reference is looked up. *)
Theorem Retrieve_without_lookup (js_rcv : napi_value) (data : pointer)
    (wrapping : Wrapping) (out : Retrieve_out) (env : napi_env) (mem : store)
    (ref_idx : Z) :
  wrapped_instance js_rcv data wrapping env mem ->
  is_Some (Retrieve js_rcv ref_idx out env mem) /\
  (ref_idx < 0 \/ Z.of_nat (length (refs wrapping)) <= ref_idx \/
     refs wrapping !! Z.to_nat ref_idx = Some None ->
   Retrieve js_rcv ref_idx out env mem
   = Some (napi_ok,
           {| cc_rcv := native wrapping;
              ref := ref out;
              get_wrapping := match get_wrapping out with
                              | Some _ => Some data
                              | None => None
                              end |},
           env)).
Proof.
  intros Hinst. split; [by eapply Retrieve_defined|by apply Retrieve_skips].
Qed.

Lemma journal_released rs : forall env,
  journal (released rs env) = journal env ++ (DeleteReference <$> rs).
Proof.
  induction rs as [|r rs IH]; intros env.
  - simpl. by rewrite app_nil_r.
  - change (released (r :: rs) env) with (released rs (release r env)).
    rewrite IH. simpl. by rewrite <- app_assoc.
Qed.

Lemma live_reference_released rs : forall env r,
  live_reference (Some r) (released rs env)
  = if decide (r ∈ rs) then None else live_reference (Some r) env.
Proof.
  induction rs as [|r0 rs IH]; intros env r.
  - reflexivity.
  - change (released (r0 :: rs) env) with (released rs (release r0 env)).
    rewrite IH. destruct (decide (r ∈ rs)) as [Hin|Hnin].
    + rewrite decide_True by (right; exact Hin). reflexivity.
    + simpl. destruct (decide (r = r0)) as [->|Hne].
      * rewrite decide_True by left.
        destruct (decide (r0 < length (references env))%nat).
        -- by rewrite list_lookup_insert_eq.
        -- rewrite list_insert_ge by lia. rewrite lookup_ge_None_2 by lia. done.
      * rewrite decide_False by (intros Hin; apply elem_of_cons in Hin; tauto).
        by rewrite list_lookup_insert_ne.
Qed.

Lemma Destroy_for_released l : forall env,
  NoDup (held l) ->
  (forall r, r ∈ held l -> is_Some (live_reference (Some r) env)) ->
  Destroy_for l env = (napi_ok, tt, released (held l) env).
Proof.
  induction l as [|[r|] l IH]; intros env Hdup Hlive; simpl.
  - reflexivity.
  - unfold held in Hdup, Hlive. simpl in Hdup, Hlive.
    apply NoDup_cons in Hdup as [Hnotin Hdup].
    destruct (Hlive r) as [v Hv]; [left|].
    unfold napi_delete_reference. rewrite Hv.
    change (released (r :: omap id l) env) with (released (held l) (release r env)).
    rewrite <- IH; [reflexivity|exact Hdup|].
    intros r' Hr'. simpl.
    rewrite list_lookup_insert_ne by (intros ->; contradiction).
    apply Hlive. by right.
  - by apply IH.
Qed.

(** [InstanceGetter], [SetRef] and [Create] never delete a native
    object. *)
Lemma objects_SetRef this idx same_obj env (mem : store) s env' mem' :
  SetRef this idx same_obj env mem = Some (s, env', mem') -> objects mem' = objects mem.
Proof.
  unfold SetRef. intros H.
  repeat (case_match; simplify_eq/=); reflexivity.
Qed.

Lemma objects_Create js_rcv cc same_obj_count env (mem : store) :
  objects (Create js_rcv cc same_obj_count env mem).2 = objects mem.
Proof. unfold Create. by destruct (napi_wrap _ _ _). Qed.

Lemma objects_InstanceGetter_convert sameIdx receiver wrapping result env (mem : store)
    v env' mem' :
  InstanceGetter_convert C FieldName sameIdx receiver wrapping result env mem
  = Some (v, env', mem') ->
  objects mem' = objects mem.
Proof.
  unfold InstanceGetter_convert, NAPI_CALL. intros H.
  repeat (case_match; simplify_eq/=); try reflexivity;
    match goal with
    | H : SetRef _ _ _ _ _ = Some _ |- _ => by apply objects_SetRef in H
    end.
Qed.

Lemma objects_InstanceGetter sameIdx info env (mem : store) v env' mem' :
  InstanceGetter C FieldName sameIdx info env mem = Some (v, env', mem') ->
  objects mem' = objects mem.
Proof.
  unfold InstanceGetter, NAPI_CALL, return_call, napi_get_cb_info. simpl. intros H.
  repeat (case_match; simplify_eq/=); try reflexivity;
    match goal with
    | H : InstanceGetter_convert _ _ _ _ _ _ _ _ = Some _ |- _ =>
        by apply objects_InstanceGetter_convert in H
    end.
Qed.

(** C6.  [Destroy] on a live record whose slots hold distinct live
    references and whose native object is live: the journal gains the
    release of every non-empty slot, in slot order, then the deletion of
    the native object, then the deletion of the record, each once; the
    references, the object and the record are gone afterwards.  No other
    function of [Wrapping<T>] deletes a native object. *)
Theorem Destroy_releases_then_deletes (w a : nat) (wrapping : Wrapping)
    (env : napi_env) (mem : store) :
  deref (Some w) (wrappings mem) = Some wrapping ->
  native wrapping = Some a ->
  is_Some (deref (Some a) (objects mem)) ->
  NoDup (held (refs wrapping)) ->
  (forall r, r ∈ held (refs wrapping) -> is_Some (live_reference (Some r) env)) ->
  (exists env' mem',
     Destroy (Some w) env mem = Some (env', mem') /\
     journal env'
     = journal env ++ (DeleteReference <$> held (refs wrapping))
         ++ [DeleteNative a; DeleteWrapping w] /\
     (forall r, r ∈ held (refs wrapping) -> live_reference (Some r) env' = None) /\
     deref (Some a) (objects mem') = None /\
     deref (Some w) (wrappings mem') = None) /\
  (forall js_rcv cc count env0 (mem0 : store),
     objects (Create js_rcv cc count env0 mem0).2 = objects mem0) /\
  (forall this idx same_obj env0 (mem0 : store) s env' mem',
     SetRef this idx same_obj env0 mem0 = Some (s, env', mem') ->
     objects mem' = objects mem0) /\
  (forall sameIdx info env0 (mem0 : store) v env' mem',
     InstanceGetter C FieldName sameIdx info env0 mem0 = Some (v, env', mem') ->
     objects mem' = objects mem0).
Proof.
  intros Hw Hnative [t Ht] Hdup Hlive.
  split; [|split; [|split]].
  - unfold Destroy. rewrite Hw, Destroy_for_released by assumption.
    rewrite Hnative. unfold delete_native. rewrite Ht.
    unfold delete_wrapping. simpl in *. rewrite Hw.
    eexists _, _. split; [reflexivity|]. simpl. repeat split.
    + rewrite journal_released. by rewrite <- !app_assoc.
    + intros r Hr. change (live_reference (Some r) (released (held (refs wrapping)) env) = None).
      rewrite live_reference_released. by rewrite decide_True.
    + destruct (objects mem !! a) eqn:Ha; [|discriminate].
      rewrite list_lookup_insert_eq by (by eapply lookup_lt_Some). reflexivity.
    + destruct (wrappings mem !! w) eqn:Ha; [|discriminate].
      rewrite list_lookup_insert_eq by (by eapply lookup_lt_Some). reflexivity.
  - intros. apply objects_Create.
  - intros. by eapply objects_SetRef.
  - intros. by eapply objects_InstanceGetter.
Qed.

Lemma napi_get_cb_info_this info argc env :
  napi_get_cb_info info argc env
  = Ok (take argc (cb_args info ++ replicate argc (Some JSUndefined)),
        cb_this info, cb_data info) env.
Proof. reflexivity. Qed.

(** The first read of an empty slot: convert, create a reference, store
    it in the slot, return the converted object. *)
Lemma InstanceGetter_first_read (sameIdx : Z) (info : napi_callback_info) (w : nat)
    (wrapping : Wrapping) (t : T) (b : nat) (env env1 : napi_env) (mem : store) :
  wrapped_instance (cb_this info) (Some w) wrapping env mem ->
  0 <= sameIdx ->
  refs wrapping !! Z.to_nat sameIdx = Some None ->
  deref (native wrapping) (objects mem) = Some t ->
  ToJS C (FieldName t) None env = (napi_ok, Some (JSObject b), env1) ->
  InstanceGetter C FieldName sameIdx info env mem
  = Some (Some (JSObject b), cached_env b env1, cached_store w wrapping sameIdx env1 mem).
Proof.
  intros Hinst Hidx Hslot Hobj Hconv.
  assert (Hlt : (Z.to_nat sameIdx < length (refs wrapping))%nat)
    by (by eapply lookup_lt_Some).
  pose proof Hinst as [Hunwrap Hderef].
  unfold InstanceGetter. rewrite napi_get_cb_info_this. simpl.
  destruct (Z.leb_spec 0 sameIdx) as [_|]; [|lia].
  rewrite (Retrieve_skips _ _ _ _ _ _ _ Hinst) by (right; right; exact Hslot).
  simpl. unfold InstanceGetter_convert. rewrite Hobj, Hconv. simpl.
  destruct (Z.leb_spec 0 sameIdx) as [_|]; [|lia].
  unfold SetRef, napi_create_reference. rewrite Hderef.
  destruct (Z.leb_spec 0 sameIdx) as [_|]; [|lia].
  destruct (Z.ltb_spec sameIdx (Z.of_nat (length (refs wrapping)))) as [_|]; [|lia].
  reflexivity.
Qed.

(** A read of a slot that holds a live reference: the referenced value
    is returned, whatever the codec and the field; only the lookup is
    journalled. *)
Lemma InstanceGetter_cached_read (C' : Converter FieldType) (FieldName' : T -> FieldType)
    (sameIdx : Z) (info : napi_callback_info)
    (data : pointer) (wrapping : Wrapping) (r : nat) (v : js_value)
    (env : napi_env) (mem : store) :
  wrapped_instance (cb_this info) data wrapping env mem ->
  0 <= sameIdx ->
  refs wrapping !! Z.to_nat sameIdx = Some (Some r) ->
  live_reference (Some r) env = Some v ->
  InstanceGetter C' FieldName' sameIdx info env mem
  = Some (Some v, record (GetReferenceValue r) env, mem).
Proof.
  intros [Hunwrap Hderef] Hidx Hslot Hlive.
  assert (Hlt : (Z.to_nat sameIdx < length (refs wrapping))%nat)
    by (by eapply lookup_lt_Some).
  unfold InstanceGetter. rewrite napi_get_cb_info_this. simpl.
  destruct (Z.leb_spec 0 sameIdx) as [_|]; [|lia].
  unfold Retrieve. rewrite Hunwrap, Hderef.
  destruct (Z.leb_spec 0 sameIdx) as [_|]; [|lia]. cbn [negb].
  destruct (Z.ltb_spec sameIdx (Z.of_nat (length (refs wrapping)))) as [_|]; [|lia].
  cbn [negb]. rewrite Hslot. unfold napi_get_reference_value. rewrite Hlive. reflexivity.
Qed.

(** After the first read the slot holds a live reference to the object. *)
Lemma first_read_caches (sameIdx : Z) (w : nat) (wrapping : Wrapping) (b : nat)
    (env1 : napi_env) (mem : store) :
  deref (Some w) (wrappings mem) = Some wrapping ->
  0 <= sameIdx ->
  (Z.to_nat sameIdx < length (refs wrapping))%nat ->
  slot_caches (Some w) sameIdx (JSObject b) (cached_env b env1)
    (cached_store w wrapping sameIdx env1 mem).
Proof.
  intros Hderef Hidx Hlt. simpl in Hderef.
  destruct (wrappings mem !! w) eqn:Hw; [|discriminate].
  eexists _, (length (references env1)). simpl. repeat split.
  - rewrite list_lookup_insert_eq by (by eapply lookup_lt_Some). reflexivity.
  - exact Hidx.
  - simpl. by rewrite list_lookup_insert_eq.
  - rewrite lookup_app_r by lia. by rewrite Nat.sub_diag.
Qed.

Lemma napi_unwrap_cached_env js_rcv data b env1 :
  napi_unwrap js_rcv env1 = Ok data env1 ->
  napi_unwrap js_rcv (cached_env b env1) = Ok data (cached_env b env1).
Proof.
  unfold napi_unwrap, preamble. simpl. intros H.
  repeat (case_match; simplify_eq/=); reflexivity.
Qed.

End Wrapping.

(** With the pass-through codec of the opaque object type, the first
    read returns the handle stored in the native field. *)
Lemma passthrough_reads_the_field {T} (FieldName : T -> object) (sameIdx : Z)
    (info : napi_callback_info) (w : nat) (wrapping : Wrapping) (t : T) (b : nat)
    (env : napi_env) (mem : @store T) :
  wrapped_instance (cb_this info) (Some w) wrapping env mem ->
  0 <= sameIdx ->
  refs wrapping !! Z.to_nat sameIdx = Some None ->
  deref (native wrapping) (objects mem) = Some t ->
  FieldName t = Some (JSObject b) ->
  InstanceGetter Converter_object FieldName sameIdx info env mem
  = Some (Some (JSObject b), cached_env b env, cached_store w wrapping sameIdx env mem).
Proof.
  intros Hinst Hidx Hslot Hobj Hfield.
  apply InstanceGetter_first_read with (t := t); try assumption.
  simpl. by rewrite Hfield.
Qed.

(** The first read on one instance leaves every other instance wrapped
    as it was. *)
Lemma wrapped_instance_cached {T} (js_rcv : napi_value) (w w' : nat)
    (wrapping wrapping' : Wrapping) (idx : Z) (b : nat) (env : napi_env) (mem : @store T) :
  w' <> w ->
  wrapped_instance js_rcv (Some w') wrapping' env mem ->
  wrapped_instance js_rcv (Some w') wrapping' (cached_env b env)
    (cached_store w wrapping idx env mem).
Proof.
  intros Hne [Hunwrap Hderef]. split.
  - by apply napi_unwrap_cached_env.
  - simpl in *. by rewrite list_lookup_insert_ne.
Qed.

(** C4, as amended.  On a wrapped instance whose record has the slot
    [sameIdx], still empty, and whose native field converts to an object,
    the first read converts the field, creates a reference to the
    resulting object, stores it in the slot and returns the object.
    Whenever the slot holds a live reference, a read returns the
    referenced value whatever codec and field it was generated for (it
    does not convert), and changes nothing but the journal; this is so
    right after the first read when the conversion left the receiver
    wrapped.  A read on another instance, with its own record, is not
    served from the first one's slot: it returns what the codec gives for
    its own native field.  Whether the two instances wrap the same native
    object plays no part: the two objects differ when the codec mints, and
    with the pass-through codec of the opaque object type the two reads
    return the handles [c1] and [c2] held by the two fields, the same
    object exactly when the fields hold the same handle. *)
Theorem same_object_identity {T FieldType : Type} (C : Converter FieldType)
    (FieldName : T -> FieldType) (sameIdx : Z) (info1 info2 : napi_callback_info)
    (w1 w2 : nat) (wrapping1 wrapping2 : Wrapping) (t1 t2 : T) (b1 b2 : nat)
    (env env1 env3 : napi_env) (mem : @store T) :
  wrapped_instance (cb_this info1) (Some w1) wrapping1 env mem ->
  0 <= sameIdx ->
  refs wrapping1 !! Z.to_nat sameIdx = Some None ->
  deref (native wrapping1) (objects mem) = Some t1 ->
  ToJS C (FieldName t1) None env = (napi_ok, Some (JSObject b1), env1) ->
  let env2 := cached_env b1 env1 in
  let mem2 := cached_store w1 wrapping1 sameIdx env1 mem in
  InstanceGetter C FieldName sameIdx info1 env mem = Some (Some (JSObject b1), env2, mem2) /\
  slot_caches (Some w1) sameIdx (JSObject b1) env2 mem2 /\
  (forall (C' : Converter FieldType) (FieldName' : T -> FieldType) env' mem'
          data wrapping r v,
     wrapped_instance (cb_this info1) data wrapping env' mem' ->
     refs wrapping !! Z.to_nat sameIdx = Some (Some r) ->
     live_reference (Some r) env' = Some v ->
     InstanceGetter C' FieldName' sameIdx info1 env' mem'
     = Some (Some v, record (GetReferenceValue r) env', mem')) /\
  (napi_unwrap (cb_this info1) env1 = Ok (Some w1) env1 ->
   InstanceGetter C FieldName sameIdx info1 env2 mem2
   = Some (Some (JSObject b1),
           record (GetReferenceValue (length (references env1))) env2, mem2)) /\
  (w2 <> w1 ->
   wrapped_instance (cb_this info2) (Some w2) wrapping2 env2 mem2 ->
   refs wrapping2 !! Z.to_nat sameIdx = Some None ->
   deref (native wrapping2) (objects mem2) = Some t2 ->
   ToJS C (FieldName t2) None env2 = (napi_ok, Some (JSObject b2), env3) ->
   InstanceGetter C FieldName sameIdx info2 env2 mem2
   = Some (Some (JSObject b2), cached_env b2 env3,
           cached_store w2 wrapping2 sameIdx env3 mem2) /\
   (mints C -> b1 <> b2)) /\
  (forall (Handle : T -> object) (c1 c2 : nat),
     w2 <> w1 ->
     wrapped_instance (cb_this info2) (Some w2) wrapping2 env mem ->
     refs wrapping2 !! Z.to_nat sameIdx = Some None ->
     deref (native wrapping2) (objects mem) = Some t2 ->
     Handle t1 = Some (JSObject c1) ->
     Handle t2 = Some (JSObject c2) ->
     let env2 := cached_env c1 env in
     let mem2 := cached_store w1 wrapping1 sameIdx env mem in
     InstanceGetter Converter_object Handle sameIdx info1 env mem
     = Some (Some (JSObject c1), env2, mem2) /\
     InstanceGetter Converter_object Handle sameIdx info2 env2 mem2
     = Some (Some (JSObject c2), cached_env c2 env2,
             cached_store w2 wrapping2 sameIdx env2 mem2) /\
     (Some (JSObject c1) = Some (JSObject c2) <-> Handle t1 = Handle t2)).
Proof.
  intros Hinst Hidx Hslot Hobj Hconv env2 mem2.
  assert (Hlt : (Z.to_nat sameIdx < length (refs wrapping1))%nat)
    by (by eapply lookup_lt_Some).
  pose proof Hinst as [Hunwrap Hderef].
  assert (Hcaches : slot_caches (Some w1) sameIdx (JSObject b1) env2 mem2)
    by (by apply first_read_caches).
  split; [by apply InstanceGetter_first_read with (t := t1)|].
  split; [exact Hcaches|].
  split; [|split; [|split]].
  - intros C' F' env' mem' data wrapping r v Hinst' Hslot' Hlive'.
    by eapply InstanceGetter_cached_read.
  - intros Hstill.
    destruct Hcaches as (wrapping & r & Hw & _ & Hr & Hlive).
    assert (r = length (references env1)) as ->.
    { subst mem2. unfold cached_store in Hw. simpl in Hw, Hderef.
      destruct (wrappings mem !! w1) eqn:Hw1; [|discriminate].
      rewrite list_lookup_insert_eq in Hw by (by eapply lookup_lt_Some).
      simpl in Hw. injection Hw as <-. simpl in Hr.
      rewrite list_lookup_insert_eq in Hr by exact Hlt. congruence. }
    eapply InstanceGetter_cached_read; [split|exact Hidx|exact Hr|exact Hlive].
    + by apply napi_unwrap_cached_env.
    + exact Hw.
  - intros Hne Hinst2 Hslot2 Hobj2 Hconv2.
    split; [by apply InstanceGetter_first_read with (t := t2)|].
    intros Hmints.
    pose proof (Hmints _ _ _ _ _ Hconv) as [_ Hb1].
    pose proof (Hmints _ _ _ _ _ Hconv2) as [Hb2 _].
    subst env2. simpl in Hb2. lia.
  - intros Handle c1 c2 Hne Hinst2 Hslot2 Hobj2 Hc1 Hc2 env2' mem2'.
    split; [by apply passthrough_reads_the_field with (t := t1)|].
    split; [|by rewrite Hc1, Hc2].
    apply passthrough_reads_the_field with (t := t2); try assumption.
    by apply wrapped_instance_cached.
Qed.

(** Two instances wrapping equal sequences: each read of the first gives
    the array at address 2, each read of the second the array at 3. *)
Lemma two_instances_two_arrays :
  exists w1 w2 w3 w4,
    read_accessor 0 pair_world = Some (Some (JSObject 2), w1) /\
    read_accessor 1 w1 = Some (Some (JSObject 3), w2) /\
    read_accessor 0 w2 = Some (Some (JSObject 2), w3) /\
    read_accessor 1 w3 = Some (Some (JSObject 3), w4).
Proof.
  eexists _, _, _, _.
  split; [vm_compute; reflexivity|].
  split; [vm_compute; reflexivity|].
  split; vm_compute; reflexivity.
Qed.

Lemma sample_is_wrapped :
  wrapped_instance (cb_this sample_info) (Some 0%nat) sample_wrapping sample_env sample_store.
Proof. split; reflexivity. Qed.

(** The same-object law as stated fails.  Two distinct wrapped instances
    over two distinct native objects whose fields hold the same handle
    return the identical object.  A field that converts to a number cannot be
    cached: the first read throws, returns the null handle and stores
    nothing.  On a record without the designated slot the store of the
    reference is an access outside the vector. *)
Lemma same_object_identity_counterexample :
  (exists world1 world2,
     objects shared_handle_world.2
     = [Some (1, Some (JSObject 2)); Some (2, Some (JSObject 2))] /\
     wrappings shared_handle_world.2
     = [Some {| native := Some 0%nat; refs := [None] |};
        Some {| native := Some 1%nat; refs := [None] |}] /\
     read_handle 0 shared_handle_world = Some (Some (JSObject 2), world1) /\
     read_handle 1 world1 = Some (Some (JSObject 2), world2)) /\
  (exists env',
     InstanceGetter Converter_uint32_t (fun t : list Z => default 0 (head t)) 0
       sample_info sample_env sample_store
     = Some (None, env', sample_store) /\
     napi_is_exception_pending env' = true /\
     wrappings sample_store = [Some {| native := Some 0%nat; refs := [None] |}]) /\
  InstanceGetter sample_codec id 1 sample_info sample_env sample_store = None.
Proof.
  split; [|split].
  - eexists _, _. repeat split; vm_compute; reflexivity.
  - eexists. repeat split; vm_compute; reflexivity.
  - vm_compute. reflexivity.
Qed.

Lemma Retrieve_without_lookup_witness :
  Retrieve (Some (JSObject 0)) 5
    {| cc_rcv := None; ref := Some None; get_wrapping := None |} sample_env sample_store
  = Some (napi_ok,
          {| cc_rcv := Some 0%nat; ref := Some None; get_wrapping := None |}, sample_env).
Proof.
  apply (Retrieve_without_lookup (Some (JSObject 0)) (Some 0%nat) sample_wrapping
           {| cc_rcv := None; ref := Some None; get_wrapping := None |}
           sample_env sample_store 5).
  - exact sample_is_wrapped.
  - right. left. simpl. lia.
Defined.

Lemma same_object_identity_witness :
  InstanceGetter sample_codec id 0 sample_info sample_env sample_store
  = Some (Some (JSObject 1), sample_read_env, sample_read_store).
Proof.
  apply (proj1 (same_object_identity sample_codec id 0 sample_info sample_info
                  0%nat 0%nat sample_wrapping sample_wrapping [3; 1; 2] [3; 1; 2]
                  1%nat 1%nat sample_env sample_converted sample_converted sample_store
                  sample_is_wrapped ltac:(lia) eq_refl eq_refl eq_refl)).
Defined.

Lemma Destroy_releases_then_deletes_witness :
  exists env' mem',
    Destroy (Some 0%nat) sample_read_env sample_read_store = Some (env', mem') /\
    journal env'
    = journal sample_read_env ++ [DeleteReference 0; DeleteNative 0; DeleteWrapping 0].
Proof.
  destruct (Destroy_releases_then_deletes sample_codec id 0%nat 0%nat
              {| native := Some 0%nat; refs := [Some 0%nat] |}
              sample_read_env sample_read_store) as [(env' & mem' & H & Hj & _) _].
  - reflexivity.
  - reflexivity.
  - eexists. reflexivity.
  - apply NoDup_singleton.
  - intros r Hr. apply list_elem_of_singleton in Hr as ->. eexists. reflexivity.
  - exists env', mem'. split; [exact H|exact Hj].
Defined.

End WrappingFacts.

(** ** Exposed partial properties *)

Module ExposedFacts.
Import Napi Conversion Wrapping Exposed.

(** C7 (what the code does).  The plain getter and setter never use the
    data pointer of the callback: their local [data] is initialised from
    itself.  Whatever record the callback designates, the getter converts
    the record the indeterminate pointer happens to designate, and the
    setter writes there; with a null or dangling pointer the behaviour is
    undefined.  With records holding 1 and 2 and a callback registered for
    the first, a stale pointer to the second makes the getter return 2 and
    the setter overwrite the second record. *)
Theorem plain_property_ignores_its_record :
  (forall T (C : Converter T) garbage info info' env mem,
     cb_args info = cb_args info' ->
     Getter C garbage info env mem = Getter C garbage info' env mem /\
     Setter C garbage info env mem = Setter C garbage info' env mem) /\
  Getter Converter_uint32_t (Some 1%nat) first_property_info empty_env two_properties
  = Some (Some (JSNumber (double_of_Z 2)), empty_env) /\
  Getter Converter_uint32_t None first_property_info empty_env two_properties = None /\
  Setter Converter_uint32_t (Some 1%nat) first_property_info empty_env two_properties
  = Some (None, empty_env, [Some {| value := 1 |}; Some {| value := 7 |}]).
Proof.
  split; [|split; [|split]].
  - intros T C garbage info info' env mem Hargs. split.
    + reflexivity.
    + unfold Setter, napi_get_cb_info. by rewrite Hargs.
  - reflexivity.
  - reflexivity.
  - vm_compute. reflexivity.
Qed.

Lemma plain_property_ignores_its_record_witness :
  Getter Converter_uint32_t (Some 1%nat) first_property_info empty_env two_properties
  = Getter Converter_uint32_t (Some 1%nat)
      {| cb_this := None; cb_args := cb_args first_property_info;
         cb_new_target := None; cb_data := Some 1%nat |} empty_env two_properties.
Proof.
  apply (proj1 plain_property_ignores_its_record). reflexivity.
Defined.

End ExposedFacts.

(** ** Accessors: creation, assignment, reading without a cache *)

Module AccessorsFacts.
Import Napi Conversion Wrapping Accessors.

Lemma throw_last_error_pending s env :
  napi_is_exception_pending (throw_last_error s env) = true.
Proof.
  unfold throw_last_error.
  destruct (napi_is_exception_pending env) eqn:Hp; [exact Hp|].
  unfold napi_is_exception_pending in Hp.
  destruct (last_exception env) eqn:He; [discriminate|].
  by rewrite DispatchFacts.napi_throw_error_quiet.
Qed.

Section Accessors.
Context {T FieldType : Type}.
Variable C : Converter FieldType.
Variable FieldName : T -> FieldType.
Variable FieldName_assign : FieldType -> T -> T.

Abbreviation store := (@store T).

(** What an assignment through the member pointer leaves in the store. *)
Lemma InstanceSetter_runs (info : napi_callback_info) (w a : nat) (wrapping : Wrapping)
    (t : T) (v : js_value) (rest : list napi_value) (env : napi_env) (mem : store) :
  wrapped_instance (cb_this info) (Some w) wrapping env mem ->
  native wrapping = Some a ->
  deref (Some a) (objects mem) = Some t ->
  cb_args info = Some v :: rest ->
  InstanceSetter C FieldName FieldName_assign info env mem
  = let '(s, field, env1) := ToNative C (Some v) (FieldName t) env in
    Some (None,
          match s with napi_ok => env1 | _ => throw_last_error s env1 end,
          set_objects (<[a := Some (FieldName_assign field t)]> (objects mem)) mem).
Proof.
  intros Hinst Hnative Hobj Hargs.
  unfold InstanceSetter. rewrite WrappingFacts.napi_get_cb_info_this, Hargs.
  cbn [return_call NAPI_CALL]. cbn [take app fst snd lookup list_lookup default].
  rewrite (WrappingFacts.Retrieve_skips _ _ _ _ _ _ _ Hinst)
    by (left; unfold Retrieve_default_ref_idx; lia).
  cbn [NAPI_CALL cc_rcv]. rewrite Hnative, Hobj. unfold id.
  destruct (ToNative C (Some v) (FieldName t) env) as [[s field] env1].
  destruct s; reflexivity.
Qed.

(** A read with no cache slot converts the field and touches nothing
    else. *)
Lemma InstanceGetter_uncached_read (sameIdx : Z) (info : napi_callback_info) (w : nat)
    (wrapping : Wrapping) (t : T) (env : napi_env) (mem : store) :
  wrapped_instance (cb_this info) (Some w) wrapping env mem ->
  sameIdx < 0 ->
  deref (native wrapping) (objects mem) = Some t ->
  InstanceGetter C FieldName sameIdx info env mem
  = NAPI_CALL (ToJS C (FieldName t) None env) mem (fun result env => Some (result, env, mem)).
Proof.
  intros Hinst Hidx Hobj.
  unfold InstanceGetter. rewrite WrappingFacts.napi_get_cb_info_this.
  cbn [return_call NAPI_CALL fst snd].
  destruct (Z.leb_spec 0 sameIdx) as [|_]; [lia|].
  rewrite (WrappingFacts.Retrieve_skips _ _ _ _ _ _ _ Hinst)
    by (left; unfold Retrieve_default_ref_idx; lia).
  cbn [NAPI_CALL cc_rcv]. unfold InstanceGetter_convert. rewrite Hobj.
  destruct (Z.leb_spec 0 sameIdx) as [|_]; [lia|]. reflexivity.
Qed.

Lemma deref_insert {A} (a : nat) (x y : A) (l : list (option A)) :
  deref (Some a) l = Some x ->
  deref (Some a) (<[a := Some y]> l) = Some y.
Proof.
  unfold deref. intros H.
  destruct (l !! a) as [o|] eqn:Hl; [|discriminate].
  apply lookup_lt_Some in Hl. by rewrite list_lookup_insert_eq.
Qed.

(** X1: a value assigned through a writable accessor without a cache
    slot is what the next read of the accessor converts back, and the
    assignment changes the field of the receiver's native object only. *)
Theorem assignment_then_read (attrs sameObjId : Z) (name : string)
    (info : napi_callback_info) (w a : nat) (wrapping : Wrapping) (t : T) (v : js_value)
    (rest : list napi_value) (x : FieldType) (result : napi_value)
    (env env1 env2 : napi_env) (mem : store) :
  (forall y u, FieldName (FieldName_assign y u) = y) ->
  sameObjId < 0 ->
  wrapped_instance (cb_this info) (Some w) wrapping env mem ->
  native wrapping = Some a ->
  deref (Some a) (objects mem) = Some t ->
  cb_args info = Some v :: rest ->
  ToNative C (Some v) (FieldName t) env = (napi_ok, x, env1) ->
  napi_unwrap (cb_this info) env1 = Ok (Some w) env1 ->
  ToJS C x None env1 = (napi_ok, result, env2) ->
  let d := InstanceAccessor C FieldName FieldName_assign attrs sameObjId false name in
  let mem1 := set_objects (<[a := Some (FieldName_assign x t)]> (objects mem)) mem in
  exists set get,
    setter d = Some set /\ getter d = Some get /\
    set info env mem = Some (None, env1, mem1) /\
    get info env1 mem1 = Some (result, env2, mem1).
Proof.
  intros Hlens Hidx Hinst Hnative Hobj Hargs Hto Hunwrap Hfrom d mem1.
  exists (InstanceSetter C FieldName FieldName_assign), (InstanceGetter C FieldName sameObjId).
  split; [reflexivity|]. split; [reflexivity|]. split.
  - rewrite (InstanceSetter_runs _ _ _ _ _ _ _ _ _ Hinst Hnative Hobj Hargs), Hto.
    reflexivity.
  - assert (Hinst1 : wrapped_instance (cb_this info) (Some w) wrapping env1 mem1).
    { split; [exact Hunwrap|]. exact (proj2 Hinst). }
    rewrite (InstanceGetter_uncached_read _ _ _ _ (FieldName_assign x t) _ _ Hinst1 Hidx).
    + rewrite Hlens, Hfrom. reflexivity.
    + rewrite Hnative. subst mem1. cbn [objects set_objects].
      by eapply deref_insert.
Qed.

(** X2: an assignment to a receiver that is not a wrapped instance throws
    and leaves the native store as it was. *)
Theorem assignment_to_a_stranger (info : napi_callback_info) (s : napi_status)
    (env : napi_env) (mem : store) :
  napi_unwrap (cb_this info) env = Fail s env ->
  exists env',
    InstanceSetter C FieldName FieldName_assign info env mem = Some (None, env', mem) /\
    napi_is_exception_pending env' = true.
Proof.
  intros Hunwrap. exists (throw_last_error s env).
  split; [|apply throw_last_error_pending].
  unfold InstanceSetter. rewrite WrappingFacts.napi_get_cb_info_this.
  cbn [return_call NAPI_CALL fst snd].
  unfold Retrieve. rewrite Hunwrap. cbn [NAPI_CALL].
  assert (s <> napi_ok) as Hs.
  { intros ->. unfold napi_unwrap, preamble in Hunwrap.
    repeat case_match; discriminate. }
  destruct s; try reflexivity. contradiction.
Qed.

(** X3: an assignment whose value the codec refuses throws, and the field
    keeps what the codec left in it: the store is unchanged when the codec
    did not write. *)
Theorem refused_assignment (info : napi_callback_info) (w a : nat) (wrapping : Wrapping)
    (t : T) (v : js_value) (rest : list napi_value) (s : napi_status)
    (env env1 : napi_env) (mem : store) :
  (forall u, FieldName_assign (FieldName u) u = u) ->
  wrapped_instance (cb_this info) (Some w) wrapping env mem ->
  native wrapping = Some a ->
  deref (Some a) (objects mem) = Some t ->
  cb_args info = Some v :: rest ->
  ToNative C (Some v) (FieldName t) env = (s, FieldName t, env1) ->
  s <> napi_ok ->
  InstanceSetter C FieldName FieldName_assign info env mem
  = Some (None, throw_last_error s env1, mem) /\
  napi_is_exception_pending (throw_last_error s env1) = true.
Proof.
  intros Hlens Hinst Hnative Hobj Hargs Hto Hs.
  split; [|apply throw_last_error_pending].
  rewrite (InstanceSetter_runs _ _ _ _ _ _ _ _ _ Hinst Hnative Hobj Hargs), Hto.
  rewrite Hlens.
  assert (set_objects (<[a := Some t]> (objects mem)) mem = mem) as ->.
  { unfold deref in Hobj. destruct (objects mem !! a) as [o|] eqn:Hl; [|discriminate].
    cbn in Hobj. subst o. rewrite list_insert_id by exact Hl. by destruct mem. }
  destruct s; try reflexivity. contradiction.
Qed.

(** X4: once a slot caches an object, an assignment through the setter
    changes the native field but not what the accessor of that slot
    returns: the read is served from the slot and converts nothing. *)
Theorem cached_read_survives_assignment (sameIdx : Z) (info1 info2 : napi_callback_info)
    (w a r : nat) (wrapping : Wrapping) (t : T) (v v0 : js_value)
    (rest : list napi_value) (x : FieldType) (env env1 : napi_env) (mem : store) :
  0 <= sameIdx ->
  wrapped_instance (cb_this info1) (Some w) wrapping env mem ->
  refs wrapping !! Z.to_nat sameIdx = Some (Some r) ->
  native wrapping = Some a ->
  deref (Some a) (objects mem) = Some t ->
  cb_args info1 = Some v :: rest ->
  ToNative C (Some v) (FieldName t) env = (napi_ok, x, env1) ->
  napi_unwrap (cb_this info2) env1 = Ok (Some w) env1 ->
  live_reference (Some r) env1 = Some v0 ->
  exists mem1,
    InstanceSetter C FieldName FieldName_assign info1 env mem = Some (None, env1, mem1) /\
    deref (Some a) (objects mem1) = Some (FieldName_assign x t) /\
    InstanceGetter C FieldName sameIdx info2 env1 mem1
    = Some (Some v0, record (GetReferenceValue r) env1, mem1).
Proof.
  intros Hidx Hinst Hslot Hnative Hobj Hargs Hto Hunwrap Hlive.
  eexists. split; [|split].
  - rewrite (InstanceSetter_runs _ _ _ _ _ _ _ _ _ Hinst Hnative Hobj Hargs), Hto.
    reflexivity.
  - cbn [objects set_objects]. by eapply deref_insert.
  - apply (WrappingFacts.InstanceGetter_cached_read C FieldName sameIdx info2
             (Some w) wrapping r v0); [|exact Hidx|exact Hslot|exact Hlive].
    split; [exact Hunwrap|exact (proj2 Hinst)].
Qed.

(** X5: an accessor without a cache slot converts the field on every
    read and leaves the native store alone; with a codec that mints, two
    reads of the same receiver return two different objects. *)
Theorem uncached_reads_convert_again (sameIdx : Z) (info : napi_callback_info) (w : nat)
    (wrapping : Wrapping) (t : T) (b1 b2 : nat) (env env1 env2 : napi_env) (mem : store) :
  sameIdx < 0 ->
  wrapped_instance (cb_this info) (Some w) wrapping env mem ->
  deref (native wrapping) (objects mem) = Some t ->
  ToJS C (FieldName t) None env = (napi_ok, Some (JSObject b1), env1) ->
  napi_unwrap (cb_this info) env1 = Ok (Some w) env1 ->
  ToJS C (FieldName t) None env1 = (napi_ok, Some (JSObject b2), env2) ->
  InstanceGetter C FieldName sameIdx info env mem = Some (Some (JSObject b1), env1, mem) /\
  InstanceGetter C FieldName sameIdx info env1 mem = Some (Some (JSObject b2), env2, mem) /\
  (mints C -> b1 <> b2).
Proof.
  intros Hidx Hinst Hobj Hto1 Hunwrap Hto2. split; [|split].
  - rewrite (InstanceGetter_uncached_read _ _ _ _ _ _ _ Hinst Hidx Hobj), Hto1. reflexivity.
  - assert (Hinst1 : wrapped_instance (cb_this info) (Some w) wrapping env1 mem)
      by (split; [exact Hunwrap|exact (proj2 Hinst)]).
    rewrite (InstanceGetter_uncached_read _ _ _ _ _ _ _ Hinst1 Hidx Hobj), Hto2. reflexivity.
  - intros Hmints. pose proof (Hmints _ _ _ _ _ Hto1). pose proof (Hmints _ _ _ _ _ Hto2). lia.
Qed.

(** X30: an accessor with a cache slot can only serve objects: when the
    codec converts the field to a value that is not an object, no
    reference can be made to it, the read throws and returns the null
    handle although the conversion succeeded, and the slot stays empty. *)
Theorem cached_accessor_needs_an_object (sameIdx : Z) (info : napi_callback_info)
    (w : nat) (wrapping : Wrapping) (t : T) (v : napi_value)
    (env env1 : napi_env) (mem : store) :
  0 <= sameIdx ->
  wrapped_instance (cb_this info) (Some w) wrapping env mem ->
  refs wrapping !! Z.to_nat sameIdx = Some None ->
  deref (native wrapping) (objects mem) = Some t ->
  ToJS C (FieldName t) None env = (napi_ok, v, env1) ->
  (forall b, v <> Some (JSObject b)) ->
  InstanceGetter C FieldName sameIdx info env mem
  = Some (None, throw_last_error napi_invalid_arg env1, mem) /\
  napi_is_exception_pending (throw_last_error napi_invalid_arg env1) = true.
Proof.
  intros Hidx Hinst Hslot Hobj Hto Hv.
  split; [|apply throw_last_error_pending].
  unfold InstanceGetter. rewrite WrappingFacts.napi_get_cb_info_this.
  cbn [return_call NAPI_CALL fst snd].
  destruct (Z.leb_spec 0 sameIdx) as [_|]; [|lia].
  rewrite (WrappingFacts.Retrieve_skips _ _ _ _ _ _ _ Hinst) by (right; right; exact Hslot).
  cbn [NAPI_CALL ref get_wrapping cc_rcv default]. unfold id.
  unfold InstanceGetter_convert. rewrite Hobj, Hto. cbn [NAPI_CALL].
  destruct (Z.leb_spec 0 sameIdx) as [_|]; [|lia].
  unfold SetRef, napi_create_reference.
  destruct v as [[| | | | |b]|]; try reflexivity.
  by destruct (Hv b).
Qed.
End Accessors.

Lemma point_is_wrapped :
  wrapped_instance (Some (JSObject 0)) (Some 0%nat) point_wrapping point_env point_store.
Proof. split; reflexivity. Qed.

Lemma assignment_then_read_witness :
  exists set get,
    setter (InstanceAccessor Converter_uint32_t fst assign_first 0 (-1) false "x")
    = Some set /\
    getter (InstanceAccessor Converter_uint32_t fst assign_first 0 (-1) false "x")
    = Some get /\
    set (sample_assignment (JSNumber (double_of_Z 7))) point_env point_store
    = Some (None, point_env, {| objects := [Some (7, 6)]; wrappings := wrappings point_store |}) /\
    get (sample_assignment (JSNumber (double_of_Z 7))) point_env
      {| objects := [Some (7, 6)]; wrappings := wrappings point_store |}
    = Some (Some (JSNumber (double_of_Z 7)), point_env,
            {| objects := [Some (7, 6)]; wrappings := wrappings point_store |}).
Proof.
  apply (assignment_then_read Converter_uint32_t fst assign_first 0 (-1) "x"
           (sample_assignment (JSNumber (double_of_Z 7))) 0%nat 0%nat point_wrapping (5, 6)
           (JSNumber (double_of_Z 7)) [] 7 (Some (JSNumber (double_of_Z 7)))
           point_env point_env point_env point_store).
  - intros y u. reflexivity.
  - lia.
  - exact point_is_wrapped.
  - reflexivity.
  - reflexivity.
  - reflexivity.
  - vm_compute. reflexivity.
  - reflexivity.
  - vm_compute. reflexivity.
Defined.

Lemma assignment_to_a_stranger_witness :
  exists env',
    InstanceSetter Converter_uint32_t fst assign_first
      {| cb_this := Some JSUndefined; cb_args := [Some (JSNumber (double_of_Z 7))];
         cb_new_target := None; cb_data := None |} point_env point_store
    = Some (None, env', point_store) /\
    napi_is_exception_pending env' = true.
Proof.
  apply (assignment_to_a_stranger Converter_uint32_t fst assign_first _ napi_invalid_arg).
  reflexivity.
Defined.

Lemma refused_assignment_witness :
  InstanceSetter Converter_uint32_t fst assign_first (sample_assignment (JSString "7"))
    point_env point_store
  = Some (None, throw_last_error napi_number_expected point_env, point_store) /\
  napi_is_exception_pending (throw_last_error napi_number_expected point_env) = true.
Proof.
  apply (refused_assignment Converter_uint32_t fst assign_first
           (sample_assignment (JSString "7")) 0%nat 0%nat point_wrapping (5, 6)
           (JSString "7") [] napi_number_expected point_env point_env point_store).
  - intros [x y]. reflexivity.
  - exact point_is_wrapped.
  - reflexivity.
  - reflexivity.
  - reflexivity.
  - reflexivity.
  - discriminate.
Defined.

Lemma cached_read_survives_assignment_witness :
  exists mem1,
    InstanceSetter sample_codec id (fun x _ => x) (sample_assignment (JSObject 1))
      nine_world_read.1 nine_world_read.2
    = Some (None, nine_assigned, mem1) /\
    deref (Some 0%nat) (objects mem1) = Some [9] /\
    InstanceGetter sample_codec id 0 sample_info nine_assigned mem1
    = Some (Some (JSObject 2), record (GetReferenceValue 0) nine_assigned, mem1).
Proof.
  apply (cached_read_survives_assignment sample_codec id (fun x _ => x) 0
           (sample_assignment (JSObject 1)) sample_info 0%nat 0%nat 0%nat
           {| native := Some 0%nat; refs := [Some 0%nat] |} [3; 1; 2] (JSObject 1)
           (JSObject 2) [] [9] nine_world_read.1 nine_assigned nine_world_read.2).
  - lia.
  - split; reflexivity.
  - reflexivity.
  - reflexivity.
  - reflexivity.
  - reflexivity.
  - vm_compute. reflexivity.
  - reflexivity.
  - reflexivity.
Defined.

Lemma uncached_reads_convert_again_witness :
  InstanceGetter sample_codec id (-1) sample_info sample_env sample_store
  = Some (Some (JSObject 1), sample_converted, sample_store) /\
  InstanceGetter sample_codec id (-1) sample_info sample_converted sample_store
  = Some (Some (JSObject 2), env_of (ToJS sample_codec [3; 1; 2] None sample_converted),
          sample_store) /\
  (mints sample_codec -> 1%nat <> 2%nat).
Proof.
  apply (uncached_reads_convert_again sample_codec id (-1) sample_info 0%nat
           sample_wrapping [3; 1; 2] 1%nat 2%nat sample_env sample_converted
           (env_of (ToJS sample_codec [3; 1; 2] None sample_converted)) sample_store).
  - lia.
  - exact WrappingFacts.sample_is_wrapped.
  - reflexivity.
  - vm_compute. reflexivity.
  - reflexivity.
  - vm_compute. reflexivity.
Defined.

Lemma cached_accessor_needs_an_object_witness :
  InstanceGetter Converter_uint32_t (fun t : list Z => default 0 (head t)) 0 sample_info
    sample_env sample_store
  = Some (None, throw_last_error napi_invalid_arg sample_env, sample_store) /\
  napi_is_exception_pending (throw_last_error napi_invalid_arg sample_env) = true.
Proof.
  apply (cached_accessor_needs_an_object Converter_uint32_t
           (fun t : list Z => default 0 (head t)) 0 sample_info 0%nat sample_wrapping
           [3; 1; 2] (Some (JSNumber (double_of_Z 3))) sample_env sample_env sample_store).
  - lia.
  - exact WrappingFacts.sample_is_wrapped.
  - reflexivity.
  - reflexivity.
  - reflexivity.
  - intros b. discriminate.
Defined.

End AccessorsFacts.

(** ** Codecs and references *)

Module ReferencesFacts.
Import Napi Conversion Containers Lifecycle.
Local Open Scope napi_scope.

Lemma keeps_references_uint32_t : keeps_references Converter_uint32_t.
Proof.
  split; intros; cbn; unfold napi_get_value_uint32, napi_create_uint32;
    repeat (case_match; simplify_eq/=); reflexivity.
Qed.

Section Array.
Context {T : Type}.
Variable C : Converter T.
Variable T_default : T.
Hypothesis C_keeps : keeps_references C.

Lemma references_napi_set_element object idx v env :
  references (match napi_set_element object idx v env with
              | Ok _ env' | Fail _ env' => env'
              end) = references env.
Proof.
  unfold napi_set_element, preamble.
  repeat (case_match; simplify_eq/=); reflexivity.
Qed.

Lemma references_napi_get_element object idx env :
  references (match napi_get_element object idx env with
              | Ok _ env' | Fail _ env' => env'
              end) = references env.
Proof.
  unfold napi_get_element, preamble.
  repeat (case_match; simplify_eq/=); reflexivity.
Qed.

Lemma references_ArrayToJS_for (items : list T) : forall idx res env,
  references (env_of (ArrayToJS_for C items idx res env)) = references env.
Proof.
  induction items as [|x items IH]; intros idx res env; simpl; [reflexivity|].
  pose proof (proj1 C_keeps x None env) as H1.
  destruct (ToJS C x None env) as [[s member] env1]. unfold env_of in *. simpl in *.
  pose proof (references_napi_set_element res idx member env1) as H2.
  destruct s; simpl; try exact H1.
  destruct (napi_set_element res idx member env1) as [u env2|s2 env2]; simpl;
    [|congruence].
  rewrite IH. congruence.
Qed.

Lemma references_ArrayToNative_for (count : nat) : forall idx ar res env,
  references (env_of (ArrayToNative_for C T_default count idx ar res env)) = references env.
Proof.
  induction count as [|count IH]; intros idx ar res env; simpl; [reflexivity|].
  pose proof (references_napi_get_element ar idx env) as H1.
  destruct (napi_get_element ar idx env) as [member env1|s1 env1]; simpl; [|exact H1].
  pose proof (proj2 C_keeps member (default T_default (res !! Z.to_nat idx)) env1) as H2.
  destruct (ToNative C member _ env1) as [[s slot] env2]. unfold env_of in *. simpl in *.
  destruct s; simpl; rewrite ?IH; congruence.
Qed.

Lemma keeps_references_array (freeze : bool) :
  keeps_references {| ToNative := ArrayToNative C T_default; ToJS := ArrayToJS C freeze |}.
Proof.
  split.
  - intros ar r env. cbn [ToJS]. unfold ArrayToJS.
    unfold napi_open_escapable_handle_scope, napi_create_array, alloc.
    cbn [status_call].
    match goal with
    | |- context [ArrayToJS_for C ar 0 ?res ?e] =>
        pose proof (references_ArrayToJS_for ar 0 res e) as Hloop;
        destruct (ArrayToJS_for C ar 0 res e) as [[s u] env_l]
    end.
    unfold env_of in *. simpl in Hloop.
    unfold napi_escape_handle, napi_close_escapable_handle_scope, napi_close_handle_scope.
    destruct s; simpl; try exact Hloop.
    repeat (case_match; simplify_eq/=); exact Hloop.
  - intros ar r env. cbn [ToNative]. unfold ArrayToNative.
    unfold napi_open_handle_scope, napi_get_array_length.
    repeat (case_match; simplify_eq/=); try reflexivity.
    all: match goal with
    | |- context [ArrayToNative_for C T_default ?n 0 ?a ?res ?e] =>
        pose proof (references_ArrayToNative_for n 0 a res e) as Hloop;
        destruct (ArrayToNative_for C T_default n 0 a res e) as [[s u] env_l]
    end.
    all: unfold env_of in *; simpl in Hloop.
    all: unfold napi_close_handle_scope.
    all: destruct s; simpl; try exact Hloop.
    all: repeat (case_match; simplify_eq/=); exact Hloop.
Qed.
End Array.

End ReferencesFacts.

(** ** The life of a wrapping record *)

Module LifecycleFacts.
Import Napi Conversion Containers Wrapping Accessors Lifecycle.

Lemma references_throw_last_error s env :
  references (throw_last_error s env) = references env.
Proof.
  unfold throw_last_error, napi_throw_error, preamble, napi_is_exception_pending.
  destruct (last_exception env); reflexivity.
Qed.

Lemma elem_of_held (l : list napi_ref) (r : nat) :
  r ∈ held l <-> exists i, l !! i = Some (Some r).
Proof.
  unfold held. rewrite list_elem_of_omap. split.
  - intros (o & Hin & Ho). apply list_elem_of_lookup in Hin as [i Hi].
    exists i. unfold id in Ho. by subst o.
  - intros [i Hi]. exists (Some r). split; [|reflexivity].
    apply list_elem_of_lookup. by exists i.
Qed.

Lemma NoDup_held (l : list napi_ref) :
  (forall i j r, l !! i = Some (Some r) -> l !! j = Some (Some r) -> i = j) ->
  NoDup (held l).
Proof.
  induction l as [|[r|] l IH]; intros Hinj.
  - constructor.
  - change (NoDup (r :: held l)). constructor.
    + intros Hin. apply elem_of_held in Hin as [j Hj].
      specialize (Hinj 0%nat (S j) r eq_refl Hj). discriminate.
    + apply IH. intros i j r' Hi Hj.
      specialize (Hinj (S i) (S j) r' Hi Hj). by injection Hinj.
  - change (NoDup (held l)). apply IH. intros i j r' Hi Hj.
    specialize (Hinj (S i) (S j) r' Hi Hj). by injection Hinj.
Qed.

Lemma replicate_if (n : nat) :
  (if (0 <? n)%nat then replicate n None else []) = replicate n (@None nat).
Proof. by destruct n. Qed.

Lemma deref_Some {A} (a : nat) (x : A) (l : list (option A)) :
  deref (Some a) l = Some x <-> l !! a = Some (Some x).
Proof. unfold deref. destruct (l !! a) as [[y|]|]; cbn; naive_solver. Qed.

Lemma live_reference_app r x env :
  is_Some (live_reference (Some r) env) ->
  live_reference (Some r) (set_references (references env ++ [x]) env)
  = live_reference (Some r) env.
Proof.
  unfold live_reference. cbn [references set_references]. intros [v Hv].
  destruct (references env !! r) as [o|] eqn:Hr; [|discriminate].
  by rewrite (lookup_app_l_Some _ _ _ _ Hr).
Qed.

Lemma live_reference_lt r env :
  is_Some (live_reference (Some r) env) -> (r < length (references env))%nat.
Proof.
  unfold live_reference. intros [v Hv].
  destruct (references env !! r) as [o|] eqn:Hr; [|discriminate].
  by eapply lookup_lt_Some.
Qed.

Section Lifecycle.
Context {T : Type}.

Abbreviation store := (@store T).

Lemma tidy_same (env env' : napi_env) (mem mem' : store) :
  references env' = references env ->
  wrappings mem' = wrappings mem ->
  tidy env mem -> tidy env' mem'.
Proof.
  intros Hr Hw [Hlive Hone]. unfold tidy, live_reference. rewrite Hr, Hw.
  split; [exact Hlive|exact Hone].
Qed.

Lemma slot_after_insert (w : nat) (wrapping : Wrapping) (k rn : nat)
    (l : list (option Wrapping)) w' wrapping' i r :
  deref (Some w) l = Some wrapping ->
  deref (Some w')
    (<[w := Some {| native := native wrapping; refs := <[k := Some rn]> (refs wrapping) |}]> l)
  = Some wrapping' ->
  refs wrapping' !! i = Some (Some r) ->
  (w' = w /\ i = k /\ r = rn) \/
  ((w' <> w \/ i <> k) /\
   exists old, deref (Some w') l = Some old /\ refs old !! i = Some (Some r)).
Proof.
  intros Hw Hd Hi.
  apply deref_Some in Hd. apply list_lookup_insert_Some in Hd as [(-> & Heq & _)|[Hne Hd]].
  - injection Heq as <-. cbn [refs] in Hi.
    apply list_lookup_insert_Some in Hi as [(<- & Heq & _)|[Hne Hi]].
    + left. by injection Heq as <-.
    + right. split; [right; congruence|]. exists wrapping. by split.
  - right. split; [left; congruence|].
    exists wrapping'. split; [by apply deref_Some|exact Hi].
Qed.

Lemma tidy_SetRef this idx same_obj env (mem : store) s env' mem' :
  tidy env mem ->
  SetRef this idx same_obj env mem = Some (s, env', mem') ->
  tidy env' mem'.
Proof.
  intros Htidy H. unfold SetRef, napi_create_reference in H.
  destruct same_obj as [[| | | | |b]|]; simplify_eq; try exact Htidy.
  destruct this as [w|]; [|discriminate].
  destruct (deref (Some w) (wrappings mem)) as [wrapping|] eqn:Hw; [|discriminate].
  destruct ((0 <=? idx) && (idx <? Z.of_nat (length (refs wrapping)))); [|discriminate].
  simplify_eq. destruct Htidy as [Hlive Hone].
  set (rn := length (references env)).
  set (env' := set_references _ env).
  assert (Hfresh : forall w' old i,
    deref (Some w') (wrappings mem) = Some old -> refs old !! i <> Some (Some rn)).
  { intros w' old i Hd Hi. pose proof (live_reference_lt _ _ (Hlive _ _ _ _ Hd Hi)).
    subst rn. lia. }
  split.
  - intros w' wrapping' i r Hd Hi.
    destruct (slot_after_insert _ _ _ _ _ _ _ _ _ Hw Hd Hi)
      as [(_ & _ & ->)|(_ & old & Hd' & Hi')].
    + subst env' rn. unfold live_reference. cbn [references set_references].
      rewrite lookup_app_r by lia. rewrite Nat.sub_diag. by eexists.
    + subst env'. rewrite live_reference_app; by eapply Hlive.
  - intros w1 w2 wr1 wr2 i1 i2 r Hd1 Hd2 Hi1 Hi2.
    destruct (slot_after_insert _ _ _ _ _ _ _ _ _ Hw Hd1 Hi1)
      as [(-> & -> & ->)|(_ & old1 & Hd1' & Hi1')];
      destruct (slot_after_insert _ _ _ _ _ _ _ _ _ Hw Hd2 Hi2)
        as [(-> & -> & Hr)|(_ & old2 & Hd2' & Hi2')].
    + by split.
    + by destruct (Hfresh _ _ _ Hd2' Hi2').
    + subst r. by destruct (Hfresh _ _ _ Hd1' Hi1').
    + by eapply Hone.
Qed.

Lemma references_Retrieve js_rcv ref_idx out env (mem : store) s out' env' :
  Retrieve js_rcv ref_idx out env mem = Some (s, out', env') ->
  references env' = references env.
Proof.
  unfold Retrieve, Retrieve_finish, napi_unwrap, napi_get_reference_value, preamble.
  intros H. repeat (case_match; simplify_eq/=); reflexivity.
Qed.

(** X6: wrapping an unwrapped object succeeds, and retrieving from that
    object then yields the native pointer that was wrapped, whatever slot
    is asked for, since every slot starts empty; wrapping the same object
    a second time is refused. *)
Theorem Create_then_Retrieve (a : nat) (c : js_cell) (cc cc' : pointer) (n n' : nat)
    (ref_idx : Z) (out : Retrieve_out) (env : napi_env) (mem : store) :
  last_exception env = None ->
  heap env !! a = Some c ->
  wrapped c = None ->
  let w := length (wrappings mem) in
  exists env' mem',
    Create (Some (JSObject a)) cc n env mem = (napi_ok, env', mem') /\
    deref (Some w) (wrappings mem') = Some {| native := cc; refs := replicate n None |} /\
    Retrieve (Some (JSObject a)) ref_idx out env' mem'
    = Some (napi_ok,
            {| cc_rcv := cc; ref := ref out;
               get_wrapping := match get_wrapping out with
                               | Some _ => Some (Some w)
                               | None => None
                               end |}, env') /\
    (Create (Some (JSObject a)) cc' n' env' mem').1.1 = napi_invalid_arg.
Proof.
  intros Hquiet Hcell Hfree w.
  unfold Create, napi_wrap, preamble. rewrite Hquiet, Hcell, Hfree, replicate_if.
  eexists _, _. split; [reflexivity|].
  assert (Hrecord : deref (Some w)
            (wrappings (set_wrappings
               (wrappings mem ++ [Some {| native := cc; refs := replicate n None |}]) mem))
          = Some {| native := cc; refs := replicate n None |}).
  { unfold deref. cbn [wrappings set_wrappings]. subst w.
    rewrite lookup_app_r by lia. by rewrite Nat.sub_diag. }
  split; [exact Hrecord|].
  assert (Hlt : (a < length (heap env))%nat) by (by eapply lookup_lt_Some).
  split.
  - match goal with
    | |- Retrieve _ _ _ ?e ?m = _ =>
        assert (Hinst : wrapped_instance (Some (JSObject a)) (Some w)
                          {| native := cc; refs := replicate n None |} e m)
    end.
    { split; [|exact Hrecord].
      unfold napi_unwrap, preamble. cbn [last_exception set_heap heap].
      rewrite Hquiet, list_lookup_insert_eq by exact Hlt. reflexivity. }
    rewrite (WrappingFacts.Retrieve_skips _ _ _ _ _ _ ref_idx Hinst); [reflexivity|].
    cbn [refs]. rewrite length_replicate.
    destruct (Z.lt_ge_cases ref_idx 0) as [|Hnonneg]; [by left|right].
    destruct (Z.lt_ge_cases ref_idx (Z.of_nat n)) as [Hin|]; [right|by left].
    apply lookup_replicate_2. lia.
  - cbn [last_exception set_heap heap].
    rewrite Hquiet, list_lookup_insert_eq by exact Hlt. reflexivity.
Qed.

(** X7: when [Create] fails the environment and the native objects are
    as before, but the record it allocated stays in the store, and on a
    bounded world no script object leads to it. *)
Theorem failed_Create_leaks (js_rcv : napi_value) (cc : pointer) (n : nat)
    (s : napi_status) (env env' : napi_env) (mem mem' : store) :
  bounded env mem ->
  Create js_rcv cc n env mem = (s, env', mem') ->
  s <> napi_ok ->
  env' = env /\
  objects mem' = objects mem /\
  deref (Some (length (wrappings mem))) (wrappings mem')
  = Some {| native := cc; refs := replicate n None |} /\
  (forall v, napi_unwrap v env' <> Ok (Some (length (wrappings mem))) env').
Proof.
  intros Hbounded Hcreate Hs. unfold Create in Hcreate. rewrite replicate_if in Hcreate.
  assert (env' = env /\
          mem' = set_wrappings
                   (wrappings mem ++ [Some {| native := cc; refs := replicate n None |}]) mem)
    as [-> ->].
  { unfold napi_wrap, preamble in Hcreate.
    repeat case_match; simplify_eq; done. }
  split; [reflexivity|]. split; [reflexivity|]. split.
  - unfold deref. cbn [wrappings set_wrappings].
    rewrite lookup_app_r by lia. by rewrite Nat.sub_diag.
  - intros v Hv. unfold napi_unwrap, preamble in Hv.
    destruct (last_exception env); [discriminate|].
    destruct v as [[| | | | |b]|]; try discriminate.
    destruct (heap env !! b) as [cell|] eqn:Hcell; [|discriminate].
    cbn in Hv. destruct (wrapped cell) as [p|] eqn:Hp; [|discriminate].
    injection Hv as ->. specialize (Hbounded _ _ _ Hcell Hp). lia.
Qed.

(** X8: storing a reference in a slot that already holds one does not
    release the old reference: it stays live, no record holds it any
    more, and the world stays tidy. *)
Theorem overwritten_reference_leaks (w : nat) (idx : Z) (b r_old : nat)
    (wrapping : Wrapping) (env : napi_env) (mem : store) :
  tidy env mem ->
  deref (Some w) (wrappings mem) = Some wrapping ->
  0 <= idx ->
  refs wrapping !! Z.to_nat idx = Some (Some r_old) ->
  exists env' mem',
    SetRef (Some w) idx (Some (JSObject b)) env mem = Some (napi_ok, env', mem') /\
    tidy env' mem' /\
    is_Some (live_reference (Some r_old) env') /\
    (forall w' wrapping' i,
       deref (Some w') (wrappings mem') = Some wrapping' ->
       refs wrapping' !! i <> Some (Some r_old)).
Proof.
  intros Htidy Hw Hidx Hslot.
  assert (Hlt : (Z.to_nat idx < length (refs wrapping))%nat) by (by eapply lookup_lt_Some).
  destruct (SetRef (Some w) idx (Some (JSObject b)) env mem) as [[[s env'] mem']|] eqn:Hset.
  2:{ unfold SetRef, napi_create_reference in Hset. rewrite Hw in Hset.
      destruct (Z.leb_spec 0 idx); [|lia].
      destruct (Z.ltb_spec idx (Z.of_nat (length (refs wrapping)))); [|lia].
      discriminate. }
  pose proof (tidy_SetRef _ _ _ _ _ _ _ _ Htidy Hset) as Htidy'.
  unfold SetRef, napi_create_reference in Hset. rewrite Hw in Hset.
  destruct (Z.leb_spec 0 idx); [|lia].
  destruct (Z.ltb_spec idx (Z.of_nat (length (refs wrapping)))); [|lia].
  cbn [andb] in Hset. simplify_eq.
  destruct Htidy as [Hlive Hone].
  pose proof (Hlive _ _ _ _ Hw Hslot) as Hold.
  eexists _, _. split; [reflexivity|]. split; [exact Htidy'|]. split.
  - by rewrite live_reference_app.
  - intros w' wrapping' i Hd Hi. cbn [wrappings set_wrappings] in Hd.
    destruct (slot_after_insert _ _ _ _ _ _ _ _ _ Hw Hd Hi)
      as [(_ & _ & Hr)|(Hne & old & Hd' & Hi')].
    + apply live_reference_lt in Hold. lia.
    + destruct (Hone _ _ _ _ _ _ _ Hd' Hw Hi' Hslot) as [-> ->].
      by destruct Hne.
Qed.

(** X9: wrapping a new instance keeps the world tidy, whether the host
    accepts the wrap or not. *)
Theorem Create_keeps_tidy (js_rcv : napi_value) (cc : pointer) (n : nat)
    (s : napi_status) (env env' : napi_env) (mem mem' : store) :
  tidy env mem ->
  Create js_rcv cc n env mem = (s, env', mem') ->
  tidy env' mem'.
Proof.
  intros [Hlive Hone] Hcreate. unfold Create in Hcreate. rewrite replicate_if in Hcreate.
  assert (references env' = references env /\
          mem' = set_wrappings
                   (wrappings mem ++ [Some {| native := cc; refs := replicate n None |}]) mem)
    as [Hr ->].
  { unfold napi_wrap, preamble in Hcreate.
    repeat case_match; simplify_eq; done. }
  assert (Hslot : forall w wrapping i r,
    deref (Some w) (wrappings (set_wrappings
      (wrappings mem ++ [Some {| native := cc; refs := replicate n None |}]) mem))
    = Some wrapping ->
    refs wrapping !! i = Some (Some r) ->
    deref (Some w) (wrappings mem) = Some wrapping).
  { intros w wrapping i r Hd Hi. cbn [wrappings set_wrappings] in Hd.
    apply deref_Some in Hd. apply deref_Some.
    apply lookup_app_Some in Hd as [Hd|[_ Hd]]; [exact Hd|].
    apply list_lookup_singleton_Some in Hd as [_ Heq]. injection Heq as <-.
    cbn [refs] in Hi. apply lookup_replicate in Hi as [? _]. discriminate. }
  unfold tidy, live_reference. rewrite Hr. split.
  - intros w wrapping i r Hd Hi. eapply Hlive; [by eapply Hslot|exact Hi].
  - intros w1 w2 wr1 wr2 i1 i2 r Hd1 Hd2 Hi1 Hi2.
    eapply Hone; [by eapply Hslot|by eapply Hslot|exact Hi1|exact Hi2].
Qed.

(** X10: on a tidy world the finaliser of a live record whose native
    object is live runs to its end without throwing, and the world it
    leaves is tidy: the references of the other records are untouched. *)
Theorem Destroy_keeps_tidy (w : nat) (wrapping : Wrapping) (t : T)
    (env : napi_env) (mem : store) :
  tidy env mem ->
  deref (Some w) (wrappings mem) = Some wrapping ->
  deref (native wrapping) (objects mem) = Some t ->
  exists env' mem',
    Destroy (Some w) env mem = Some (env', mem') /\
    last_exception env' = last_exception env /\
    tidy env' mem'.
Proof.
  intros [Hlive Hone] Hw Hnative.
  assert (Hdup : NoDup (held (refs wrapping))).
  { apply NoDup_held. intros i j r Hi Hj. by destruct (Hone _ _ _ _ _ _ _ Hw Hw Hi Hj). }
  assert (Hall : forall r, r ∈ held (refs wrapping) -> is_Some (live_reference (Some r) env)).
  { intros r Hr. apply elem_of_held in Hr as [i Hi]. by eapply Hlive. }
  unfold Destroy. rewrite Hw, (WrappingFacts.Destroy_for_released _ _ Hdup Hall).
  destruct (native wrapping) as [a|] eqn:Ha; [|discriminate].
  unfold delete_native. rewrite Hnative.
  unfold delete_wrapping. cbn [wrappings set_objects]. rewrite Hw.
  eexists _, _. split; [reflexivity|]. split.
  - cbn [last_exception record]. generalize (held (refs wrapping)) env.
    intros rs. induction rs as [|r rs IH]; intros e; [reflexivity|].
    change (released (r :: rs) e) with (released rs (release r e)). by rewrite IH.
  - assert (Hslot : forall w' wrapping',
      deref (Some w') (<[w := None]> (wrappings mem)) = Some wrapping' ->
      w' <> w /\ deref (Some w') (wrappings mem) = Some wrapping').
    { intros w' wrapping' Hd. apply deref_Some in Hd.
      apply list_lookup_insert_Some in Hd as [(_ & ? & _)|[Hne Hd]]; [discriminate|].
      split; [congruence|by apply deref_Some]. }
    split.
    + intros w' wrapping' i r Hd Hi. cbn [wrappings set_wrappings] in Hd.
      apply Hslot in Hd as [Hne Hd].
      change (is_Some (live_reference (Some r) (released (held (refs wrapping)) env))).
      rewrite WrappingFacts.live_reference_released.
      destruct (decide (r ∈ held (refs wrapping))) as [Hin|_]; [|by eapply Hlive].
      apply elem_of_held in Hin as [j Hj].
      by destruct (Hone _ _ _ _ _ _ _ Hd Hw Hi Hj).
    + intros w1 w2 wr1 wr2 i1 i2 r Hd1 Hd2 Hi1 Hi2. cbn [wrappings set_wrappings] in Hd1, Hd2.
      apply Hslot in Hd1 as [_ Hd1]. apply Hslot in Hd2 as [_ Hd2].
      by eapply Hone.
Qed.
End Lifecycle.

Section Accessors.
Context {T FieldType : Type}.
Variable C : Converter FieldType.
Variable FieldName : T -> FieldType.
Variable FieldName_assign : FieldType -> T -> T.

Lemma tidy_InstanceGetter_convert sameIdx receiver wrapping result env (mem : @store T)
    v env' mem' :
  keeps_references C ->
  tidy env mem ->
  InstanceGetter_convert C FieldName sameIdx receiver wrapping result env mem
  = Some (v, env', mem') ->
  tidy env' mem'.
Proof.
  intros [Hkeeps _] Htidy. unfold InstanceGetter_convert, NAPI_CALL.
  destruct (deref receiver (objects mem)) as [target|]; [|discriminate].
  pose proof (Hkeeps (FieldName target) result env) as Hr.
  destruct (ToJS C (FieldName target) result env) as [[s made] env1]. cbn [env_of] in Hr.
  assert (Htidy1 : tidy env1 mem) by (by eapply tidy_same).
  assert (Hthrow : forall s0, tidy (throw_last_error s0 env1) mem).
  { intros s0. eapply tidy_same; [apply references_throw_last_error|reflexivity|exact Htidy1]. }
  intros H.
  destruct s; simplify_eq; try apply Hthrow.
  destruct (0 <=? sameIdx); [|by simplify_eq].
  destruct (SetRef wrapping sameIdx made env1 mem) as [[[s2 env2] mem2]|] eqn:Hset;
    [|discriminate].
  pose proof (tidy_SetRef _ _ _ _ _ _ _ _ Htidy1 Hset) as Htidy2.
  destruct s2; simplify_eq; try exact Htidy2;
    (eapply tidy_same; [apply references_throw_last_error|reflexivity|exact Htidy2]).
Qed.

(** X11: with a codec that keeps the references, the accessor callbacks
    keep the world tidy on every path, the ones that throw included: a
    first read adds one fresh reference to one slot, and nothing else
    touches a slot or a reference. *)
Theorem accessors_keep_tidy (sameIdx : Z) (info : napi_callback_info) (v : napi_value)
    (env env' : napi_env) (mem mem' : @store T) :
  keeps_references C ->
  tidy env mem ->
  InstanceGetter C FieldName sameIdx info env mem = Some (v, env', mem') \/
  InstanceSetter C FieldName FieldName_assign info env mem = Some (v, env', mem') ->
  tidy env' mem'.
Proof.
  intros Hkeeps Htidy [H|H].
  - unfold InstanceGetter in H. rewrite WrappingFacts.napi_get_cb_info_this in H.
    cbn [return_call NAPI_CALL fst snd] in H.
    destruct (0 <=? sameIdx).
    + destruct (Retrieve _ _ _ _ _) as [[[s out] env1]|] eqn:Hret; [|discriminate].
      apply references_Retrieve in Hret.
      assert (Htidy1 : tidy env1 mem) by (by eapply tidy_same).
      unfold NAPI_CALL in H.
      destruct s; simplify_eq;
        try (eapply tidy_same; [apply references_throw_last_error|reflexivity|exact Htidy1]).
      match type of H with
      | match ?x with _ => _ end = _ => destruct x eqn:Href; [by simplify_eq|]
      end.
      by eapply tidy_InstanceGetter_convert.
    + destruct (Retrieve _ _ _ _ _) as [[[s out] env1]|] eqn:Hret; [|discriminate].
      apply references_Retrieve in Hret.
      assert (Htidy1 : tidy env1 mem) by (by eapply tidy_same).
      unfold NAPI_CALL in H.
      destruct s; simplify_eq;
        try (eapply tidy_same; [apply references_throw_last_error|reflexivity|exact Htidy1]).
      by eapply tidy_InstanceGetter_convert.
  - unfold InstanceSetter in H. rewrite WrappingFacts.napi_get_cb_info_this in H.
    cbn [return_call NAPI_CALL fst snd] in H.
    destruct (Retrieve _ _ _ _ _) as [[[s out] env1]|] eqn:Hret; [|discriminate].
    apply references_Retrieve in Hret.
    assert (Htidy1 : tidy env1 mem) by (by eapply tidy_same).
    unfold NAPI_CALL in H.
    destruct s; simplify_eq;
      try (eapply tidy_same; [apply references_throw_last_error|reflexivity|exact Htidy1]).
    destruct (cc_rcv out) as [a|]; [|discriminate].
    destruct (deref (Some a) (objects mem)) as [target|]; [|discriminate].
    destruct Hkeeps as [_ Hkeeps].
    match type of H with
    | context [ToNative C ?x ?y ?e] =>
        pose proof (Hkeeps x y e) as Hr; destruct (ToNative C x y e) as [[s field] env2]
    end.
    cbn [env_of] in Hr.
    destruct s; simplify_eq;
      try (eapply tidy_same; [|reflexivity|exact Htidy1];
           rewrite ?references_throw_last_error; exact Hr).
Qed.
End Accessors.

Ltac slot_cases :=
  repeat match goal with
  | H : deref (Some ?w) _ = Some _ |- _ =>
      destruct w; vm_compute in H; simplify_eq
  | H : refs _ !! ?i = Some (Some _) |- _ =>
      destruct i; vm_compute in H; simplify_eq
  end.

Lemma sample_is_tidy : tidy sample_env sample_store.
Proof. split; intros; slot_cases. Qed.

Lemma sample_read_is_tidy : tidy sample_read_env sample_read_store.
Proof.
  split; intros; slot_cases.
  - eexists. reflexivity.
  - by split.
Qed.

Lemma sample_codec_keeps_references : keeps_references sample_codec.
Proof.
  exact (ReferencesFacts.keeps_references_array Converter_uint32_t 0
           ReferencesFacts.keeps_references_uint32_t false).
Qed.

Lemma Create_then_Retrieve_witness :
  exists env' mem',
    Create (Some (JSObject 0)) (Some 0%nat) 1
      (set_heap [{| kind := KObject; elems := []; wrapped := None |}] empty_env)
      {| objects := [Some [3; 1; 2]]; wrappings := [] |}
    = (napi_ok, env', mem') /\
    deref (Some 0%nat) (wrappings mem') = Some {| native := Some 0%nat; refs := [None] |} /\
    Retrieve (Some (JSObject 0)) 0
      {| cc_rcv := None; ref := Some None; get_wrapping := Some None |} env' mem'
    = Some (napi_ok,
            {| cc_rcv := Some 0%nat; ref := Some None; get_wrapping := Some (Some 0%nat) |},
            env') /\
    (Create (Some (JSObject 0)) (Some 0%nat) 1 env' mem').1.1 = napi_invalid_arg.
Proof.
  apply (Create_then_Retrieve 0%nat {| kind := KObject; elems := []; wrapped := None |}
           (Some 0%nat) (Some 0%nat) 1 1 0
           {| cc_rcv := None; ref := Some None; get_wrapping := Some None |}
           (set_heap [{| kind := KObject; elems := []; wrapped := None |}] empty_env)
           {| objects := [Some [3; 1; 2]]; wrappings := [] |}).
  - reflexivity.
  - reflexivity.
  - reflexivity.
Defined.

Lemma failed_Create_leaks_witness :
  (Create (Some (JSObject 0)) (Some 0%nat) 2 sample_env sample_store).1.2 = sample_env /\
  objects (Create (Some (JSObject 0)) (Some 0%nat) 2 sample_env sample_store).2
  = objects sample_store /\
  deref (Some 1%nat)
    (wrappings (Create (Some (JSObject 0)) (Some 0%nat) 2 sample_env sample_store).2)
  = Some {| native := Some 0%nat; refs := [None; None] |} /\
  (forall v, napi_unwrap v sample_env <> Ok (Some 1%nat) sample_env).
Proof.
  apply (failed_Create_leaks (Some (JSObject 0)) (Some 0%nat) 2 napi_invalid_arg
           sample_env _ sample_store _).
  - intros a c p Hc Hp. destruct a; vm_compute in Hc; simplify_eq.
    vm_compute in Hp. simplify_eq. vm_compute. lia.
  - reflexivity.
  - discriminate.
Defined.

Lemma overwritten_reference_leaks_witness :
  exists env' mem',
    SetRef (Some 0%nat) 0 (Some (JSObject 1)) sample_read_env sample_read_store
    = Some (napi_ok, env', mem') /\
    tidy env' mem' /\
    is_Some (live_reference (Some 0%nat) env') /\
    (forall w' wrapping' i,
       deref (Some w') (wrappings mem') = Some wrapping' ->
       refs wrapping' !! i <> Some (Some 0%nat)).
Proof.
  apply (overwritten_reference_leaks 0%nat 0 1%nat 0%nat
           {| native := Some 0%nat; refs := [Some 0%nat] |}
           sample_read_env sample_read_store).
  - exact sample_read_is_tidy.
  - reflexivity.
  - lia.
  - reflexivity.
Defined.

Lemma Create_keeps_tidy_witness : tidy sample_env sample_store.
Proof.
  apply (Create_keeps_tidy (Some (JSObject 0)) (Some 0%nat) 1 napi_ok
           (set_heap [{| kind := KObject; elems := []; wrapped := None |}] empty_env)
           sample_env {| objects := [Some [3; 1; 2]]; wrappings := [] |} sample_store).
  - split; intros; slot_cases.
  - reflexivity.
Defined.

Lemma Destroy_keeps_tidy_witness :
  exists env' mem',
    Destroy (Some 0%nat) sample_read_env sample_read_store = Some (env', mem') /\
    last_exception env' = last_exception sample_read_env /\
    tidy env' mem'.
Proof.
  apply (Destroy_keeps_tidy 0%nat {| native := Some 0%nat; refs := [Some 0%nat] |}
           [3; 1; 2] sample_read_env sample_read_store).
  - exact sample_read_is_tidy.
  - reflexivity.
  - reflexivity.
Defined.

Lemma accessors_keep_tidy_witness : tidy sample_read_env sample_read_store.
Proof.
  apply (accessors_keep_tidy sample_codec id (fun x _ => x) 0 sample_info
           (Some (JSObject 1)) sample_env sample_read_env sample_store sample_read_store).
  - exact sample_codec_keeps_references.
  - exact sample_is_tidy.
  - left. vm_compute. reflexivity.
Defined.

End LifecycleFacts.

(** ** Settling a promise in the script *)

Module SettlingFacts.
Import Napi Conversion Promise PromiseJS.
Local Open Scope napi_scope.

Section Settling.
Context {T : Type}.
Variable C : Converter T.

Abbreviation Promise := (@Promise T).

(** X12: rejecting a pending promise that holds a live environment and
    has no script promise yet creates the script promise, creates an
    error whose message is the fixed text, and rejects the one with the
    other; the handle [ToJS] then hands out is that promise. *)
Theorem Reject_rejects_with_an_error (p : Promise) (world : napi_env) :
  state p = kPending ->
  env p = true ->
  deferred p = None ->
  last_exception world = None ->
  let a := length (heap world) in
  exists p' world',
    Reject C p world = (p', world') /\
    state p' = kRejected /\
    Promise_ToJS p' None world' = (napi_ok, Some (JSObject a), world') /\
    heap world'
    = heap world
      ++ [{| kind := KPromise (Rejected (JSObject (S a))); elems := []; wrapped := None |};
          {| kind := KError "Promise rejected"; elems := []; wrapped := None |}] /\
    last_exception world' = None.
Proof.
  intros Hstate Henv Hdeferred Hquiet a.
  unfold Reject, Conclude, Conclude_env. rewrite Hstate. cbn [State_eqb negb].
  cbn [Promise.env set_env state deferred]. rewrite Henv, Hdeferred. cbn [negb].
  unfold napi_create_promise, preamble, alloc. rewrite Hquiet.
  cbn [status_call status_call_fn set_handles state deferred fst snd].
  unfold napi_create_string_utf8_auto, napi_create_error, alloc.
  cbn [status_call c_str].
  unfold napi_reject_deferred, conclude_deferred, preamble.
  cbn [last_exception set_heap heap]. rewrite Hquiet.
  rewrite lookup_app_l by (rewrite length_app; simpl; lia).
  rewrite lookup_app_r by lia. rewrite Nat.sub_diag.
  cbn [lookup list_lookup kind status_call].
  eexists _, _. split; [reflexivity|]. split; [reflexivity|].
  split; [reflexivity|]. split; [|exact Hquiet].
  cbn [heap set_heap].
  rewrite insert_app_l by (rewrite length_app; simpl; lia).
  rewrite insert_app_r_alt by lia. fold a. rewrite Nat.sub_diag.
  rewrite <- app_assoc. f_equal. rewrite length_app, Nat.add_1_r. fold a.
  vm_compute. reflexivity.
Qed.

Lemma heap_throw_last_error (s : napi_status) (world : napi_env) (a : nat) (c : js_cell) :
  heap world !! a = Some c -> heap (throw_last_error s world) !! a = Some c.
Proof.
  intros Ha. unfold throw_last_error, napi_is_exception_pending, napi_throw_error, preamble.
  destruct (last_exception world); [exact Ha|].
  cbn [alloc heap set_last_exception set_heap]. by apply lookup_app_l_Some.
Qed.

(** What [Resolve] does on a pending promise that holds an environment
    and has no script promise yet. *)
Lemma Resolve_runs (result : T) (p : Promise) (world : napi_env) :
  state p = kPending ->
  env p = true ->
  deferred p = None ->
  last_exception world = None ->
  let a := length (heap world) in
  let world1 :=
    set_heap (heap world ++ [{| kind := KPromise Unsettled; elems := []; wrapped := None |}])
      world in
  let p1 := {| state := kResolved; resolution := result; env := true;
               deferred := Some a; promise := Some (JSObject a) |} in
  Resolve C result p world
  = match ToJS C result None world1 with
    | (napi_ok, js_resolution, world2) =>
        match napi_resolve_deferred (Some a) js_resolution world2 with
        | Ok _ world3 => (p1, world3)
        | Fail s world3 =>
            (p1, match s with napi_ok => world3 | _ => throw_last_error s world3 end)
        end
    | (s, _, world2) => (p1, throw_last_error s world2)
    end.
Proof.
  intros Hstate Henv Hdeferred Hquiet a world1 p1.
  unfold Resolve, Conclude, Conclude_env. rewrite Hstate. cbn [State_eqb negb].
  cbn [Promise.env set_env state deferred resolution]. rewrite Henv, Hdeferred. cbn [negb].
  unfold napi_create_promise, preamble, alloc. rewrite Hquiet.
  simpl. fold a. fold world1.
  destruct (ToJS C result None world1) as [[s js_resolution] world2].
  destruct s; simpl; try reflexivity.
  destruct (napi_resolve_deferred (Some a) js_resolution world2) as [u world3|s world3];
    simpl; [reflexivity|].
  destruct s; reflexivity.
Qed.

(** X13: resolving a pending promise that holds a live environment
    converts the payload and fulfils a newly created script promise with
    it, provided the conversion leaves that promise unsettled and throws
    nothing; [ToJS] then hands out the fulfilled promise. *)
Theorem Resolve_fulfils (result : T) (v : js_value) (c : js_cell) (p : Promise)
    (world world2 : napi_env) :
  state p = kPending ->
  env p = true ->
  deferred p = None ->
  last_exception world = None ->
  let a := length (heap world) in
  ToJS C result None
    (set_heap (heap world ++ [{| kind := KPromise Unsettled; elems := []; wrapped := None |}])
       world)
  = (napi_ok, Some v, world2) ->
  last_exception world2 = None ->
  heap world2 !! a = Some c ->
  kind c = KPromise Unsettled ->
  let world' := set_heap (<[a := set_kind (KPromise (Fulfilled v)) c]> (heap world2)) world2 in
  exists p',
    Resolve C result p world = (p', world') /\
    state p' = kResolved /\
    resolution p' = result /\
    Promise_ToJS p' None world' = (napi_ok, Some (JSObject a), world').
Proof.
  intros Hstate Henv Hdeferred Hquiet a Hto Hquiet2 Hcell Hkind world'.
  rewrite (Resolve_runs result p world Hstate Henv Hdeferred Hquiet). cbv zeta.
  fold a. rewrite Hto.
  unfold napi_resolve_deferred, conclude_deferred, preamble.
  rewrite Hquiet2, Hcell, Hkind.
  eexists. split; [reflexivity|]. by repeat split.
Qed.

(** X14: when the conversion of the payload fails, [Resolve] throws, but
    the promise is recorded as resolved all the same: the script promise
    stays unsettled, and no later [Resolve] or [Reject] does anything. *)
Theorem failed_conversion_strands_the_promise (result : T) (s : napi_status)
    (v : napi_value) (c : js_cell) (calls : list (@call T)) (p : Promise)
    (world world2 : napi_env) :
  state p = kPending ->
  env p = true ->
  deferred p = None ->
  last_exception world = None ->
  let a := length (heap world) in
  ToJS C result None
    (set_heap (heap world ++ [{| kind := KPromise Unsettled; elems := []; wrapped := None |}])
       world)
  = (s, v, world2) ->
  s <> napi_ok ->
  heap world2 !! a = Some c ->
  exists p',
    Resolve C result p world = (p', throw_last_error s world2) /\
    state p' = kResolved /\
    napi_is_exception_pending (throw_last_error s world2) = true /\
    heap (throw_last_error s world2) !! a = Some c /\
    perform_all C calls (p', throw_last_error s world2) = (p', throw_last_error s world2).
Proof.
  intros Hstate Henv Hdeferred Hquiet a Hto Hs Hcell.
  rewrite (Resolve_runs result p world Hstate Henv Hdeferred Hquiet). cbv zeta.
  fold a. rewrite Hto.
  eexists. split; [by destruct s|]. split; [reflexivity|].
  split; [apply AccessorsFacts.throw_last_error_pending|].
  split; [by apply heap_throw_last_error|].
  apply PromiseFacts.perform_all_settled. discriminate.
Qed.

(** X15: a promise that holds no environment is settled on the native
    side only: the world is untouched and no script promise exists.
    Concluding it later in an environment does what the call would have
    done on a promise that held the environment from the start. *)
Theorem detached_promise_settles_later (result : T) (p : Promise) (world : napi_env) :
  state p = kPending ->
  env p = false ->
  let p1 := {| state := kResolved; resolution := result; env := false;
               deferred := deferred p; promise := promise p |} in
  let p2 := {| state := kRejected; resolution := resolution p; env := false;
               deferred := deferred p; promise := promise p |} in
  let finish (o : outcome Promise) :=
    match o with
    | (napi_ok, p', world') => (p', world')
    | (s, p', world') => (p', throw_last_error s world')
    end in
  Resolve C result p world = (p1, world) /\
  Reject C p world = (p2, world) /\
  Promise_ToJS p1 None world = (napi_ok, promise p, world) /\
  Resolve C result (set_env true p) world = finish (Conclude_env C true p1 world) /\
  Reject C (set_env true p) world = finish (Conclude_env C true p2 world).
Proof.
  intros Hstate Henv p1 p2 finish.
  unfold Resolve, Reject, Conclude. cbn [state set_env Promise.env].
  rewrite Hstate, Henv. cbn [State_eqb negb].
  repeat split; reflexivity.
Qed.

(** X16: concluding a pending promise creates its script promise at
    most once: a second conclusion changes neither the promise nor the
    world. *)
Theorem Conclude_env_once (candidate : bool) (p p1 : Promise) (world world1 : napi_env) :
  state p = kPending ->
  Conclude_env C candidate p world = (napi_ok, p1, world1) ->
  Conclude_env C candidate p1 world1 = (napi_ok, p1, world1) /\
  state p1 = kPending /\
  (env p1 = true -> is_Some (deferred p1)).
Proof.
  intros Hstate H. destruct p as [st res e d pr]. cbn [state] in Hstate. subst st.
  unfold Conclude_env, napi_create_promise, preamble, alloc in H.
  destruct e, candidate, d as [d0|]; simpl in H;
    try (destruct (last_exception world); simpl in H; [discriminate|]);
    simplify_eq; unfold Conclude_env; simpl;
    (split; [reflexivity|split; [reflexivity|]]);
    try discriminate; intros _; by eexists.
Qed.
End Settling.

Lemma Reject_rejects_with_an_error_witness :
  exists p' world',
    Reject Converter_uint32_t pending_promise empty_env = (p', world') /\
    state p' = kRejected /\
    Promise_ToJS p' None world' = (napi_ok, Some (JSObject 0), world') /\
    heap world'
    = [{| kind := KPromise (Rejected (JSObject 1)); elems := []; wrapped := None |};
       {| kind := KError "Promise rejected"; elems := []; wrapped := None |}] /\
    last_exception world' = None.
Proof.
  apply (Reject_rejects_with_an_error Converter_uint32_t pending_promise empty_env);
    reflexivity.
Defined.

Lemma Resolve_fulfils_witness :
  exists p',
    Resolve Converter_uint32_t 7 pending_promise empty_env
    = (p', set_heap [{| kind := KPromise (Fulfilled (JSNumber (double_of_Z 7)));
                        elems := []; wrapped := None |}] empty_env) /\
    state p' = kResolved /\
    resolution p' = 7 /\
    Promise_ToJS p' None
      (set_heap [{| kind := KPromise (Fulfilled (JSNumber (double_of_Z 7)));
                    elems := []; wrapped := None |}] empty_env)
    = (napi_ok, Some (JSObject 0),
       set_heap [{| kind := KPromise (Fulfilled (JSNumber (double_of_Z 7)));
                    elems := []; wrapped := None |}] empty_env).
Proof.
  apply (Resolve_fulfils Converter_uint32_t 7 (JSNumber (double_of_Z 7))
           {| kind := KPromise Unsettled; elems := []; wrapped := None |}
           pending_promise empty_env
           (set_heap [{| kind := KPromise Unsettled; elems := []; wrapped := None |}]
              empty_env)); reflexivity.
Defined.

Lemma failed_conversion_strands_the_promise_witness :
  exists p',
    Resolve refusing 7 pending_promise empty_env
    = (p', throw_last_error napi_generic_failure
             (set_heap [{| kind := KPromise Unsettled; elems := []; wrapped := None |}]
                empty_env)) /\
    state p' = kResolved /\
    napi_is_exception_pending
      (throw_last_error napi_generic_failure
         (set_heap [{| kind := KPromise Unsettled; elems := []; wrapped := None |}]
            empty_env)) = true /\
    heap (throw_last_error napi_generic_failure
            (set_heap [{| kind := KPromise Unsettled; elems := []; wrapped := None |}]
               empty_env)) !! 0%nat
    = Some {| kind := KPromise Unsettled; elems := []; wrapped := None |} /\
    perform_all refusing [CallReject; CallResolve 8]
      (p', throw_last_error napi_generic_failure
             (set_heap [{| kind := KPromise Unsettled; elems := []; wrapped := None |}]
                empty_env))
    = (p', throw_last_error napi_generic_failure
             (set_heap [{| kind := KPromise Unsettled; elems := []; wrapped := None |}]
                empty_env)).
Proof.
  apply (failed_conversion_strands_the_promise refusing 7 napi_generic_failure None
           {| kind := KPromise Unsettled; elems := []; wrapped := None |}
           [CallReject; CallResolve 8] pending_promise empty_env
           (set_heap [{| kind := KPromise Unsettled; elems := []; wrapped := None |}]
              empty_env)); try reflexivity.
  discriminate.
Defined.

Lemma detached_promise_settles_later_witness :
  Resolve Converter_uint32_t 7 detached_promise empty_env
  = ({| state := kResolved; resolution := 7; env := false; deferred := None;
        promise := None |}, empty_env).
Proof.
  apply (proj1 (detached_promise_settles_later Converter_uint32_t 7 detached_promise
                  empty_env eq_refl eq_refl)).
Defined.

Lemma Conclude_env_once_witness :
  Conclude_env Converter_uint32_t true
    {| state := kPending; resolution := 0; env := true; deferred := Some 0%nat;
       promise := Some (JSObject 0) |}
    (set_heap [{| kind := KPromise Unsettled; elems := []; wrapped := None |}] empty_env)
  = (napi_ok,
     {| state := kPending; resolution := 0; env := true; deferred := Some 0%nat;
        promise := Some (JSObject 0) |},
     set_heap [{| kind := KPromise Unsettled; elems := []; wrapped := None |}] empty_env).
Proof.
  apply (proj1 (Conclude_env_once Converter_uint32_t true detached_promise _ empty_env _
                  eq_refl eq_refl)).
Defined.

End SettlingFacts.

(** ** Exposure on globals and same-object partial properties *)

Module ExposureFacts.
Import Napi Conversion Wrapping Exposed Exposure.
Local Open Scope napi_scope.

Section SameObj.
Context {T : Type}.

(** X17: the first read of a same-object partial property converts a
    default value, creates a reference to the object obtained and stores
    it in the record; every later read returns what that reference
    designates, whatever the codec, and converts nothing. *)
Theorem same_object_property_caches (C C' : Converter T) (d d' : T)
    (info : napi_callback_info) (a b : nat) (env env1 : napi_env)
    (mem : list (option ExposedPartialSameObjProperty)) :
  cb_data info = Some a ->
  deref (Some a) mem = Some {| cached := None |} ->
  ToJS C d None env = (napi_ok, Some (JSObject b), env1) ->
  let r := length (references env1) in
  let env2 := set_references (references env1 ++ [Some (JSObject b)]) env1 in
  let mem2 := <[a := Some {| cached := Some r |}]> mem in
  SameObj_Getter C d info env mem = Some (Some (JSObject b), env2, mem2) /\
  SameObj_Getter C' d' info env2 mem2
  = Some (Some (JSObject b), record (GetReferenceValue r) env2, mem2) /\
  (forall env3 v,
     live_reference (Some r) env3 = Some v ->
     SameObj_Getter C' d' info env3 mem2
     = Some (Some v, record (GetReferenceValue r) env3, mem2)).
Proof.
  intros Hdata Hrecord Hto r env2 mem2.
  assert (Hlater : forall env3 v,
    live_reference (Some r) env3 = Some v ->
    SameObj_Getter C' d' info env3 mem2
    = Some (Some v, record (GetReferenceValue r) env3, mem2)).
  { intros env3 v Hlive. unfold SameObj_Getter, napi_get_cb_info. rewrite Hdata.
    subst mem2. erewrite AccessorsFacts.deref_insert by exact Hrecord.
    cbn [cached]. unfold napi_get_reference_value. by rewrite Hlive. }
  split; [|split; [|exact Hlater]].
  - unfold SameObj_Getter, napi_get_cb_info. rewrite Hdata, Hrecord. cbn [cached].
    rewrite Hto. reflexivity.
  - apply Hlater. subst env2 r. unfold live_reference. cbn [references set_references].
    rewrite lookup_app_r by lia. by rewrite Nat.sub_diag.
Qed.

(** X18: a read of a same-object partial property whose record is empty
    either returns an object and leaves in the record a live reference
    to that object, or returns the null handle with an exception pending
    and leaves the record empty, so that the next read converts again. *)
Theorem same_object_property_read (C : Converter T) (d : T) (info : napi_callback_info)
    (a : nat) (v : napi_value) (env env' : napi_env)
    (mem mem' : list (option ExposedPartialSameObjProperty)) :
  cb_data info = Some a ->
  deref (Some a) mem = Some {| cached := None |} ->
  SameObj_Getter C d info env mem = Some (v, env', mem') ->
  (exists b r, v = Some (JSObject b) /\
               mem' = <[a := Some {| cached := Some r |}]> mem /\
               live_reference (Some r) env' = Some (JSObject b)) \/
  (v = None /\ mem' = mem /\ napi_is_exception_pending env' = true).
Proof.
  intros Hdata Hrecord H. unfold SameObj_Getter, napi_get_cb_info in H.
  rewrite Hdata, Hrecord in H. cbn [cached] in H.
  destruct (ToJS C d None env) as [[s made] env1].
  assert (Hthrow : forall s0 e, v = None -> mem' = mem -> env' = throw_last_error s0 e ->
    (exists b r, v = Some (JSObject b) /\
                 mem' = <[a := Some {| cached := Some r |}]> mem /\
                 live_reference (Some r) env' = Some (JSObject b)) \/
    (v = None /\ mem' = mem /\ napi_is_exception_pending env' = true)).
  { intros s0 e -> -> ->. right. repeat split. apply AccessorsFacts.throw_last_error_pending. }
  destruct s; simplify_eq; try (by eapply Hthrow).
  unfold napi_create_reference in H.
  destruct made as [[| | | | |b]|]; simplify_eq; try (by eapply Hthrow).
  left. exists b, (length (references env1)). split; [reflexivity|]. split; [reflexivity|].
  unfold live_reference. cbn [references set_references].
  rewrite lookup_app_r by lia. by rewrite Nat.sub_diag.
Qed.

(** X19: the finaliser of a same-object partial property deletes an
    empty record as it is; it releases the reference of a record that
    holds a live one, then deletes the record; when the release fails it
    throws and the record is not deleted. *)
Theorem same_object_property_is_released (a : nat)
    (property : ExposedPartialSameObjProperty) (env : napi_env)
    (mem : list (option ExposedPartialSameObjProperty)) :
  deref (Some a) mem = Some property ->
  match cached property with
  | None => SameObj_Destroy (Some a) env mem = Some (env, <[a := None]> mem)
  | Some r =>
      match live_reference (Some r) env with
      | Some _ =>
          SameObj_Destroy (Some a) env mem = Some (release r env, <[a := None]> mem) /\
          live_reference (Some r) (release r env) = None /\
          deref (Some a) (<[a := None]> mem) = None
      | None =>
          SameObj_Destroy (Some a) env mem
          = Some (throw_last_error napi_invalid_arg env, mem) /\
          napi_is_exception_pending (throw_last_error napi_invalid_arg env) = true
      end
  end.
Proof.
  intros Hrecord. unfold SameObj_Destroy. rewrite Hrecord.
  destruct (cached property) as [r|]; [|reflexivity].
  unfold napi_delete_reference.
  destruct (live_reference (Some r) env) as [v|] eqn:Hlive.
  - split; [reflexivity|]. split.
    + unfold release, live_reference. cbn [references record set_references].
      unfold live_reference in Hlive.
      destruct (references env !! r) as [o|] eqn:Hr; [|discriminate].
      apply lookup_lt_Some in Hr. by rewrite list_lookup_insert_eq.
    + unfold deref in *. destruct (mem !! a) as [o|] eqn:Ha; [|discriminate].
      apply lookup_lt_Some in Ha. by rewrite list_lookup_insert_eq.
  - split; [reflexivity|apply AccessorsFacts.throw_last_error_pending].
Qed.
End SameObj.

Section Host.
Variable napi_get_global : napi_env -> ret napi_value.
Variable napi_get_named_property : napi_value -> string -> napi_env -> ret napi_value.
Variable napi_define_properties :
  napi_value -> list exposed_descriptor -> napi_env -> ret unit.
Variable napi_add_finalizer :
  napi_value -> pointer -> exposed_finalizer -> napi_env -> ret unit.

(** A host call that fails reports a status other than [napi_ok]. *)
Hypothesis get_global_fails : forall env s env',
  napi_get_global env = Fail s env' -> s <> napi_ok.
Hypothesis get_named_property_fails : forall object name env s env',
  napi_get_named_property object name env = Fail s env' -> s <> napi_ok.
Hypothesis define_properties_fails : forall object props env s env',
  napi_define_properties object props env = Fail s env' -> s <> napi_ok.
Hypothesis add_finalizer_fails : forall object data finalizer env s env',
  napi_add_finalizer object data finalizer env = Fail s env' -> s <> napi_ok.

Abbreviation GetExposureGlobals_for' := (GetExposureGlobals_for napi_get_named_property).
Abbreviation GetExposureGlobals' :=
  (GetExposureGlobals napi_get_global napi_get_named_property).
Abbreviation Define_for' := (Define_for napi_define_properties napi_add_finalizer).
Abbreviation prototypes_of' := (prototypes_of napi_get_named_property).

Lemma GetExposureGlobals_for_appends global globals : forall result s result' env env',
  GetExposureGlobals_for' global globals result env = (s, result', env') ->
  exists protos,
    result' = result ++ protos /\
    (s = napi_ok -> length protos = length globals) /\
    (s <> napi_ok -> (length protos < length globals)%nat).
Proof.
  induction globals as [|g globals IH]; intros result s result' env env' H; simpl in H.
  - simplify_eq. exists []. by rewrite app_nil_r.
  - destruct (napi_get_named_property global g env) as [dest env1|s1 env1] eqn:H1;
      simpl in H.
    2:{ simplify_eq. exists []. rewrite app_nil_r. repeat split; simpl; [|lia].
        intros ->. by destruct (get_named_property_fails _ _ _ _ _ H1). }
    destruct (napi_get_named_property dest "prototype" env1) as [proto env2|s2 env2] eqn:H2;
      simpl in H.
    2:{ simplify_eq. exists []. rewrite app_nil_r. repeat split; simpl; [|lia].
        intros ->. by destruct (get_named_property_fails _ _ _ _ _ H2). }
    apply IH in H as (protos & -> & Hok & Hfail).
    exists (proto :: protos). rewrite <- app_assoc. repeat split; simpl.
    + intros Hs. by rewrite Hok.
    + intros Hs. specialize (Hfail Hs). lia.
Qed.

Lemma GetExposureGlobals_success (globals : list string) (dests : list napi_value)
    (env env' : napi_env) :
  GetExposureGlobals' globals [] env = (napi_ok, dests, env') ->
  length dests = length globals.
Proof.
  unfold GetExposureGlobals. intros H.
  destruct (napi_get_global env) as [global env1|s1 env1] eqn:Hg; simpl in H.
  - apply GetExposureGlobals_for_appends in H as (protos & -> & Hok & _). by apply Hok.
  - simplify_eq. by destruct (get_global_fails _ _ _ Hg).
Qed.

Lemma prototypes_of_length global names env protos env' :
  prototypes_of' global names env protos env' -> length protos = length names.
Proof. induction 1; simpl; congruence. Qed.

Lemma prototypes_of_snoc global names env protos env1 name dest env2 proto env3 :
  prototypes_of' global names env protos env1 ->
  napi_get_named_property global name env1 = Ok dest env2 ->
  napi_get_named_property dest "prototype" env2 = Ok proto env3 ->
  prototypes_of' global (names ++ [name]) env (protos ++ [proto]) env3.
Proof.
  induction 1 as [env|n ns env e1 e2 e' d p ps H1 H2 _ IH]; intros Hd Hp; simpl.
  - eapply prototypes_of_cons; [exact Hd|exact Hp|constructor].
  - eapply prototypes_of_cons; [exact H1|exact H2|by apply IH].
Qed.

(** The loop of [GetExposureGlobals] after the names [seen] have given
    the prototypes [protos]. *)
Lemma GetExposureGlobals_for_prototypes global env0 globals :
  forall seen protos result s result' env env',
    prototypes_of' global seen env0 protos env ->
    GetExposureGlobals_for' global globals (result ++ protos) env = (s, result', env') ->
    (s = napi_ok ->
       exists all,
         prototypes_of' global (seen ++ globals) env0 all env' /\
         result' = result ++ all) /\
    (s <> napi_ok ->
       exists found name rest all env1,
         seen ++ globals = found ++ name :: rest /\
         prototypes_of' global found env0 all env1 /\
         result' = result ++ all /\
         (napi_get_named_property global name env1 = Fail s env' \/
          exists dest env2,
            napi_get_named_property global name env1 = Ok dest env2 /\
            napi_get_named_property dest "prototype" env2 = Fail s env')).
Proof.
  induction globals as [|g globals IH];
    intros seen protos result s result' env env' Hseen H; simpl in H.
  - simplify_eq. rewrite app_nil_r. split; [|done].
    intros _. by exists protos.
  - destruct (napi_get_named_property global g env) as [dest env1|s1 env1] eqn:H1;
      simpl in H.
    2:{ simplify_eq. split.
        - intros ->. by destruct (get_named_property_fails _ _ _ _ _ H1).
        - intros _. exists seen, g, globals, protos, env. repeat split; try done.
          by left. }
    destruct (napi_get_named_property dest "prototype" env1) as [proto env2|s2 env2] eqn:H2;
      simpl in H.
    2:{ simplify_eq. split.
        - intros ->. by destruct (get_named_property_fails _ _ _ _ _ H2).
        - intros _. exists seen, g, globals, protos, env. repeat split; try done.
          right. by exists dest, env1. }
    rewrite <- app_assoc in H.
    replace (seen ++ g :: globals) with ((seen ++ [g]) ++ globals)
      by (by rewrite <- app_assoc).
    eapply IH; [|exact H]. by eapply prototypes_of_snoc.
Qed.

(** X20: [GetExposureGlobals] asks for the global object and then, for
    each name in order, for the property of that name on the global object
    and for the property "prototype" of what it found, and appends that
    prototype to the caller's vector.  When it returns [napi_ok] the
    vector has gained the prototypes of all the names, in the order of the
    names, one per name.  When it fails, either the global object could
    not be had and the vector is as it was, or one of the two lookups
    failed for some name and the vector has gained the prototypes of the
    names before it, fewer than there are names; the status is that of the
    failed call. *)
Theorem GetExposureGlobals_appends (globals : list string) (result result' : list napi_value)
    (s : napi_status) (env env' : napi_env) :
  GetExposureGlobals' globals result env = (s, result', env') ->
  (s = napi_ok ->
     exists global env0 protos,
       napi_get_global env = Ok global env0 /\
       prototypes_of' global globals env0 protos env' /\
       result' = result ++ protos /\
       length protos = length globals) /\
  (s <> napi_ok ->
     (napi_get_global env = Fail s env' /\ result' = result) \/
     (exists global env0 found name rest protos env1,
        napi_get_global env = Ok global env0 /\
        globals = found ++ name :: rest /\
        prototypes_of' global found env0 protos env1 /\
        result' = result ++ protos /\
        (length protos < length globals)%nat /\
        (napi_get_named_property global name env1 = Fail s env' \/
         exists dest env2,
           napi_get_named_property global name env1 = Ok dest env2 /\
           napi_get_named_property dest "prototype" env2 = Fail s env'))).
Proof.
  unfold GetExposureGlobals. intros H.
  destruct (napi_get_global env) as [global env0|s1 env1] eqn:Hg; simpl in H.
  - rewrite <- (app_nil_r result) in H.
    destruct (GetExposureGlobals_for_prototypes global env0 globals [] [] result
                s result' env0 env' (prototypes_of_nil _ _ _) H) as [Hok Hfail].
    split.
    + intros Hs. destruct (Hok Hs) as (all & Hall & ->).
      exists global, env0, all. repeat split; try done.
      by eapply prototypes_of_length.
    + intros Hs. right.
      destruct (Hfail Hs) as (found & name & rest & all & env1 & Hsplit & Hall & -> & Hcall).
      exists global, env0, found, name, rest, all, env1. simpl in Hsplit.
      repeat split; try done.
      rewrite (prototypes_of_length _ _ _ _ _ Hall), Hsplit, length_app. simpl. lia.
  - simplify_eq. split.
    + intros ->. by destruct (get_global_fails _ _ _ Hg).
    + intros _. by left.
Qed.

Lemma Define_for_grows {R} (fresh : R) destroy dests : forall desc env mem s mem' env',
  Define_for' fresh destroy desc dests env mem = (s, mem', env') ->
  exists n,
    mem' = mem ++ replicate n (Some fresh) /\
    (n <= length dests)%nat /\
    (s = napi_ok -> n = length dests).
Proof.
  induction dests as [|dest dests IH]; intros desc env mem s mem' env' H; simpl in H.
  - simplify_eq. exists 0%nat. by rewrite app_nil_r.
  - destruct (napi_add_finalizer dest _ destroy env) as [u env1|s1 env1] eqn:H1;
      simpl in H.
    2:{ simplify_eq. exists 1%nat. repeat split; simpl; [lia|].
        intros ->. by destruct (add_finalizer_fails _ _ _ _ _ _ H1). }
    destruct (napi_define_properties dest _ env1) as [u2 env2|s2 env2] eqn:H2; simpl in H.
    2:{ simplify_eq. exists 1%nat. repeat split; simpl; [lia|].
        intros ->. by destruct (define_properties_fails _ _ _ _ _ H2). }
    apply IH in H as (n & -> & Hle & Hok).
    exists (S n). rewrite <- app_assoc. repeat split; simpl; [lia|].
    intros Hs. by rewrite Hok.
Qed.

(** X21: [ExposedPartialProperty<T>::Define] never reports success: the
    status it returns is the one of a call that failed, and when every
    call succeeds it ends without returning a status at all. *)
Theorem plain_Define_never_reports_success {T} (T_default : T) (attrs : Z)
    (readonly : bool) (globals : list string) (name : string) (env : napi_env)
    (mem : list (option (@ExposedPartialProperty T))) :
  match ExposedPartialProperty_Define napi_get_global napi_get_named_property
          napi_define_properties napi_add_finalizer T_default attrs readonly globals name
          env mem with
  | Some (s, _, _) => s <> napi_ok
  | None =>
      exists dests env1 mem' env',
        GetExposureGlobals' globals [] env = (napi_ok, dests, env1) /\
        length dests = length globals /\
        Define_for' {| value := T_default |} Plain_Destroy
          {| utf8name := name; attributes := attrs; getter := Some Plain_Getter;
             setter := if readonly then None else Some Plain_Setter; data := None |}
          dests env1 mem
        = (napi_ok, mem', env') /\
        mem' = mem ++ replicate (length globals) (Some {| value := T_default |})
  end.
Proof.
  unfold ExposedPartialProperty_Define.
  destruct (GetExposureGlobals' globals [] env) as [[s dests] env1] eqn:Hg.
  destruct s; try discriminate.
  pose proof (GetExposureGlobals_success _ _ _ _ Hg) as Hlen.
  match goal with
  | |- context [Define_for' ?f ?y ?desc dests env1 mem] =>
      destruct (Define_for' f y desc dests env1 mem) as [[s mem'] env'] eqn:Hdef
  end.
  pose proof (Define_for_grows _ _ _ _ _ _ _ _ _ Hdef) as (n & -> & _ & Hn).
  destruct s; try discriminate.
  exists dests, env1, (mem ++ replicate n (Some {| value := T_default |})), env'.
  rewrite Hn in * by reflexivity. rewrite <- Hlen. by repeat split.
Qed.

(** X22: [ExposedPartialSameObjProperty<T>::Define] allocates one empty
    record per destination it reaches and leaves the older records as
    they are; when it succeeds there is one new record per name. *)
Theorem same_object_Define_allocates (attrs : Z) (globals : list string) (name : string)
    (s : napi_status) (env env' : napi_env)
    (mem mem' : list (option ExposedPartialSameObjProperty)) :
  ExposedPartialSameObjProperty_Define napi_get_global napi_get_named_property
    napi_define_properties napi_add_finalizer attrs globals name env mem
  = (s, mem', env') ->
  exists n,
    mem' = mem ++ replicate n (Some {| cached := None |}) /\
    (n <= length globals)%nat /\
    (s = napi_ok -> n = length globals).
Proof.
  unfold ExposedPartialSameObjProperty_Define. intros H.
  destruct (GetExposureGlobals' globals [] env) as [[s0 dests] env1] eqn:Hg.
  destruct s0;
    try (simplify_eq; exists 0%nat; rewrite app_nil_r; repeat split; [lia|];
         by intros [=]).
  pose proof (GetExposureGlobals_success _ _ _ _ Hg) as Hlen.
  apply Define_for_grows in H as (n & -> & Hle & Hn).
  rewrite Hlen in *. by exists n.
Qed.
End Host.

Lemma flat_get_global_fails env s env' :
  flat_get_global env = Fail s env' -> s <> napi_ok.
Proof. discriminate. Qed.

Lemma flat_get_named_property_fails object name env s env' :
  flat_get_named_property object name env = Fail s env' -> s <> napi_ok.
Proof.
  unfold flat_get_named_property, preamble. intros H.
  repeat case_match; simplify_eq; discriminate.
Qed.

Lemma flat_define_properties_fails object props env s env' :
  flat_define_properties object props env = Fail s env' -> s <> napi_ok.
Proof.
  unfold flat_define_properties, preamble. intros H.
  repeat case_match; simplify_eq; discriminate.
Qed.

Lemma flat_add_finalizer_fails object data finalizer env s env' :
  flat_add_finalizer object data finalizer env = Fail s env' -> s <> napi_ok.
Proof. discriminate. Qed.

Lemma same_object_property_caches_witness :
  SameObj_Getter sample_codec [3; 1; 2] cached_property_info empty_env
    [Some {| cached := None |}]
  = Some (Some (JSObject 0),
          set_references [Some (JSObject 0)]
            (env_of (ToJS sample_codec [3; 1; 2] None empty_env)),
          [Some {| cached := Some 0%nat |}]).
Proof.
  apply (proj1 (same_object_property_caches sample_codec sample_codec [3; 1; 2] []
                  cached_property_info 0%nat 0%nat empty_env
                  (env_of (ToJS sample_codec [3; 1; 2] None empty_env))
                  [Some {| cached := None |}] eq_refl eq_refl eq_refl)).
Defined.

Lemma same_object_property_read_witness :
  (exists b r, None = Some (JSObject b) /\
               [Some {| cached := None |}]
               = <[0%nat := Some {| cached := Some r |}]> [Some {| cached := None |}] /\
               live_reference (Some r) (throw_last_error napi_invalid_arg empty_env)
               = Some (JSObject b)) \/
  (@None js_value = None /\
   [Some {| cached := None |}] = [Some {| cached := None |}] /\
   napi_is_exception_pending (throw_last_error napi_invalid_arg empty_env) = true).
Proof.
  apply (same_object_property_read Converter_uint32_t 7 cached_property_info 0%nat None
           empty_env (throw_last_error napi_invalid_arg empty_env)
           [Some {| cached := None |}] [Some {| cached := None |}]).
  - reflexivity.
  - reflexivity.
  - reflexivity.
Defined.

Lemma same_object_property_is_released_witness :
  SameObj_Destroy (Some 0%nat) (set_references [Some (JSObject 0)] empty_env)
    [Some {| cached := Some 0%nat |}]
  = Some (release 0 (set_references [Some (JSObject 0)] empty_env), [None]) /\
  live_reference (Some 0%nat) (release 0 (set_references [Some (JSObject 0)] empty_env))
  = None /\
  deref (Some 0%nat) [@None ExposedPartialSameObjProperty] = None.
Proof.
  apply (same_object_property_is_released 0%nat {| cached := Some 0%nat |}
           (set_references [Some (JSObject 0)] empty_env)
           [Some {| cached := Some 0%nat |}]).
  reflexivity.
Defined.

Lemma spread_get_named_property_fails object name env s env' :
  spread_get_named_property object name env = Fail s env' -> s <> napi_ok.
Proof.
  unfold spread_get_named_property, preamble. intros H.
  repeat (case_match; simplify_eq/=); discriminate.
Qed.

Lemma GetExposureGlobals_appends_witness :
  exists protos,
    prototypes_of spread_get_named_property (Some (JSObject 0)) ["window"; "self"]%string
      empty_env protos empty_env /\
    [Some (JSObject 106); Some (JSObject 104)] = [] ++ protos /\
    length protos = 2%nat.
Proof.
  destruct (GetExposureGlobals_appends flat_get_global spread_get_named_property
              flat_get_global_fails spread_get_named_property_fails
              ["window"; "self"]%string [] [Some (JSObject 106); Some (JSObject 104)]
              napi_ok empty_env empty_env) as [Hok _].
  - reflexivity.
  - destruct (Hok eq_refl) as (global & env0 & protos & Hg & Hp & Hr & Hl).
    injection Hg as <- <-. exists protos. repeat split; assumption.
Defined.

Lemma plain_Define_never_reports_success_witness :
  match ExposedPartialProperty_Define flat_get_global flat_get_named_property
          flat_define_properties flat_add_finalizer 0 0 false ["window"]%string "answer"
          empty_env [] with
  | Some (s, _, _) => s <> napi_ok
  | None =>
      exists dests env1 mem' env',
        GetExposureGlobals flat_get_global flat_get_named_property ["window"]%string []
          empty_env
        = (napi_ok, dests, env1) /\
        length dests = 1%nat /\
        Define_for flat_define_properties flat_add_finalizer {| value := 0 |} Plain_Destroy
          {| utf8name := "answer"; attributes := 0; getter := Some Plain_Getter;
             setter := Some Plain_Setter; data := None |}
          dests env1 []
        = (napi_ok, mem', env') /\
        mem' = [Some {| value := 0 |}]
  end.
Proof.
  exact (plain_Define_never_reports_success flat_get_global flat_get_named_property
           flat_define_properties flat_add_finalizer
           flat_get_global_fails flat_get_named_property_fails
           flat_define_properties_fails flat_add_finalizer_fails
           0 0 false ["window"]%string "answer" empty_env []).
Defined.

Lemma same_object_Define_allocates_witness :
  exists n,
    [Some {| cached := None |}; Some {| cached := None |}]
    = [] ++ replicate n (Some {| cached := None |}) /\
    (n <= 2)%nat /\
    (napi_ok = napi_ok -> n = 2%nat).
Proof.
  apply (same_object_Define_allocates flat_get_global flat_get_named_property
           flat_define_properties flat_add_finalizer
           flat_get_global_fails flat_get_named_property_fails
           flat_define_properties_fails flat_add_finalizer_fails
           0 ["window"; "self"]%string "cache" napi_ok empty_env empty_env []
           [Some {| cached := None |}; Some {| cached := None |}]).
  reflexivity.
Defined.

End ExposureFacts.
(** ** The registry of constructors *)

Module RegistryFacts.
Import Napi Conversion Wrapping Registry.
Local Open Scope napi_scope.

Section InstanceData.
Context {key : Type} `{EqDecision key}.

Abbreviation InstanceData := (@InstanceData key).

Lemma ctors_find_assign (name : key) (r : napi_ref) (l : list (key * napi_ref)) :
  ctors_find name (ctors_assign name r l) = Some r.
Proof.
  induction l as [|[k r0] l IH]; simpl.
  - by rewrite decide_True.
  - destruct (decide (k = name)) as [->|Hne]; simpl.
    + by rewrite decide_True.
    + by rewrite decide_False.
Qed.

Lemma ctors_find_assign_ne (name other : key) (r : napi_ref) (l : list (key * napi_ref)) :
  other <> name ->
  ctors_find other (ctors_assign name r l) = ctors_find other l.
Proof.
  intros Hne. induction l as [|[k r0] l IH]; simpl.
  - by rewrite decide_False.
  - destruct (decide (k = name)) as [->|Hk]; simpl.
    + by rewrite !decide_False.
    + destruct (decide (k = other)); [reflexivity|exact IH].
Qed.

(** X23: a constructor registered in the instance data that
    [GetCurrent] set up is found again by name through a later
    [GetCurrent], which returns the same object and allocates nothing;
    the reference found is live and designates the constructor, and the
    entries of the other names are as before. *)
Theorem registered_constructor_is_found (fresh this : InstanceData) (name : key) (b a : nat)
    (slot1 : pointer) (env env1 : napi_env) (mem mem1 : list (option InstanceData)) :
  GetCurrent fresh None None env mem = (napi_ok, Some a, slot1, env1, mem1) ->
  deref (Some a) mem1 = Some this ->
  exists this' env2 r,
    AddConstructor name (Some (JSObject b)) this env1 = (napi_ok, this', env2) /\
    GetCurrent fresh None slot1 env2 (<[a := Some this']> mem1)
    = (napi_ok, Some a, slot1, env2, <[a := Some this']> mem1) /\
    deref (Some a) (<[a := Some this']> mem1) = Some this' /\
    GetConstructor name this' = (Some r, this') /\
    live_reference (Some r) env2 = Some (JSObject b) /\
    (forall other, other <> name ->
       ctors_find other (ctors this') = ctors_find other (ctors this)).
Proof.
  intros Hcurrent Hthis.
  unfold GetCurrent, napi_get_instance_data, napi_set_instance_data in Hcurrent.
  simplify_eq.
  unfold AddConstructor, napi_create_reference. cbn [status_call].
  eexists _, _, _. split; [reflexivity|]. split; [reflexivity|].
  split; [by eapply AccessorsFacts.deref_insert|]. split; [|split].
  - unfold GetConstructor. cbn [ctors set_ctors]. by rewrite ctors_find_assign.
  - unfold live_reference. cbn [references set_references].
    rewrite lookup_app_r by lia. by rewrite Nat.sub_diag.
  - intros other Hne. cbn [ctors set_ctors]. by apply ctors_find_assign_ne.
Qed.

Lemma elem_of_ctors_assign (name k : key) (r r0 : napi_ref) (l : list (key * napi_ref)) :
  (k, r0) ∈ ctors_assign name r l -> r0 = r \/ (k, r0) ∈ l.
Proof.
  induction l as [|[k1 r1] l IH]; simpl; intros Hin.
  - apply list_elem_of_singleton in Hin. left. by simplify_eq.
  - destruct (decide (k1 = name)) as [->|Hne].
    + apply elem_of_cons in Hin as [Heq|Hin]; [left; by simplify_eq|].
      right. by right.
    + apply elem_of_cons in Hin as [Heq|Hin]; [right; rewrite Heq; left|].
      destruct (IH Hin) as [->|Hl]; [by left|right; by right].
Qed.

Lemma ctors_assign_twice (name : key) (r1 r2 : napi_ref) (l : list (key * napi_ref)) :
  ctors_assign name r2 (ctors_assign name r1 l) = ctors_assign name r2 l.
Proof.
  induction l as [|[k r0] l IH]; simpl.
  - by rewrite decide_True.
  - destruct (decide (k = name)) as [->|Hne]; simpl.
    + by rewrite decide_True.
    + rewrite decide_False by exact Hne. by rewrite IH.
Qed.

Lemma elem_of_ctors_find (name : key) (r : napi_ref) (l : list (key * napi_ref)) :
  ctors_find name l = Some r -> (name, r) ∈ l.
Proof.
  induction l as [|[k r0] l IH]; simpl; [discriminate|].
  destruct (decide (k = name)) as [->|Hne].
  - intros [= ->]. left.
  - intros Hf. right. by apply IH.
Qed.

(** X24: registering a second constructor under a name that is taken
    replaces the entry without releasing the reference it held: the
    first reference stays live and the registry no longer holds it, so
    that no teardown releases it. *)
Theorem reregistration_leaks (this : InstanceData) (name : key) (b1 b2 : nat)
    (env : napi_env) :
  (forall k r, (k, Some r) ∈ ctors this -> is_Some (live_reference (Some r) env)) ->
  exists this1 env1 this2 env2 r1 r2,
    AddConstructor name (Some (JSObject b1)) this env = (napi_ok, this1, env1) /\
    AddConstructor name (Some (JSObject b2)) this1 env1 = (napi_ok, this2, env2) /\
    GetConstructor name this1 = (Some r1, this1) /\
    GetConstructor name this2 = (Some r2, this2) /\
    r1 <> r2 /\
    live_reference (Some r1) env2 = Some (JSObject b1) /\
    (forall k, (k, Some r1) ∉ ctors this2).
Proof.
  intros Hlive. unfold AddConstructor, napi_create_reference. cbn [status_call].
  eexists _, _, _, _, _, _. split; [reflexivity|]. split; [reflexivity|].
  cbn [ctors set_ctors references set_references].
  split; [unfold GetConstructor; cbn [ctors set_ctors]; by rewrite ctors_find_assign|].
  split; [unfold GetConstructor; cbn [ctors set_ctors]; by rewrite ctors_find_assign|].
  rewrite length_app. cbn [length]. split; [intros [=]; lia|]. split.
  - unfold live_reference. cbn [references set_references].
    rewrite lookup_app_l by (rewrite length_app; simpl; lia).
    rewrite lookup_app_r by lia. by rewrite Nat.sub_diag.
  - intros k Hin. rewrite ctors_assign_twice in Hin.
    apply elem_of_ctors_assign in Hin as [[=]|Hin]; [lia|].
    apply Hlive, LifecycleFacts.live_reference_lt in Hin. lia.
Qed.

Lemma InstanceData_Destroy_for_released (l : list (key * napi_ref)) : forall rs env,
  l.*2 = Some <$> rs ->
  NoDup rs ->
  (forall r, r ∈ rs -> is_Some (live_reference (Some r) env)) ->
  InstanceData_Destroy_for l env = (napi_ok, tt, released rs env).
Proof.
  induction l as [|[k r0] l IH]; intros rs env Hrs Hdup Hlive.
  - destruct rs; [reflexivity|discriminate].
  - destruct rs as [|r rs]; [discriminate|]. simpl in Hrs. injection Hrs as -> Hrs.
    apply NoDup_cons in Hdup as [Hnotin Hdup].
    destruct (Hlive r) as [v Hv]; [left|].
    cbn [InstanceData_Destroy_for]. unfold napi_delete_reference. rewrite Hv.
    change (released (r :: rs) env) with (released rs (release r env)).
    apply IH; [exact Hrs|exact Hdup|].
    intros r' Hr'. unfold release, live_reference. cbn [references record set_references].
    rewrite list_lookup_insert_ne by (intros ->; contradiction).
    apply Hlive. by right.
Qed.

(** X25: when the registry holds distinct live references, the teardown
    releases every one of them and then runs the finaliser that
    [SetData] stored, on the data and the hint stored with it; the
    finaliser is not run when the data is null. *)
Theorem teardown_releases_then_finalizes (this : InstanceData) (rs : list nat)
    (d : nat) (finalize : napi_finalize) (h : pointer) (env : napi_env) :
  (ctors this).*2 = Some <$> rs ->
  NoDup rs ->
  (forall r, r ∈ rs -> is_Some (live_reference (Some r) env)) ->
  InstanceData_Destroy (SetData (Some d) (Some finalize) h this) env
  = finalize (Some d) h (released rs env) /\
  InstanceData_Destroy (SetData None (Some finalize) h this) env = released rs env /\
  GetData (SetData (Some d) (Some finalize) h this) = Some d /\
  (forall r, r ∈ rs -> live_reference (Some r) (released rs env) = None) /\
  journal (released rs env) = journal env ++ (DeleteReference <$> rs).
Proof.
  intros Hrs Hdup Hlive. unfold InstanceData_Destroy, SetData. cbn [ctors data cb hint].
  rewrite (InstanceData_Destroy_for_released _ _ _ Hrs Hdup Hlive).
  repeat split.
  - intros r Hr. rewrite WrappingFacts.live_reference_released. by rewrite decide_True.
  - apply WrappingFacts.journal_released.
Qed.

Lemma InstanceData_Destroy_for_null (l : list (key * napi_ref)) : forall k env,
  (k, None) ∈ l ->
  exists s env0,
    s <> napi_ok /\ InstanceData_Destroy_for l env = (s, tt, throw_last_error s env0).
Proof.
  induction l as [|[k0 r0] l IH]; intros k env Hin.
  - by apply elem_of_nil in Hin.
  - simpl. destruct (napi_delete_reference r0 env) as [u env1|s env1] eqn:Hdel.
    + apply elem_of_cons in Hin as [Heq|Hin]; [|by eapply IH].
      by simplify_eq.
    + exists s, env1. split; [|reflexivity].
      unfold napi_delete_reference in Hdel. repeat case_match; simplify_eq; discriminate.
Qed.

(** X26: asking for the constructor of a name that was never
    registered returns a null reference and adds an entry for the name;
    from then on the teardown throws while releasing and never runs the
    finaliser. *)
Theorem unknown_name_poisons_teardown (this : InstanceData) (name : key)
    (env : napi_env) :
  ctors_find name (ctors this) = None ->
  exists this',
    GetConstructor name this = (None, this') /\
    ctors_find name (ctors this') = Some None /\
    (forall d finalize h,
       InstanceData_Destroy (SetData d finalize h this') env = InstanceData_Destroy this' env) /\
    napi_is_exception_pending (InstanceData_Destroy this' env) = true.
Proof.
  intros Hfind. unfold GetConstructor. rewrite Hfind.
  eexists. split; [reflexivity|]. cbn [ctors set_ctors].
  split; [apply ctors_find_assign|].
  destruct (InstanceData_Destroy_for_null (ctors_assign name None (ctors this)) name env)
    as (s & env0 & Hs & Hdestroy).
  { apply elem_of_ctors_find, ctors_find_assign. }
  unfold InstanceData_Destroy, SetData. cbn [ctors set_ctors data cb hint]. rewrite Hdestroy.
  split.
  - intros d finalize h. by destruct s.
  - destruct s; try contradiction; apply AccessorsFacts.throw_last_error_pending.
Qed.
End InstanceData.

Lemma registered_constructor_is_found_witness :
  exists this' env2 r,
    AddConstructor 7%nat (Some (JSObject 0)) empty_InstanceData ctor_env
    = (napi_ok, this', env2) /\
    GetCurrent empty_InstanceData None (Some 0%nat) env2
      (<[0%nat := Some this']> [Some empty_InstanceData])
    = (napi_ok, Some 0%nat, Some 0%nat, env2,
       <[0%nat := Some this']> [Some empty_InstanceData]) /\
    deref (Some 0%nat) (<[0%nat := Some this']> [Some empty_InstanceData]) = Some this' /\
    GetConstructor 7%nat this' = (Some r, this') /\
    live_reference (Some r) env2 = Some (JSObject 0) /\
    (forall other, other <> 7%nat ->
       ctors_find other (ctors this') = ctors_find other (ctors empty_InstanceData)).
Proof.
  apply (registered_constructor_is_found empty_InstanceData empty_InstanceData
           7%nat 0%nat 0%nat (Some 0%nat) ctor_env ctor_env []
           [Some empty_InstanceData]).
  - reflexivity.
  - reflexivity.
Defined.

Lemma reregistration_leaks_witness :
  exists this1 env1 this2 env2 r1 r2,
    AddConstructor 7%nat (Some (JSObject 0)) empty_InstanceData ctor_env
    = (napi_ok, this1, env1) /\
    AddConstructor 7%nat (Some (JSObject 0)) this1 env1 = (napi_ok, this2, env2) /\
    GetConstructor 7%nat this1 = (Some r1, this1) /\
    GetConstructor 7%nat this2 = (Some r2, this2) /\
    r1 <> r2 /\
    live_reference (Some r1) env2 = Some (JSObject 0) /\
    (forall k, (k, Some r1) ∉ ctors this2).
Proof.
  apply (reregistration_leaks empty_InstanceData 7%nat 0%nat 0%nat ctor_env).
  intros k r Hin. by apply elem_of_nil in Hin.
Defined.

Lemma teardown_releases_then_finalizes_witness :
  InstanceData_Destroy
    (SetData (Some 4%nat) (Some sample_finalize) None
       {| ctors := [(7%nat, Some 0%nat)]; data := None; cb := None;
          hint := None |})
    (set_references [Some (JSObject 0)] ctor_env)
  = sample_finalize (Some 4%nat) None
      (released [0%nat] (set_references [Some (JSObject 0)] ctor_env)).
Proof.
  apply (proj1 (teardown_releases_then_finalizes
                  {| ctors := [(7%nat, Some 0%nat)]; data := None; cb := None;
                     hint := None |}
                  [0%nat] 4%nat sample_finalize None
                  (set_references [Some (JSObject 0)] ctor_env)
                  eq_refl (NoDup_singleton 0%nat)
                  ltac:(intros r Hr; apply list_elem_of_singleton in Hr as ->;
                        by eexists))).
Defined.

Lemma unknown_name_poisons_teardown_witness :
  exists this',
    GetConstructor 8%nat
      {| ctors := [(7%nat, Some 0%nat)]; data := Some 4%nat;
         cb := Some sample_finalize; hint := None |}
    = (None, this') /\
    ctors_find 8%nat (ctors this') = Some None /\
    (forall d finalize h,
       InstanceData_Destroy (SetData d finalize h this')
         (set_references [Some (JSObject 0)] ctor_env)
       = InstanceData_Destroy this' (set_references [Some (JSObject 0)] ctor_env)) /\
    napi_is_exception_pending
      (InstanceData_Destroy this' (set_references [Some (JSObject 0)] ctor_env)) = true.
Proof.
  apply (unknown_name_poisons_teardown
           {| ctors := [(7%nat, Some 0%nat)]; data := Some 4%nat;
              cb := Some sample_finalize; hint := None |}
           8%nat (set_references [Some (JSObject 0)] ctor_env)).
  reflexivity.
Defined.

End RegistryFacts.

(** ** Overload resolution on argument prefixes; codecs that fail *)

Module OverloadFacts.
Import Napi Conversion Dispatch Codecs.
Local Open Scope napi_scope.

Lemma agrees_take (types l : list napi_valuetype) :
  (forall i t, types !! i = Some t -> l !! (0 + i)%nat = Some t) <->
  take (length types) l = types.
Proof.
  revert l. induction types as [|t0 types IH]; intros l; simpl.
  - split; [reflexivity|]. intros _ i t Hi. discriminate.
  - split.
    + intros H. pose proof (H 0%nat t0 eq_refl) as H0.
      destruct l as [|x l]; [discriminate|]. simpl in H0. injection H0 as ->.
      simpl. f_equal. apply IH. intros i t Hi. exact (H (S i) t Hi).
    + intros H. destruct l as [|x l]; [discriminate|]. simpl in H.
      injection H as -> Htake. intros [|i] t Hi; simpl in Hi |- *.
      * exact Hi.
      * by apply (proj2 (IH l) Htake).
Qed.

(** X27: when every signature is a candidate on entry, [PickSignature]
    selects the first signature whose parameter tags begin with the tags
    of the arguments, so a signature with more parameters than there are
    arguments can be selected; when no signature begins so, [sig_idx] is
    left as it was.  The environment is untouched. *)
Theorem PickSignature_takes_prefixes (argv : list napi_value) (sigs : list webidl_sig)
    (sig_idx : Z) (env : napi_env) (types : list napi_valuetype) :
  typeof_all argv env = Some types ->
  (forall s, s ∈ sigs -> candidate s = true) ->
  let fits (s : webidl_sig) := take (length types) (sig s) = types in
  (exists i s, sigs !! i = Some s /\ fits s /\
     (forall j s', (j < i)%nat -> sigs !! j = Some s' -> ~ fits s') /\
     PickSignature argv sigs sig_idx env = (napi_ok, Z.of_nat i, env)) \/
  ((forall s, s ∈ sigs -> ~ fits s) /\
   PickSignature argv sigs sig_idx env = (napi_ok, sig_idx, env)).
Proof.
  intros Hty Hall fits.
  assert (Hmark : forall i s, sigs !! i = Some s ->
    candidate (PickSignature_marks 0 types s) = true <-> fits s).
  { intros i s Hs. rewrite DispatchFacts.candidate_PickSignature_marks, agrees_take.
    split; [by intros [_ H]|]. intros H. split; [|exact H].
    apply Hall. by eapply list_elem_of_lookup_2. }
  unfold PickSignature.
  rewrite (DispatchFacts.PickSignature_scan_marks argv 0 sigs env types Hty).
  cbn [status_call_fn].
  destruct (DispatchFacts.PickSignature_first_spec
              (List.map (PickSignature_marks 0 types) sigs) 0 sig_idx)
    as [(i & m & Hi & Hc & Hbefore & Heq)|[Hnone Heq]].
  - left. change (List.map (PickSignature_marks 0 types) sigs)
      with (PickSignature_marks 0 types <$> sigs) in *.
    rewrite list_lookup_fmap in Hi.
    destruct (sigs !! i) as [s|] eqn:Hs; [|discriminate]. injection Hi as <-.
    exists i, s. split; [exact Hs|]. split; [by apply (Hmark i)|]. split.
    + intros j s' Hj Hs' Hfits. apply (Hmark j s' Hs') in Hfits.
      rewrite (Hbefore j (PickSignature_marks 0 types s') Hj) in Hfits; [discriminate|].
      by rewrite list_lookup_fmap, Hs'.
    + by rewrite Heq, Z.add_0_l.
  - right. split; [|by rewrite Heq].
    intros s Hin Hfits. apply list_elem_of_lookup in Hin as [i Hs].
    apply (Hmark i s Hs) in Hfits.
    rewrite (Hnone i (PickSignature_marks 0 types s)) in Hfits; [discriminate|].
    change (List.map (PickSignature_marks 0 types) sigs)
      with (PickSignature_marks 0 types <$> sigs).
    by rewrite list_lookup_fmap, Hs.
Qed.

Lemma PickSignature_scan_app (before : list napi_value) : forall idx rest sigs env types,
  typeof_all before env = Some types ->
  PickSignature_scan idx (before ++ rest) sigs env
  = PickSignature_scan (idx + length before) rest
      (List.map (PickSignature_marks idx types) sigs) env.
Proof.
  induction before as [|arg before IH]; intros idx rest sigs env types Hty.
  - injection Hty as <-. simpl. by rewrite List.map_id, Nat.add_0_r.
  - unfold typeof_all in Hty. simpl in Hty.
    destruct (napi_typeof arg env) as [t env'|] eqn:Harg; [|discriminate].
    pose proof (DispatchFacts.napi_typeof_env _ _ _ _ Harg) as ->.
    simpl in Hty. fold (typeof_all before env) in Hty.
    destruct (typeof_all before env) as [ts|] eqn:Hrest; [|discriminate].
    injection Hty as <-. simpl. rewrite Harg. simpl.
    rewrite (IH _ _ _ _ _ Hrest), List.map_map. f_equal. lia.
Qed.

(** X28: when the type of an argument cannot be queried, [PickSignature]
    returns the status of the query at once: [sig_idx] keeps its value,
    nothing is thrown and the environment is untouched, whatever the
    signatures and the arguments that follow. *)
Theorem PickSignature_unreadable_argument (before after : list napi_value)
    (arg : napi_value) (sigs : list webidl_sig) (sig_idx : Z) (s : napi_status)
    (env env' : napi_env) (types : list napi_valuetype) :
  typeof_all before env = Some types ->
  napi_typeof arg env = Fail s env' ->
  PickSignature (before ++ arg :: after) sigs sig_idx env = (napi_invalid_arg, sig_idx, env).
Proof.
  intros Hty Harg. unfold PickSignature.
  rewrite (PickSignature_scan_app before 0 (arg :: after) sigs env types Hty).
  cbn [PickSignature_scan]. rewrite Harg. cbn [status_call status_call_fn].
  unfold napi_typeof in Harg. repeat case_match; simplify_eq; reflexivity.
Qed.

Lemma PickSignature_takes_prefixes_witness :
  let fits (s : webidl_sig) := take 1 (sig s) = [napi_number] in
  (exists i s,
     declared [[napi_string]; [napi_number; napi_string]; [napi_number]] !! i = Some s /\
     fits s /\
     (forall j s', (j < i)%nat ->
        declared [[napi_string]; [napi_number; napi_string]; [napi_number]] !! j = Some s' ->
        ~ fits s') /\
     PickSignature [number]
       (declared [[napi_string]; [napi_number; napi_string]; [napi_number]]) (-1) empty_env
     = (napi_ok, Z.of_nat i, empty_env)) \/
  ((forall s, s ∈ declared [[napi_string]; [napi_number; napi_string]; [napi_number]] ->
      ~ fits s) /\
   PickSignature [number]
     (declared [[napi_string]; [napi_number; napi_string]; [napi_number]]) (-1) empty_env
   = (napi_ok, -1, empty_env)).
Proof.
  apply (PickSignature_takes_prefixes [number]
           (declared [[napi_string]; [napi_number; napi_string]; [napi_number]])
           (-1) empty_env [napi_number]).
  - reflexivity.
  - intros s Hs. unfold declared in Hs. simpl in Hs.
    repeat (apply elem_of_cons in Hs as [->|Hs]; [reflexivity|]).
    by apply elem_of_nil in Hs.
Defined.

Lemma PickSignature_unreadable_argument_witness :
  PickSignature ([number] ++ None :: [text])
    (declared [[napi_number; napi_string]]) (-1) empty_env
  = (napi_invalid_arg, -1, empty_env).
Proof.
  apply (PickSignature_unreadable_argument [number] [text] None
           (declared [[napi_number; napi_string]]) (-1) napi_invalid_arg
           empty_env empty_env [napi_number]).
  - reflexivity.
  - reflexivity.
Defined.

(** X29: the codecs of the numeric types, of strings and of the opaque
    object type fail cleanly: [ToNative] leaves the environment as it was
    and, when it refuses the value, the caller's output too; [ToJS] of a
    number or a string always succeeds. *)
Theorem primitive_codecs_fail_cleanly :
  fails_cleanly Converter_uint32_t /\
  fails_cleanly Converter_int32_t /\
  fails_cleanly Converter_int64_t /\
  fails_cleanly Converter_double /\
  fails_cleanly Converter_unsigned_long /\
  fails_cleanly Converter_DOMString /\
  fails_cleanly Converter_object /\
  always_converts Converter_uint32_t /\
  always_converts Converter_int32_t /\
  always_converts Converter_int64_t /\
  always_converts Converter_double /\
  always_converts Converter_unsigned_long /\
  always_converts Converter_DOMString.
Proof.
  unfold fails_cleanly, always_converts.
  repeat match goal with |- _ /\ _ => split end.
  all: try (intros x r env; eexists; reflexivity).
  all: intros v x env s x' env' H; cbn in H.
  all: unfold unsigned_long_ToNative, DOMString_ToNative, return_call, status_call,
         napi_get_value_uint32, napi_get_value_int32, napi_get_value_int64,
         napi_get_value_double, napi_get_value_string_utf8_length,
         napi_get_value_string_utf8 in H; cbn in H.
  all: repeat (first [case_match | progress simplify_eq/=
                     | progress unfold return_call, napi_get_value_int64 in *]);
         try (by split).
  all: split; [reflexivity|intros Hs].
  all: match goal with
       | H : napi_status_eqb ?s napi_ok = _ |- _ => destruct s; simpl in H; congruence
       end.
Qed.

End OverloadFacts.
